(** * Kuzzle JavaScript SDK: request lifecycle, connection state machine,
      realtime observer and search cursors

    A shallow embedding of [src/Kuzzle.ts] (query dispatcher, offline queue,
    connection handling), of the realtime [Observer] and of the search-result
    cursor, followed by the properties established about them.

    Conventions of the embedding:
    - JavaScript numbers that hold counts, sizes and timestamps are [Z];
    - [Date.now()] is the argument [now] of each synchronous operation;
    - an [await]ed external call (token check, authenticator, realtime
      subscription, queue loader) is represented by its outcome, passed as an
      argument or held in the configuration;
    - calls to collaborators (transport protocol, realtime controller,
      promise continuations, event listeners) are recorded in a trace;
      listeners are opaque and do not re-enter the SDK;
    - a thrown exception or a rejected promise is the [Throw] completion;
    - an object that came as JSON is the map of its own properties; where
      the code reads a property through the prototype of an object (the
      table of protected events, the volatile data of a request), the
      properties of [Object.prototype] are accounted for. *)

From stdpp Require Import gmap strings list fin_maps pretty sorting.

#[local] Set Warnings "-register-all".
#[local] Open Scope Z_scope.
#[local] Open Scope string_scope.
#[local] Open Scope list_scope.

(** ** JSON values and the JavaScript notions used on them *)

Inductive json :=
| JNull
| JBool (b : bool)
| JNum (n : Z)
| JStr (s : string)
| JArr (l : list json)
| JObj (o : gmap string json).

(** A completion: normal return, or a thrown error / rejected promise. *)
Inductive completion (A : Type) :=
| Normal (a : A)
| Throw (msg : string).
Arguments Normal {A} a.
Arguments Throw {A} msg.

Module Js.

(** [Boolean(v)] for a defined value. *)
Definition truthy (v : json) : bool :=
  match v with
  | JNull => false
  | JBool b => b
  | JNum n => negb (Z.eqb n 0)
  | JStr s => negb (String.eqb s "")
  | JArr _ | JObj _ => true
  end.

(** [Boolean(o[k])]: a missing property reads [undefined], which is falsy. *)
Definition truthy_prop (v : option json) : bool :=
  match v with
  | Some v => truthy v
  | None => false
  end.

Definition join (sep : string) (l : list string) : string :=
  match l with
  | [] => ""
  | x :: rest => fold_left (fun acc y => acc +:+ sep +:+ y) rest x
  end.

(** [String(v)], the coercion applied to a value used as a property key. *)
Fixpoint to_string (v : json) : string :=
  match v with
  | JNull => "null"
  | JBool true => "true"
  | JBool false => "false"
  | JNum n => pretty n
  | JStr s => s
  | JArr l =>
      join "," (map (fun x => match x with JNull => "" | _ => to_string x end) l)
  | JObj _ => "[object Object]"
  end.

(** The properties that every object inherits from [Object.prototype]:
    a read [o[k]] that finds no own property [k] finds them ([__proto__]
    is the accessor of the prototype). *)
Definition objectPrototype : list string :=
  ["constructor"; "__defineGetter__"; "__defineSetter__"; "hasOwnProperty";
   "__lookupGetter__"; "__lookupSetter__"; "isPrototypeOf";
   "propertyIsEnumerable"; "toString"; "valueOf"; "__proto__";
   "toLocaleString"].

(** [x || y] on a property that may be missing. *)
Definition or_else (x : option json) (y : json) : json :=
  match x with
  | Some v => if truthy v then v else y
  | None => y
  end.

End Js.

(** ** The SDK object ([src/Kuzzle.ts]) *)

Module Kuzzle.

(** A request object once [query] has normalised it: its own properties
    other than [volatile], and the reference held by its [volatile]
    property. Volatile objects live in the store of the SDK, so that a
    request whose [volatile] is the SDK-wide object shares it. *)
Record Request := {
  fields : gmap string json;
  volatile_ref : option nat
}.

(** An entry of the offline queue. [promise] identifies the
    [resolve]/[reject] pair of the entry; [request] is [None] when an entry
    supplied by the queue loader has no [request] property. *)
Record QueueEntry := {
  request : option Request;
  timeout : Z;
  ts : Z;
  promise : nat
}.

Inductive payload :=
| PVoid
| PRequest (r : option Request)
| PError (msg : string).

(** Handlers the SDK attaches to the transport protocol in [connect]. *)
Inductive handler :=
| OnQueryError
| OnTokenExpired
| OnConnect
| OnNetworkError
| OnDisconnect
| OnReconnect
| OnDiscarded
| OnRenewalStart
| OnRenewalDone.

(** Calls made to collaborators, in the order they are made. *)
Inductive effect :=
| StartTimeout (delay : Z) (settles : nat)
| ProtocolQuery (r : option Request) (settles : nat)
| ProtocolAddListener (ev : string) (h : handler)
| ProtocolConnect
| ProtocolClose
| Emitted (ev : string) (p : payload)
| Rejected (p : nat) (msg : string)
| SetTimeout (delay : Z)
| CallAuthenticator.

(** What the [offlineQueueLoader] callback yields when invoked. *)
Inductive LoaderResult :=
| LoadedArray (additionalQueue : list QueueEntry)
| LoadedOther (type_of : string)
| LoaderFails (msg : string).

(** [auth.checkToken()]: the [valid] and [kuid] of its result, or a failure. *)
Inductive CheckToken :=
| Checked (valid : bool) (kuid : string)
| CheckFails (msg : string).

(** The [authenticator] property: unset, set to something that is not a
    function, or a function that returns or throws. *)
Inductive Authenticator :=
| NoAuthenticator
| NotAFunction
| AuthenticatorReturns
| AuthenticatorThrows (msg : string).

(** Properties fixed during the operations modelled here. [volatile] is
    the location, in the store, of the value of [this.volatile]: a location
    that the store does not hold stands for [null] (which the constructor
    accepts, as it accepts an array: an array is held as the object of its
    elements, keyed by their indexes). *)
Record Config := {
  protocol_id : string;
  sdkName : string;
  volatile : nat;
  autoQueue : bool;
  autoReplay : bool;
  queueFilter : option (gmap string json -> bool);
  offlineQueueLoader : option LoaderResult;
  queueMaxSize : Z;
  queueTTL : Z;
  replayInterval : Z;
  requestTimeout : Z;
  eventTimeout : Z;
  authenticator : Authenticator;
  authenticateRequest : gmap string json -> gmap string json
}.

Record SDK := {
  cfg : Config;
  protocol_ready : bool;
  store : gmap nat (gmap string json);
  offlineQueue : list QueueEntry;
  queuing : bool;
  reconnectInProgress : bool;
  loggedIn : bool;
  lastEmitted : gmap string Z;
  next_promise : nat;
  pendingReplays : nat;
  pendingLoads : nat;
  trace : list effect
}.

Definition set_store (h : gmap nat (gmap string json)) (s : SDK) : SDK :=
  {| cfg := cfg s; protocol_ready := protocol_ready s; store := h;
     offlineQueue := offlineQueue s; queuing := queuing s;
     reconnectInProgress := reconnectInProgress s; loggedIn := loggedIn s;
     lastEmitted := lastEmitted s; next_promise := next_promise s;
     pendingReplays := pendingReplays s; pendingLoads := pendingLoads s;
     trace := trace s |}.

Definition set_offlineQueue (q : list QueueEntry) (s : SDK) : SDK :=
  {| cfg := cfg s; protocol_ready := protocol_ready s; store := store s;
     offlineQueue := q; queuing := queuing s;
     reconnectInProgress := reconnectInProgress s; loggedIn := loggedIn s;
     lastEmitted := lastEmitted s; next_promise := next_promise s;
     pendingReplays := pendingReplays s; pendingLoads := pendingLoads s;
     trace := trace s |}.

Definition set_queuing (b : bool) (s : SDK) : SDK :=
  {| cfg := cfg s; protocol_ready := protocol_ready s; store := store s;
     offlineQueue := offlineQueue s; queuing := b;
     reconnectInProgress := reconnectInProgress s; loggedIn := loggedIn s;
     lastEmitted := lastEmitted s; next_promise := next_promise s;
     pendingReplays := pendingReplays s; pendingLoads := pendingLoads s;
     trace := trace s |}.

Definition set_reconnectInProgress (b : bool) (s : SDK) : SDK :=
  {| cfg := cfg s; protocol_ready := protocol_ready s; store := store s;
     offlineQueue := offlineQueue s; queuing := queuing s;
     reconnectInProgress := b; loggedIn := loggedIn s;
     lastEmitted := lastEmitted s; next_promise := next_promise s;
     pendingReplays := pendingReplays s; pendingLoads := pendingLoads s;
     trace := trace s |}.

Definition set_loggedIn (b : bool) (s : SDK) : SDK :=
  {| cfg := cfg s; protocol_ready := protocol_ready s; store := store s;
     offlineQueue := offlineQueue s; queuing := queuing s;
     reconnectInProgress := reconnectInProgress s; loggedIn := b;
     lastEmitted := lastEmitted s; next_promise := next_promise s;
     pendingReplays := pendingReplays s; pendingLoads := pendingLoads s;
     trace := trace s |}.

Definition set_lastEmitted (m : gmap string Z) (s : SDK) : SDK :=
  {| cfg := cfg s; protocol_ready := protocol_ready s; store := store s;
     offlineQueue := offlineQueue s; queuing := queuing s;
     reconnectInProgress := reconnectInProgress s; loggedIn := loggedIn s;
     lastEmitted := m; next_promise := next_promise s;
     pendingReplays := pendingReplays s; pendingLoads := pendingLoads s;
     trace := trace s |}.

Definition set_next_promise (n : nat) (s : SDK) : SDK :=
  {| cfg := cfg s; protocol_ready := protocol_ready s; store := store s;
     offlineQueue := offlineQueue s; queuing := queuing s;
     reconnectInProgress := reconnectInProgress s; loggedIn := loggedIn s;
     lastEmitted := lastEmitted s; next_promise := n;
     pendingReplays := pendingReplays s; pendingLoads := pendingLoads s;
     trace := trace s |}.

Definition set_pendingReplays (n : nat) (s : SDK) : SDK :=
  {| cfg := cfg s; protocol_ready := protocol_ready s; store := store s;
     offlineQueue := offlineQueue s; queuing := queuing s;
     reconnectInProgress := reconnectInProgress s; loggedIn := loggedIn s;
     lastEmitted := lastEmitted s; next_promise := next_promise s;
     pendingReplays := n; pendingLoads := pendingLoads s;
     trace := trace s |}.

Definition set_pendingLoads (n : nat) (s : SDK) : SDK :=
  {| cfg := cfg s; protocol_ready := protocol_ready s; store := store s;
     offlineQueue := offlineQueue s; queuing := queuing s;
     reconnectInProgress := reconnectInProgress s; loggedIn := loggedIn s;
     lastEmitted := lastEmitted s; next_promise := next_promise s;
     pendingReplays := pendingReplays s; pendingLoads := n;
     trace := trace s |}.

(** Record one more call to a collaborator. *)
Definition log (e : effect) (s : SDK) : SDK :=
  {| cfg := cfg s; protocol_ready := protocol_ready s; store := store s;
     offlineQueue := offlineQueue s; queuing := queuing s;
     reconnectInProgress := reconnectInProgress s; loggedIn := loggedIn s;
     lastEmitted := lastEmitted s; next_promise := next_promise s;
     pendingReplays := pendingReplays s; pendingLoads := pendingLoads s;
     trace := trace s ++ [e] |}.

(** *** Events *)

Definition protectedEvents : list string :=
  ["connected"; "disconnected"; "error"; "loginAttempt"; "reconnected";
   "tokenExpired"].

(** Modelled from the spec: [KuzzleEventEmitter.emit], the method of the
    base class, which is not among the sources. It hands the event to the
    listeners; the emission is recorded in the trace. *)
Definition superEmit (eventName : string) (p : payload) (s : SDK) : SDK :=
  log (Emitted eventName p) s.

(** [this._protectedEvents[eventName]] is truthy: the name is one of the
    six of the table, or one that the table inherits from
    [Object.prototype] (the value is then the inherited function, and the
    prototype itself for [__proto__]). *)
Definition protectedEvent (eventName : string) : bool :=
  bool_decide (eventName ∈ protectedEvents)
  || bool_decide (eventName ∈ Js.objectPrototype).

(** [protectedEvent.lastEmitted]. The [lastEmitted] of the object found
    for an event is kept under the name of the event; an object that has
    none of its own inherits the one of [Object.prototype], which is the
    object found for [__proto__]. *)
Definition lastEmittedOf (eventName : string) (s : SDK) : option Z :=
  match lastEmitted s !! eventName with
  | Some last => Some last
  | None => lastEmitted s !! "__proto__"
  end.

(** [emit]: a protected event is dropped when it was last emitted less than
    [eventTimeout] ago. *)
Definition emit (now : Z) (eventName : string) (p : payload) (s : SDK) : SDK :=
  if protectedEvent eventName then
    match lastEmittedOf eventName s with
    | Some last =>
        if negb (Z.eqb last 0) && Z.ltb (now - eventTimeout (cfg s)) last
        then s
        else superEmit eventName p (set_lastEmitted (<[eventName := now]> (lastEmitted s)) s)
    | None =>
        superEmit eventName p (set_lastEmitted (<[eventName := now]> (lastEmitted s)) s)
    end
  else superEmit eventName p s.

(** *** Offline queue *)

Definition TTL_MESSAGE : string :=
  "Query aborted: queued time exceeded the queueTTL option value".

Definition MAXSIZE_MESSAGE : string :=
  "Query aborted: too many queued requests (see the queueMaxSize option)".

(** The [forEach] of [_cleanQueue]: the index of the last entry whose
    timestamp is older than the TTL, starting from [lastDocumentIndex]. *)
Fixpoint lastExpired (now ttl : Z) (q : list QueueEntry)
    (index lastDocumentIndex : Z) : Z :=
  match q with
  | [] => lastDocumentIndex
  | query :: rest =>
      lastExpired now ttl rest (index + 1)
        (if Z.ltb (ts query) (now - ttl) then index else lastDocumentIndex)
  end.

(** [array.splice(0, n)]: the removed elements and what is left. *)
Definition splice0 {A : Type} (n : Z) (l : list A) : list A * list A :=
  (take (Z.to_nat n) l, drop (Z.to_nat n) l).

(** The [forEach] over dropped entries: emit [offlineQueuePop], reject. *)
Definition dropEntry (now : Z) (msg : string) (s : SDK)
    (droppedRequest : QueueEntry) : SDK :=
  log (Rejected (promise droppedRequest) msg)
      (emit now "offlineQueuePop" (PRequest (request droppedRequest)) s).

Definition dropAll (now : Z) (msg : string) (dropped : list QueueEntry)
    (s : SDK) : SDK :=
  fold_left (dropEntry now msg) dropped s.

Definition cleanTTL (now : Z) (s : SDK) : SDK :=
  if Z.ltb 0 (queueTTL (cfg s)) then
    let lastDocumentIndex :=
      lastExpired now (queueTTL (cfg s)) (offlineQueue s) 0 (-1) in
    if negb (Z.eqb lastDocumentIndex (-1)) then
      let '(dropped, rest) := splice0 (lastDocumentIndex + 1) (offlineQueue s) in
      dropAll now TTL_MESSAGE dropped (set_offlineQueue rest s)
    else s
  else s.

Definition cleanMaxSize (now : Z) (s : SDK) : SDK :=
  if Z.ltb 0 (queueMaxSize (cfg s))
     && Z.ltb (queueMaxSize (cfg s)) (Z.of_nat (length (offlineQueue s)))
  then
    let '(dropped, rest) :=
      splice0 (Z.of_nat (length (offlineQueue s)) - queueMaxSize (cfg s))
              (offlineQueue s) in
    dropAll now MAXSIZE_MESSAGE dropped (set_offlineQueue rest s)
  else s.

Definition _cleanQueue (now : Z) (s : SDK) : SDK :=
  cleanMaxSize now (cleanTTL now s).

(** [_timeoutRequest]: the request goes to the protocol, after a timer that
    rejects it has been armed unless the delay is [-1]. [settles] is the
    promise that the outcome resolves or rejects. *)
Definition _timeoutRequest (delay : Z) (r : option Request) (settles : nat)
    (s : SDK) : SDK :=
  if Z.eqb delay (-1) then log (ProtocolQuery r settles) s
  else log (ProtocolQuery r settles) (log (StartTimeout delay settles) s).

(** One run of the [dequeuingProcess] closure of [_dequeue]; the timer it
    sets runs it again. [pendingReplays] counts the timers set and not yet
    fired. *)
Definition dequeuingProcess (now : Z) (s : SDK) : SDK :=
  match offlineQueue s with
  | [] => s
  | head :: rest =>
      let s1 := _timeoutRequest (timeout head) (request head) (promise head) s in
      let s2 := emit now "offlineQueuePop" (PRequest (request head))
                     (set_offlineQueue rest s1) in
      log (SetTimeout (Z.max 0 (replayInterval (cfg s))))
          (set_pendingReplays (S (pendingReplays s2)) s2)
  end.

(** A replay timer fires, if one is pending. *)
Definition timerFires (now : Z) (s : SDK) : SDK :=
  match pendingReplays s with
  | O => s
  | S n => dequeuingProcess now (set_pendingReplays n s)
  end.

Definition INVALID_ENTRY : string :=
  "Invalid offline queue request. One or more missing properties: requestId, action, controller.".

(** [uniqueQueue[requestId] = true], on the own properties of
    [uniqueQueue]: an own property is created, except for the key
    [__proto__], which designates the accessor that the object inherits;
    its setter ignores a value that is not an object and no own property
    appears. *)
Definition record (key : string) (uniqueQueue : gset string) : gset string :=
  if String.eqb key "__proto__" then uniqueQueue else {[key]} ∪ uniqueQueue.

(** The [filter] callback of [_dequeue], threaded with [uniqueQueue] (its
    own properties): it throws on an entry without the required attributes,
    and keeps an entry whose [requestId] is not recorded yet, which it
    records. *)
Fixpoint filterUnique (uniqueQueue : gset string) (l : list QueueEntry)
    : completion (list QueueEntry) :=
  match l with
  | [] => Normal []
  | query :: rest =>
      match request query with
      | None => Throw INVALID_ENTRY
      | Some r =>
          match fields r !! "requestId" with
          | None => Throw INVALID_ENTRY
          | Some requestId =>
              if negb (Js.truthy_prop (fields r !! "action"))
                 || negb (Js.truthy_prop (fields r !! "controller"))
              then Throw INVALID_ENTRY
              else if bool_decide (Js.to_string requestId ∈ uniqueQueue)
              then filterUnique uniqueQueue rest
              else
                match filterUnique (record (Js.to_string requestId) uniqueQueue) rest with
                | Normal kept => Normal (query :: kept)
                | Throw msg => Throw msg
                end
          end
      end
  end.

(** [_dequeue]. The loader, when there is one, is a function (the
    constructor and the setter accept nothing else): it is called, and
    what it yields is handled, in promise callbacks, which run once the
    caller of [_dequeue] is done. [pendingLoads] counts the calls of
    [_dequeue] whose callbacks have not run yet. Without a loader the
    replay starts within the call. *)
Definition _dequeue (now : Z) (s : SDK) : SDK :=
  match offlineQueueLoader (cfg s) with
  | Some _ => set_pendingLoads (S (pendingLoads s)) s
  | None => dequeuingProcess now s
  end.

(** The callback of [_dequeue] that receives what the loader yields, run at
    the time [now] with the queue as it is then. A [Throw] is the rejection
    of the promise that [_dequeue] returned; the SDK is then unchanged. *)
Definition loaded (now : Z) (s : SDK) : completion SDK :=
  match offlineQueueLoader (cfg s) with
  | Some (LoadedArray additionalQueue) =>
      match filterUnique ∅ (additionalQueue ++ offlineQueue s) with
      | Normal q => Normal (dequeuingProcess now (set_offlineQueue q s))
      | Throw msg => Throw msg
      end
  | Some (LoadedOther type_of) =>
      Throw ("Invalid value returned by the offlineQueueLoader function. Expected: array. Got: " +:+ type_of)
  | Some (LoaderFails msg) => Throw msg
  | None => Throw "TypeError: this.offlineQueueLoader is not a function"
  end.

(** The loader answers one of the pending calls of [_dequeue], if there is
    one; the promise that [_dequeue] returned was dropped by [playQueue],
    and so is its rejection. *)
Definition loaderAnswers (now : Z) (s : SDK) : SDK :=
  match pendingLoads s with
  | O => s
  | S n =>
      match loaded now (set_pendingLoads n s) with
      | Normal s' => s'
      | Throw _ => set_pendingLoads n s
      end
  end.

Definition startQueuing (s : SDK) : SDK := set_queuing true s.

Definition stopQueuing (s : SDK) : SDK := set_queuing false s.

Definition flushQueue (s : SDK) : SDK := set_offlineQueue [] s.

(** [playQueue] drops the promise returned by [_dequeue]. *)
Definition playQueue (now : Z) (s : SDK) : SDK :=
  if protocol_ready s then _dequeue now (_cleanQueue now s) else s.

Definition disconnect (s : SDK) : SDK :=
  log ProtocolClose (set_loggedIn false s).

(** *** query *)

(** The loop copying every option but [queuable] and [timeout] into the
    request: each [request[key] = value] sets an own property. (An option
    named [__proto__] is the one exception: on a request without such a
    property of its own the assignment goes to the accessor of the
    prototype. What is established about the content of a request leaves
    such options out.) *)
Definition copyOptions (options request : gmap string json) : gmap string json :=
  map_fold
    (fun key value acc =>
       if bool_decide (key ∈ ["queuable"; "timeout"]) then acc
       else <[key := value]> acc)
    request options.

(** [if (request[k] === undefined && options[k] !== undefined)
    request[k] = options[k]]. *)
Definition defaultFrom (options : gmap string json) (k : string)
    (request : gmap string json) : gmap string json :=
  match request !! k, options !! k with
  | None, Some v => <[k := v]> request
  | _, _ => request
  end.

(** The object a reference designates. *)
Definition deref (h : gmap nat (gmap string json)) (l : nat) : gmap string json :=
  default ∅ (h !! l).

(** A name that reads something else than [undefined] on an object that
    has no such property of its own: a property of [Object.prototype], to
    which [emit] adds [lastEmitted] when it is given the name [__proto__]. *)
Definition inherited (s : SDK) (item : string) : bool :=
  bool_decide (item ∈ Js.objectPrototype)
  || String.eqb item "lastEmitted"
     && bool_decide (is_Some (lastEmitted s !! "__proto__")).

(** One iteration of the loop over [Object.keys(this.volatile)]: the item
    is written into the request's volatile object when it reads
    [undefined] there, which an inherited name never does. *)
Definition mergeItem (inherits : string -> bool) (src dst : nat)
    (h : gmap nat (gmap string json)) (item : string)
    : gmap nat (gmap string json) :=
  match deref h dst !! item with
  | Some _ => h
  | None =>
      if inherits item then h
      else
        match deref h src !! item with
        | Some v => <[dst := <[item := v]> (deref h dst)]> h
        | None => h
        end
  end.

Definition mergeVolatile (inherits : string -> bool) (src dst : nat)
    (h : gmap nat (gmap string json)) : gmap nat (gmap string json) :=
  fold_left (mergeItem inherits src dst) (map_to_list (deref h src)).*1 h.

(** [o[key] = o[key] || value]. *)
Definition setMarker (dst : nat) (key : string) (value : json)
    (h : gmap nat (gmap string json)) : gmap nat (gmap string json) :=
  <[dst := <[key := Js.or_else (deref h dst !! key) value]> (deref h dst)]> h.

(** The volatile part of [query]: [volatile] is the value of the request's
    [volatile] property. A falsy one is replaced by the SDK-wide object
    itself; an object (which the deep copy of the request made fresh) gets a
    location of its own; anything else is refused. *)
Definition resolveVolatile (volatile_prop : option json) (s : SDK)
    : completion (nat * gmap nat (gmap string json)) :=
  if negb (Js.truthy_prop volatile_prop) then
    Normal (volatile (cfg s), store s)
  else
    match volatile_prop with
    | Some (JObj o) =>
        let l := fresh (dom (store s)) in
        Normal (l, <[l := o]> (store s))
    | _ => Throw "Kuzzle.query: Invalid volatile argument received"
    end.

(** The volatile object of the request is resolved, the SDK-wide one is
    merged into it and the two markers are set.
    [Object.keys(this.volatile)] throws when [this.volatile] is [null]. *)
Definition prepareVolatile (volatile_prop : option json) (s : SDK)
    : completion (nat * SDK) :=
  match resolveVolatile volatile_prop s with
  | Throw msg => Throw msg
  | Normal (l, h) =>
      match store s !! volatile (cfg s) with
      | None => Throw "TypeError: Cannot convert undefined or null to object"
      | Some _ =>
          let h1 := mergeVolatile (inherited s) (volatile (cfg s)) l h in
          let h2 := setMarker l "sdkInstanceId" (JStr (protocol_id (cfg s))) h1 in
          let h3 := setMarker l "sdkName" (JStr (sdkName (cfg s))) h2 in
          Normal (l, set_store h3 s)
      end
  end.

Definition DISCARDED_MESSAGE : string :=
  "Unable to execute request: not connected to a Kuzzle server.".

(** [typeof v === "object" && !Array.isArray(v)]. *)
Definition isPlainObject (v : json) : bool :=
  match v with
  | JNull | JObj _ => true
  | _ => false
  end.

(** The request once it has its [requestId] and the options. *)
Definition normalise (req options : gmap string json) (uuid : string)
    : gmap string json :=
  let request :=
    if Js.truthy_prop (req !! "requestId") then req
    else <["requestId" := JStr uuid]> req in
  let request := copyOptions options request in
  let request := defaultFrom options "refresh" request in
  defaultFrom options "retryOnConflict" request.

(** The end of [query]: the request is queued, discarded or sent. The
    promise returned to the caller is [next_promise s]. *)
Definition dispatch (queuable : bool) (requestTimeout : Z) (request : Request)
    (now : Z) (s : SDK) : SDK :=
  let p := next_promise s in
  let s := set_next_promise (S p) s in
  if queuing s then
    if queuable then
      let s := _cleanQueue now s in
      let s := emit now "offlineQueuePush" (PRequest (Some request)) s in
      set_offlineQueue
        (offlineQueue s ++
         [{| request := Some request; timeout := requestTimeout;
             ts := now; promise := p |}]) s
    else
      let s := emit now "discarded" (PRequest (Some request)) s in
      log (Rejected p DISCARDED_MESSAGE) s
  else _timeoutRequest requestTimeout (Some request) p s.

(** [query(req, opts)]; [uuid] is what [uuidv4()] returns if called. The
    result is the SDK afterwards and the request as dispatched.
    [auth.authenticateRequest] is the [authenticateRequest] of the
    configuration, acting on the properties other than [volatile]. *)
Definition query (req opts : json) (uuid : string) (now : Z) (s : SDK)
    : completion (SDK * Request) :=
  if negb (isPlainObject req) then Throw "Kuzzle.query: Invalid request"
  else if negb (isPlainObject opts) then
    Throw "Kuzzle.query: Invalid 'options' argument"
  else
  match req, opts with
  | JObj req, JObj options =>
      let queuable :=
        match options !! "queuable" with
        | Some (JBool false) => false
        | _ => true
        end in
      let queuable :=
        match queueFilter (cfg s) with
        | Some filter =>
            queuable
            && filter (if Js.truthy_prop (req !! "requestId") then req
                       else <["requestId" := JStr uuid]> req)
        | None => queuable
        end in
      let requestTimeout :=
        match options !! "timeout" with
        | Some (JNum t) => t
        | _ => requestTimeout (cfg s)
        end in
      let request := normalise req options uuid in
      match prepareVolatile (request !! "volatile") s with
      | Throw msg => Throw msg
      | Normal (l, s1) =>
          let request :=
            {| fields := authenticateRequest (cfg s) (delete "volatile" request);
               volatile_ref := Some l |} in
          Normal (dispatch queuable requestTimeout request now s1, request)
      end
  | _, _ => Throw "TypeError: Cannot read properties of null"
  end.

(** *** Connection *)

Definition connect (s : SDK) : SDK :=
  if protocol_ready s then s
  else
    let s := if autoQueue (cfg s) then startQueuing s else s in
    let s := log (ProtocolAddListener "queryError" OnQueryError) s in
    let s := log (ProtocolAddListener "tokenExpired" OnTokenExpired) s in
    let s := log (ProtocolAddListener "connect" OnConnect) s in
    let s := log (ProtocolAddListener "networkError" OnNetworkError) s in
    let s := log (ProtocolAddListener "disconnect" OnDisconnect) s in
    let s := log (ProtocolAddListener "reconnect" OnReconnect) s in
    let s := log (ProtocolAddListener "discarded" OnDiscarded) s in
    let s := log (ProtocolAddListener "websocketRenewalStart" OnRenewalStart) s in
    let s := log (ProtocolAddListener "websocketRenewalDone" OnRenewalDone) s in
    log ProtocolConnect s.

(** [isAuthenticated], given the outcome of [auth.checkToken()]. *)
Definition isAuthenticated (check : CheckToken) : completion bool :=
  match check with
  | Checked valid kuid => Normal (valid && negb (String.eqb kuid "-1"))
  | CheckFails msg => Throw msg
  end.

(** [authenticate], given the outcome of the token check that follows the
    call to the authenticator. *)
Definition authenticate (check : CheckToken) (s : SDK) : SDK * completion unit :=
  match authenticator (cfg s) with
  | NoAuthenticator | NotAFunction =>
      (s, Throw "The 'authenticator' property must be a function.")
  | AuthenticatorThrows msg => (log CallAuthenticator s, Throw msg)
  | AuthenticatorReturns =>
      let s1 := log CallAuthenticator s in
      match isAuthenticated check with
      | Throw msg => (s1, Throw msg)
      | Normal valid =>
          let s2 := set_loggedIn valid s1 in
          if valid then (s2, Normal tt)
          else (s2, Throw "The 'authenticator' function failed to authenticate the SDK.")
      end
  end.

(** The [try] block of [tryReAuthenticate]. *)
Definition tryReAuthenticate_body (now : Z) (check1 check2 : CheckToken)
    (s : SDK) : SDK * completion bool :=
  match isAuthenticated check1 with
  | Throw msg => (s, Throw msg)
  | Normal valid =>
      if valid then (s, Normal true)
      else
        match authenticator (cfg s) with
        | NoAuthenticator =>
            (emit now "reconnectionError"
               (PError "Could not re-authenticate: 'authenticator' property is not set.") s,
             Normal false)
        | _ =>
            match authenticate check2 s with
            | (s1, Normal _) => (s1, Normal true)
            | (s1, Throw msg) => (s1, Throw msg)
            end
        end
  end.

(** [tryReAuthenticate]: the body, its [catch] and its [finally]. [check1]
    and [check2] are the outcomes of the first and second token checks. *)
Definition tryReAuthenticate (now : Z) (check1 check2 : CheckToken) (s : SDK)
    : SDK * completion bool :=
  let '(s1, r) :=
    tryReAuthenticate_body now check1 check2 (set_reconnectInProgress true s) in
  let '(s2, r) :=
    match r with
    | Normal b => (s1, Normal b)
    | Throw err =>
        (emit now "reconnectionError"
           (PError ("Failed to authenticate the SDK after reconnection: " +:+ err)) s1,
         Normal false)
    end in
  (set_reconnectInProgress false s2, r).

(** [_reconnect], the handler of the protocol's [reconnect] event. A
    [Throw] is the rejection of the promise the handler returns. *)
Definition _reconnect (now : Z) (check1 check2 : CheckToken) (s : SDK)
    : SDK * completion unit :=
  if reconnectInProgress s then (s, Normal tt)
  else
    let s := if autoQueue (cfg s) then stopQueuing s else s in
    let resume (s : SDK) :=
      let s := if autoReplay (cfg s) then playQueue now s else s in
      (emit now "reconnected" PVoid s, Normal tt) in
    if loggedIn s then
      match tryReAuthenticate now check1 check2 s with
      | (s1, Normal true) => resume s1
      | (s1, Normal false) => (disconnect (set_loggedIn false s1), Normal tt)
      | (s1, Throw msg) => (s1, Throw msg)
      end
    else resume s.

(** *** Runs and observations

    The environment of the SDK: the transport becomes ready or not, the
    application issues calls, timers fire. And what is read off a trace. *)

Definition set_protocol_ready (b : bool) (s : SDK) : SDK :=
  {| cfg := cfg s; protocol_ready := b; store := store s;
     offlineQueue := offlineQueue s; queuing := queuing s;
     reconnectInProgress := reconnectInProgress s; loggedIn := loggedIn s;
     lastEmitted := lastEmitted s; next_promise := next_promise s;
     pendingReplays := pendingReplays s; pendingLoads := pendingLoads s;
     trace := trace s |}.

Definition log_all (es : list effect) (s : SDK) : SDK :=
  {| cfg := cfg s; protocol_ready := protocol_ready s; store := store s;
     offlineQueue := offlineQueue s; queuing := queuing s;
     reconnectInProgress := reconnectInProgress s; loggedIn := loggedIn s;
     lastEmitted := lastEmitted s; next_promise := next_promise s;
     pendingReplays := pendingReplays s; pendingLoads := pendingLoads s;
     trace := trace s ++ es |}.

(** A call of [query] by the application. *)
Record Call := {
  call_req : json;
  call_opts : json;
  call_uuid : string;
  call_now : Z
}.


(** A call that throws leaves the SDK as it was. *)
Definition issue (s : SDK) (c : Call) : SDK :=
  match query (call_req c) (call_opts c) (call_uuid c) (call_now c) s with
  | Normal (s', _) => s'
  | Throw _ => s
  end.

Definition issueAll (calls : list Call) (s : SDK) : SDK :=
  fold_left issue calls s.

(** Replay timers fire, at the times [nows]. *)
Definition drain (nows : list Z) (s : SDK) : SDK :=
  fold_left (fun s now => timerFires now s) nows s.

(** What happens to the SDK, one thing at a time: the application calls
    [query] or [playQueue], a replay timer fires, the loader answers. *)
Inductive event :=
| Issue (c : Call)
| Replay (now : Z)
| Timer (now : Z)
| Loader (now : Z).

Definition step (s : SDK) (ev : event) : SDK :=
  match ev with
  | Issue c => issue s c
  | Replay now => playQueue now s
  | Timer now => timerFires now s
  | Loader now => loaderAnswers now s
  end.

Definition run (evs : list event) (s : SDK) : SDK := fold_left step evs s.

(** What the eviction of [dropped] adds to the trace. *)
Definition dropEffects (msg : string) (dropped : list QueueEntry) : list effect :=
  flat_map
    (fun e => [Emitted "offlineQueuePop" (PRequest (request e));
               Rejected (promise e) msg])
    dropped.

(** What the replay of one entry adds to the trace. *)
Definition replayStep (interval : Z) (e : QueueEntry) : list effect :=
  (if Z.eqb (timeout e) (-1) then [] else [StartTimeout (timeout e) (promise e)])
  ++ [ProtocolQuery (request e) (promise e);
      Emitted "offlineQueuePop" (PRequest (request e));
      SetTimeout (Z.max 0 interval)].

(** How many entries the TTL rule and the size rule of [_cleanQueue] remove
    from the front of a queue. *)
Definition expiredCount (now ttl : Z) (q : list QueueEntry) : nat :=
  if Z.ltb 0 ttl then Z.to_nat (lastExpired now ttl q 0 (-1) + 1) else 0%nat.

Definition excessCount (maxSize : Z) (q : list QueueEntry) : nat :=
  if Z.ltb 0 maxSize && Z.ltb maxSize (Z.of_nat (length q))
  then Z.to_nat (Z.of_nat (length q) - maxSize) else 0%nat.

(** How many entries [_cleanQueue] removes from the front of the queue. *)
Definition evicted (now : Z) (c : Config) (q : list QueueEntry) : nat :=
  (expiredCount now (queueTTL c) q
   + excessCount (queueMaxSize c) (drop (expiredCount now (queueTTL c) q) q))%nat.

(** What [_cleanQueue] adds to the trace. *)
Definition evictionEffects (now : Z) (c : Config) (q : list QueueEntry)
    : list effect :=
  dropEffects TTL_MESSAGE (take (expiredCount now (queueTTL c) q) q)
  ++ dropEffects MAXSIZE_MESSAGE
       (take (excessCount (queueMaxSize c) (drop (expiredCount now (queueTTL c) q) q))
             (drop (expiredCount now (queueTTL c) q) q)).

(** The requests handed to the transport, with the promise each settles. *)
Definition sent (tr : list effect) : list (option Request * nat) :=
  omap (fun e => match e with ProtocolQuery r p => Some (r, p) | _ => None end) tr.

(** The events emitted under a name. *)
Definition emitted (eventName : string) (tr : list effect) : list payload :=
  omap (fun e =>
          match e with
          | Emitted ev p => if String.eqb ev eventName then Some p else None
          | _ => None
          end) tr.

(** How many times a listener was attached to a protocol event. *)
Definition listeners (eventName : string) (tr : list effect) : nat :=
  length
    (omap (fun e =>
             match e with
             | ProtocolAddListener ev h =>
                 if String.eqb ev eventName then Some h else None
             | _ => None
             end) tr).

(** The protocol events of section 6 that [connect] listens to. *)
Definition transportEvents : list string :=
  ["connect"; "disconnect"; "reconnect"; "networkError"; "queryError";
   "tokenExpired"; "discarded"].





(** The promises of the requests sent since the trace was [base], then
    those of the queued entries, were created in that order. *)
Definition replayInv (base : list effect) (s : SDK) : Prop :=
  exists since,
    trace s = base ++ since
    /\ StronglySorted lt (map snd (sent since) ++ map promise (offlineQueue s))
    /\ Forall (fun p => (p < next_promise s)%nat)
              (map snd (sent since) ++ map promise (offlineQueue s)).



(** The [volatile] property of the request once the options are copied into
    it: the one of the options if there is one, else the one of the
    request. *)
Definition callerVolatile (req options : gmap string json) : option json :=
  match options !! "volatile" with
  | Some v => Some v
  | None => req !! "volatile"
  end.

Definition markerKeys : list string := ["sdkInstanceId"; "sdkName"].

(** The SDK-wide data that can be merged into an object of the caller:
    the keys that such an object does not inherit. *)
Definition mergeable (inherits : string -> bool) (D : gmap string json)
    : gmap string json :=
  filter (fun kv => inherits kv.1 = false) D.

(** The volatile object that the caller supplied, empty if none. *)
Definition callerObject (req options : gmap string json) : gmap string json :=
  match callerVolatile req options with
  | Some (JObj o) => o
  | _ => ∅
  end.

(** A volatile object once [query] has set the two markers in it. *)
Definition withMarkers (c : Config) (o : gmap string json) : gmap string json :=
  <["sdkName" := Js.or_else (o !! "sdkName") (JStr (sdkName c))]>
    (<["sdkInstanceId" := Js.or_else (o !! "sdkInstanceId") (JStr (protocol_id c))]> o).

End Kuzzle.

(** ** The realtime observer ([Observer]) *)

Module Observer.

(** Modelled from the spec: [RealtimeDocument], whose class is not among
    the sources (section 3, "TrackedDocument"): the [_id], the [_source]
    and the [deleted] flag that the observer reads and writes. The
    application and the observer hold the same object, so documents live
    in a heap and are designated by reference. *)
Record RealtimeDocument := {
  _id : string;
  _source : gmap string json;
  deleted : bool
}.

(** [ObservedDocuments]: a set of ids, in insertion order, and the room of
    the subscription of the collection. *)
Record ObservedDocuments := {
  ids : list string;
  roomId : option string
}.

Record Notification := {
  index : string;
  collection : string;
  event : string;
  result_id : string;
  result_source : gmap string json
}.

(** Calls to [sdk.realtime]. *)
Inductive call :=
| Subscribe (index collection : string) (values : list string)
| Unsubscribe (roomId : option string).

Record State := {
  documentsByCollection : gmap string ObservedDocuments;
  documents : gmap string nat;
  heap : gmap nat RealtimeDocument;
  calls : list call
}.

Definition documentUrn (index collection id : string) : string :=
  index +:+ ":" +:+ collection +:+ ":" +:+ id.

Definition collectionUrn (index collection : string) : string :=
  index +:+ ":" +:+ collection.

Definition set_buckets (m : gmap string ObservedDocuments) (o : State) : State :=
  {| documentsByCollection := m; documents := documents o; heap := heap o;
     calls := calls o |}.

Definition set_documents (m : gmap string nat) (o : State) : State :=
  {| documentsByCollection := documentsByCollection o; documents := m;
     heap := heap o; calls := calls o |}.

Definition set_heap (h : gmap nat RealtimeDocument) (o : State) : State :=
  {| documentsByCollection := documentsByCollection o;
     documents := documents o; heap := h; calls := calls o |}.

Definition realtime (c : call) (o : State) : State :=
  {| documentsByCollection := documentsByCollection o;
     documents := documents o; heap := heap o; calls := calls o ++ [c] |}.

(** [Set.prototype.add] and [Set.prototype.delete] on the ids. *)
Definition set_add (id : string) (l : list string) : list string :=
  if bool_decide (id ∈ l) then l else l ++ [id].

Definition set_delete (id : string) (l : list string) : list string :=
  filter (fun x => x ≠ id) l.

(** A room id that passes [if (roomId)]. *)
Definition truthyRoom (r : option string) : option string :=
  match r with
  | Some room => if String.eqb room "" then None else Some room
  | None => None
  end.

(** [addDocument]. *)
Definition addDocument (index collection : string) (id : string)
    (source : gmap string json) (o : State) : State * nat :=
  let l := fresh (dom (heap o)) in
  let o := set_heap (<[l := {| _id := id; _source := source; deleted := false |}]> (heap o)) o in
  let urn := collectionUrn index collection in
  let o :=
    match documentsByCollection o !! urn with
    | Some _ => o
    | None =>
        set_buckets (<[urn := {| ids := []; roomId := None |}]> (documentsByCollection o)) o
    end in
  let o :=
    match documentsByCollection o !! urn with
    | Some observedDocuments =>
        set_buckets
          (<[urn := {| ids := set_add id (ids observedDocuments);
                       roomId := roomId observedDocuments |}]>
             (documentsByCollection o)) o
    | None => o
    end in
  (set_documents (<[documentUrn index collection id := l]> (documents o)) o, l).

(** [resubscribe]; [subscribed] is the outcome of [realtime.subscribe] if it
    is called. *)
Definition resubscribe (index collection : string)
    (subscribed : completion string) (o : State) : State * completion unit :=
  match documentsByCollection o !! collectionUrn index collection with
  | None => (o, Normal tt)
  | Some subscription =>
      match ids subscription with
      | [] =>
          match truthyRoom (roomId subscription) with
          | Some room => (realtime (Unsubscribe (Some room)) o, Normal tt)
          | None => (o, Normal tt)
          end
      | _ :: _ =>
          let o1 := realtime (Subscribe index collection (ids subscription)) o in
          match subscribed with
          | Throw msg => (o1, Throw msg)
          | Normal newRoomId =>
              let oldRoomId := roomId subscription in
              let o2 :=
                set_buckets
                  (<[collectionUrn index collection :=
                       {| ids := ids subscription; roomId := Some newRoomId |}]>
                     (documentsByCollection o1)) o1 in
              match truthyRoom oldRoomId with
              | Some room => (realtime (Unsubscribe (Some room)) o2, Normal tt)
              | None => (o2, Normal tt)
              end
          end
      end
  end.

(** [observe]. *)
Definition observe (index collection : string) (id : string)
    (source : gmap string json) (subscribed : completion string) (o : State)
    : State * completion nat :=
  let '(o1, rtDocument) := addDocument index collection id source o in
  match resubscribe index collection subscribed o1 with
  | (o2, Normal _) => (o2, Normal rtDocument)
  | (o2, Throw msg) => (o2, Throw msg)
  end.

(** The realtime document a urn designates, with its reference. *)
Definition tracked (o : State) (urn : string) : option (nat * RealtimeDocument) :=
  match documents o !! urn with
  | Some l =>
      match heap o !! l with
      | Some d => Some (l, d)
      | None => None
      end
  | None => None
  end.

(** [notificationHandler]. Reading or writing a property of [undefined]
    throws a [TypeError]. *)
Definition notificationHandler (n : Notification)
    (subscribed : completion string) (o : State) : State * completion unit :=
  let urn := documentUrn (index n) (collection n) (result_id n) in
  let rtDocument := tracked o urn in
  if negb (String.eqb (event n) "delete") then
    if String.eqb (event n) "write" then
      match rtDocument with
      | None =>
          (o, Throw "TypeError: Cannot read properties of undefined (reading '_source')")
      | Some (l, d) =>
          (set_heap
             (<[l := {| _id := _id d;
                        _source := result_source n ∪ _source d;
                        deleted := deleted d |}]> (heap o)) o,
           Normal tt)
      end
    else (o, Normal tt)
  else
    match rtDocument with
    | None =>
        (o, Throw "TypeError: Cannot set properties of undefined (setting 'deleted')")
    | Some (l, d) =>
        let o1 :=
          set_heap
            (<[l := {| _id := _id d; _source := _source d; deleted := true |}]>
               (heap o)) o in
        let o2 :=
          set_documents
            (delete (documentUrn (index n) (collection n) (_id d)) (documents o1))
            o1 in
        let curn := collectionUrn (index n) (collection n) in
        match documentsByCollection o2 !! curn with
        | None =>
            (o2, Throw "TypeError: Cannot read properties of undefined (reading 'delete')")
        | Some observedDocuments =>
            let remaining := set_delete (result_id n) (ids observedDocuments) in
            let o3 :=
              set_buckets
                (<[curn := {| ids := remaining; roomId := roomId observedDocuments |}]>
                   (documentsByCollection o2)) o2 in
            let o4 :=
              match remaining with
              | [] => set_buckets (delete curn (documentsByCollection o3)) o3
              | _ :: _ => o3
              end in
            resubscribe (index n) (collection n) subscribed o4
        end
    end.

(** [disposeCollection], the path of [stop(index, collection)]. *)
Definition disposeCollection (index collection : string) (o : State)
    : State * completion unit :=
  match documentsByCollection o !! collectionUrn index collection with
  | None =>
      (o, Throw "TypeError: Cannot read properties of undefined (reading 'ids')")
  | Some observedDocuments =>
      let o1 :=
        set_documents
          (fold_left (fun m id => delete (documentUrn index collection id) m)
                     (ids observedDocuments) (documents o)) o in
      let o2 :=
        set_buckets
          (delete (collectionUrn index collection) (documentsByCollection o1)) o1 in
      (realtime (Unsubscribe (roomId observedDocuments)) o2, Normal tt)
  end.

End Observer.

(** ** Search cursors *)

Module SearchResult.

(** Modelled from the spec: the fields of a search request that section 6
    lists for pagination, and the filter of its body. *)
Record Request := {
  controller : string;
  action : string;
  scroll : option string;
  scrollId : option string;
  size : option Z;
  from : option Z;
  sort : option json;
  search_after : option (list json);
  query : option json
}.

(** Modelled from the spec: a cursor (section 3, "SearchCursor"): the
    originating request, the action names, the scroll id and the sort
    values of the last hit of the current page, and the counters. *)
Record Cursor := {
  request : Request;
  searchAction : string;
  scrollAction : string;
  result_scrollId : option string;
  last_sort_values : list json;
  fetched : Z;
  total : Z
}.

(** What [next()] does: resolve to no further results without a network
    call, issue one request, or fail. *)
Inductive outcome :=
| NoMore
| Resubmit (r : Request)
| CannotPaginate.

Definition scrollRequest (c : Cursor) (duration : string) : Request :=
  {| controller := controller (request c); action := scrollAction c;
     scroll := Some duration; scrollId := result_scrollId c;
     size := None; from := None; sort := None; search_after := None;
     query := None |}.

Definition searchAfterRequest (c : Cursor) : Request :=
  {| controller := controller (request c); action := searchAction c;
     scroll := scroll (request c); scrollId := scrollId (request c);
     size := size (request c); from := from (request c);
     sort := sort (request c); search_after := Some (last_sort_values c);
     query := query (request c) |}.

Definition fromRequest (c : Cursor) (offset : Z) : Request :=
  {| controller := controller (request c); action := searchAction c;
     scroll := scroll (request c); scrollId := scrollId (request c);
     size := size (request c); from := Some offset;
     sort := sort (request c); search_after := search_after (request c);
     query := query (request c) |}.

(** Modelled from the spec: [SearchResultBase.next], whose source file
    ([src/core/searchResult/SearchResultBase]) is not among the sources;
    only its tests are. The branches, their order and their tests are
    those of section 4.4 of the specification. The offset of the request
    resubmitted in the size/from branch is left open: [advance] gives it
    from the cursor, [from] and [size]. *)
Definition next_with (advance : Cursor -> Z -> Z -> Z) (c : Cursor) : outcome :=
  if Z.leb (total c) (fetched c) then NoMore
  else
    match scroll (request c), size (request c), sort (request c), from (request c) with
    | Some duration, _, _, _ => Resubmit (scrollRequest c duration)
    | None, Some _, Some _, _ => Resubmit (searchAfterRequest c)
    | None, Some sz, None, Some frm =>
        if Z.leb (total c) (frm + sz) then NoMore
        else Resubmit (fromRequest c (advance c frm sz))
    | _, _, _, _ => CannotPaginate
    end.

(** Modelled from the spec: the offset of section 4.4, "resubmits with
    [from] advanced by [size]". *)
Definition next_spec (c : Cursor) : outcome :=
  next_with (fun _ frm sz => frm + sz) c.

(** The cursor of the tests "with from and size option": [size = 2],
    [from = 2], a first page of two hits, [total = 30]. *)
Definition test_request (frm : Z) : Request :=
  {| controller := "collection"; action := "searchSpecifications";
     scroll := None; scrollId := None; size := Some 2; from := Some frm;
     sort := None; search_after := None;
     query := Some (JObj {["foo" := JStr "bar"]}) |}.

Definition test_cursor (frm : Z) : Cursor :=
  {| request := test_request frm;
     searchAction := "searchSpecifications";
     scrollAction := "scrollSpecifications";
     result_scrollId := None; last_sort_values := [];
     fetched := 2; total := 30 |}.

(** The request that the test "should call collection/searchSpecifications
    action with from/size parameters" expects [kuzzle.query] to receive. *)
Definition test_expected_request : Request :=
  {| controller := "collection"; action := "searchSpecifications";
     scroll := None; scrollId := None; size := Some 2; from := Some 2;
     sort := None; search_after := None;
     query := Some (JObj {["foo" := JStr "bar"]}) |}.


End SearchResult.

(** ** Scenarios

    Concrete configurations, states and calls used in the examples. *)

Module Scenario.
Import Kuzzle.

(** The defaults of the constructor. *)
Definition config : Config :=
  {| protocol_id := "protocol-1"; sdkName := "js@7"; volatile := 0%nat;
     autoQueue := false; autoReplay := false; queueFilter := None;
     offlineQueueLoader := None; queueMaxSize := 500; queueTTL := 120000;
     replayInterval := 10; requestTimeout := -1; eventTimeout := 200;
     authenticator := NoAuthenticator; authenticateRequest := fun r => r |}.

(** A queue of one entry at most, that never expires. *)
Definition smallQueue : Config :=
  {| protocol_id := "protocol-1"; sdkName := "js@7"; volatile := 0%nat;
     autoQueue := false; autoReplay := false; queueFilter := None;
     offlineQueueLoader := None; queueMaxSize := 1; queueTTL := 0;
     replayInterval := 10; requestTimeout := -1; eventTimeout := 200;
     authenticator := NoAuthenticator; authenticateRequest := fun r => r |}.

(** An SDK that queues, its SDK-wide volatile object empty. *)
Definition offline (c : Config) : SDK :=
  {| cfg := c; protocol_ready := false; store := {[0%nat := ∅]};
     offlineQueue := []; queuing := true; reconnectInProgress := false;
     loggedIn := false; lastEmitted := ∅; next_promise := 0;
     pendingReplays := 0; pendingLoads := 0; trace := [] |}.

(** The same, connected and not queuing. *)
Definition online (c : Config) : SDK :=
  {| cfg := c; protocol_ready := true; store := {[0%nat := ∅]};
     offlineQueue := []; queuing := false; reconnectInProgress := false;
     loggedIn := false; lastEmitted := ∅; next_promise := 0;
     pendingReplays := 0; pendingLoads := 0; trace := [] |}.

Definition getRequest (id : string) : gmap string json :=
  <["requestId" := JStr id]>
    (<["controller" := JStr "document"]> {["action" := JStr "get"]}).

(** [query({ requestId: id, controller: "document", action: "get" })]. *)
Definition get (id : string) (now : Z) : Call :=
  {| call_req := JObj (getRequest id); call_opts := JObj ∅;
     call_uuid := "uuid"; call_now := now |}.

Definition requestIds (l : list (option Request * nat)) : list (option json) :=
  map (fun x => match x.1 with
                | Some r => fields r !! "requestId"
                | None => None
                end) l.

(** Two entries with the same [requestId]: one from the loader, one
    queued by [query]. *)
Definition loaded_a : QueueEntry :=
  {| request :=
       Some {| fields := <["requestId" := JStr "a"]>
                           (<["controller" := JStr "document"]>
                              {["action" := JStr "create"]});
               volatile_ref := None |};
     timeout := -1; ts := 0; promise := 7 |}.

Definition queued_a : QueueEntry :=
  {| request :=
       Some {| fields := <["requestId" := JStr "a"]>
                           (<["controller" := JStr "document"]>
                              {["action" := JStr "delete"]});
               volatile_ref := None |};
     timeout := -1; ts := 5; promise := 0 |}.

Definition withLoader : Config :=
  {| protocol_id := "protocol-1"; sdkName := "js@7"; volatile := 0%nat;
     autoQueue := false; autoReplay := false; queueFilter := None;
     offlineQueueLoader := Some (LoadedArray [loaded_a]);
     queueMaxSize := 500; queueTTL := 120000;
     replayInterval := 10; requestTimeout := -1; eventTimeout := 200;
     authenticator := NoAuthenticator; authenticateRequest := fun r => r |}.

(** A logged-in SDK with automatic queuing and replay, one request in its
    queue, on a protocol that has just reconnected. *)
Definition autoConfig : Config :=
  {| protocol_id := "protocol-1"; sdkName := "js@7"; volatile := 0%nat;
     autoQueue := true; autoReplay := true; queueFilter := None;
     offlineQueueLoader := None; queueMaxSize := 500; queueTTL := 120000;
     replayInterval := 10; requestTimeout := -1; eventTimeout := 200;
     authenticator := NoAuthenticator; authenticateRequest := fun r => r |}.

Definition reconnecting : SDK :=
  {| cfg := autoConfig; protocol_ready := true; store := {[0%nat := ∅]};
     offlineQueue := [queued_a]; queuing := true;
     reconnectInProgress := false; loggedIn := true; lastEmitted := ∅;
     next_promise := 1; pendingReplays := 0; pendingLoads := 0; trace := [] |}.

(** A request whose volatile data sets [sdkName] to the empty string. *)
Definition anonymousRequest : gmap string json :=
  <["volatile" := JObj {["sdkName" := JStr ""]}]> (getRequest "r0").

Definition duplicate : SDK :=
  {| cfg := withLoader; protocol_ready := true; store := {[0%nat := ∅]};
     offlineQueue := [queued_a]; queuing := false;
     reconnectInProgress := false; loggedIn := false; lastEmitted := ∅;
     next_promise := 1; pendingReplays := 0; pendingLoads := 0; trace := [] |}.

End Scenario.

Module ObserverScenario.
Import Observer.

Definition empty : State :=
  {| documentsByCollection := ∅; documents := ∅; heap := ∅; calls := [] |}.

(** [observe("i", "c", { _id: "d", _source: { name: "x" } })], the
    subscription giving the room ["room-1"]. *)
Definition observing : State :=
  fst (observe "i" "c" "d" {["name" := JStr "x"]} (Normal "room-1") empty).

(** The same, then [observe] of a second document ["e"], the new
    subscription giving the room ["room-2"]. *)
Definition observingTwo : State :=
  fst (observe "i" "c" "e" ∅ (Normal "room-2") observing).

Definition deleteOf (id : string) : Notification :=
  {| index := "i"; collection := "c"; event := "delete"; result_id := id;
     result_source := ∅ |}.

Definition writeOf (id : string) : Notification :=
  {| index := "i"; collection := "c"; event := "write"; result_id := id;
     result_source := {["name" := JStr "y"]} |}.

End ObserverScenario.

(** ** Settlement of promises, token expiry and the listeners of the
       transport ([src/Kuzzle.ts]) *)

Module Session.
Import Kuzzle.

(** The promise an effect settles: a request handed to the transport
    settles its promise with the response, a rejection settles it with an
    error. *)
Definition settles (e : effect) : option nat :=
  match e with
  | ProtocolQuery _ p => Some p
  | Rejected p _ => Some p
  | _ => None
  end.

Definition settled (tr : list effect) : list nat := omap settles tr.

(** A queue whose timestamps never go back. *)
Definition byTimestamp (q : list QueueEntry) : Prop :=
  StronglySorted (fun a b => ts a <= ts b) q.

(** Calls to [query] made under a clock that never goes back. *)
Definition clockwise (calls : list Call) : Prop :=
  StronglySorted (fun a b => call_now a <= call_now b) calls.

(** The test at the head of [emit]: the event is protected and was last
    emitted less than [eventTimeout] ago. *)
Definition throttled (now : Z) (eventName : string) (s : SDK) : bool :=
  protectedEvent eventName
  && match lastEmittedOf eventName s with
     | Some last => negb (Z.eqb last 0) && Z.ltb (now - eventTimeout (cfg s)) last
     | None => false
     end.


(** Modelled from the spec: the token held by the auth controller, whose
    class is not among the sources. [jwt] is the value last assigned to
    [auth.authenticationToken], [None] for [null]. The other fields are the
    private properties [_lastTokenExpired] ([None] for [null]) and
    [_tokenExpiredInterval] of the SDK. *)
Record State := {
  sdk : SDK;
  jwt : option string;
  lastTokenExpired : option Z;
  tokenExpiredInterval : Z
}.

Definition with_sdk (s : SDK) (st : State) : State :=
  {| sdk := s; jwt := jwt st; lastTokenExpired := lastTokenExpired st;
     tokenExpiredInterval := tokenExpiredInterval st |}.

(** The setter of [jwt]. *)
Definition set_jwt (encodedJwt : option string) (st : State) : State :=
  {| sdk := set_loggedIn
              (match encodedJwt with
               | Some t => negb (String.eqb t "")
               | None => false
               end) (sdk st);
     jwt := encodedJwt; lastTokenExpired := lastTokenExpired st;
     tokenExpiredInterval := tokenExpiredInterval st |}.

Definition set_lastTokenExpired (t : option Z) (st : State) : State :=
  {| sdk := sdk st; jwt := jwt st; lastTokenExpired := t;
     tokenExpiredInterval := tokenExpiredInterval st |}.

(** [tokenExpired]. [now] is the time of the attempt to re-authenticate,
    [later] the value of [Date.now()] once it is over; [null] counts as
    [0] in [now - this._lastTokenExpired]. *)
Definition tokenExpired (now later : Z) (check1 check2 : CheckToken)
    (st : State) : State * completion unit :=
  if reconnectInProgress (sdk st) then (st, Normal tt)
  else
    let '(s1, reauthenticated) :=
      if loggedIn (sdk st) then tryReAuthenticate now check1 check2 (sdk st)
      else (sdk st, Normal false) in
    match reauthenticated with
    | Throw msg => (with_sdk s1 st, Throw msg)
    | Normal true =>
        (with_sdk (emit later "reAuthenticated" PVoid s1) st, Normal tt)
    | Normal false =>
        let st1 := with_sdk s1 st in
        if Z.ltb (later - default 0 (lastTokenExpired st1)) (tokenExpiredInterval st1)
        then (st1, Normal tt)
        else
          let st2 := set_jwt None (set_lastTokenExpired (Some later) st1) in
          (with_sdk (emit later "tokenExpired" PVoid (sdk st2)) st2, Normal tt)
    end.

(** The listeners that the constructor attaches to the SDK's own
    [loginAttempt], [logoutAttempt] and [connected] events; [check] is the
    outcome of the token check they await. *)
Definition refreshLoggedIn (check : CheckToken) (s : SDK) : SDK :=
  match isAuthenticated check with
  | Normal b => set_loggedIn b s
  | Throw _ => set_loggedIn false s
  end.

Definition onLoginAttempt (success : bool) (check : CheckToken) (s : SDK) : SDK :=
  if success then set_loggedIn true s else refreshLoggedIn check s.

Definition onLogoutAttempt (success : bool) (s : SDK) : SDK :=
  if success then set_loggedIn false s else s.

Definition onConnected (check : CheckToken) (s : SDK) : SDK :=
  refreshLoggedIn check s.

(** What a listener of the transport meets when it runs: the times, the
    argument of the event and the outcomes of the token checks awaited. *)
Record Env := {
  env_now : Z;
  env_later : Z;
  env_arg : payload;
  env_connected : CheckToken;
  env_check1 : CheckToken;
  env_check2 : CheckToken
}.

(** The listeners that [connect] attaches to the transport. The argument
    of the transport's event is handed on as it is; the [connected] event,
    when it gets through [emit], runs the constructor's listener. *)
Definition handle (h : handler) (w : Env) (st : State) : State * completion unit :=
  let s := sdk st in
  match h with
  | OnQueryError =>
      (with_sdk (emit (env_now w) "queryError" (env_arg w) s) st, Normal tt)
  | OnTokenExpired =>
      tokenExpired (env_now w) (env_later w) (env_check1 w) (env_check2 w) st
  | OnConnect =>
      let s := if autoQueue (cfg s) then stopQueuing s else s in
      let s := if autoReplay (cfg s) then playQueue (env_now w) s else s in
      let s1 := emit (env_now w) "connected" PVoid s in
      (with_sdk (if throttled (env_now w) "connected" s then s1
                 else onConnected (env_connected w) s1) st,
       Normal tt)
  | OnNetworkError =>
      let s := if autoQueue (cfg s) then startQueuing s else s in
      (with_sdk (emit (env_now w) "networkError" (env_arg w) s) st, Normal tt)
  | OnDisconnect =>
      (with_sdk (emit (env_now w) "disconnected" (env_arg w) s) st, Normal tt)
  | OnReconnect =>
      let '(s1, r) := _reconnect (env_now w) (env_check1 w) (env_check2 w) s in
      (with_sdk s1 st, r)
  | OnDiscarded =>
      (with_sdk (emit (env_now w) "discarded" (env_arg w) s) st, Normal tt)
  | OnRenewalStart => (with_sdk (set_reconnectInProgress true s) st, Normal tt)
  | OnRenewalDone => (with_sdk (set_reconnectInProgress false s) st, Normal tt)
  end.

(** What the application and the transport do to the SDK, one thing at a
    time. *)
Inductive action :=
| Query (c : Call)
| PlayQueue (now : Z)
| ReplayTimer (now : Z)
| LoaderAnswers (now : Z)
| StartQueuing
| StopQueuing
| FlushQueue
| Connect
| Disconnect
| ProtocolReady (b : bool)
| ProtocolEvent (h : handler) (w : Env)
| LoginAttempt (success : bool) (check : CheckToken)
| LogoutAttempt (success : bool).

Definition perform (st : State) (a : action) : State :=
  match a with
  | Query c => with_sdk (issue (sdk st) c) st
  | PlayQueue now => with_sdk (playQueue now (sdk st)) st
  | ReplayTimer now => with_sdk (timerFires now (sdk st)) st
  | LoaderAnswers now => with_sdk (loaderAnswers now (sdk st)) st
  | StartQueuing => with_sdk (startQueuing (sdk st)) st
  | StopQueuing => with_sdk (stopQueuing (sdk st)) st
  | FlushQueue => with_sdk (flushQueue (sdk st)) st
  | Connect => with_sdk (connect (sdk st)) st
  | Disconnect => with_sdk (disconnect (sdk st)) st
  | ProtocolReady b => with_sdk (set_protocol_ready b (sdk st)) st
  | ProtocolEvent h w => fst (handle h w st)
  | LoginAttempt success check => with_sdk (onLoginAttempt success check (sdk st)) st
  | LogoutAttempt success => with_sdk (onLogoutAttempt success (sdk st)) st
  end.

Definition performAll (l : list action) (st : State) : State :=
  fold_left perform l st.

(** The promises settled since the trace was [base] and those of the
    queued entries are pairwise distinct, and were created already. *)
Definition ledger (base : list effect) (s : SDK) : Prop :=
  exists since,
    trace s = base ++ since
    /\ NoDup (settled since ++ map promise (offlineQueue s))
    /\ Forall (fun p => (p < next_promise s)%nat)
              (settled since ++ map promise (offlineQueue s)).

(** From [s] to [s'], the promises settled and those left in the queue
    are accounted for: each comes from the queue of [s] or was created in
    between, and none is counted twice. *)
Definition accounted (s s' : SDK) : Prop :=
  exists more,
    trace s' = trace s ++ more
    /\ cfg s' = cfg s
    /\ (next_promise s <= next_promise s')%nat
    /\ settled more ++ map promise (offlineQueue s')
       ⊆+ map promise (offlineQueue s)
          ++ seq (next_promise s) (next_promise s' - next_promise s).

(** A token check that comes back, for a token that is valid and is not
    the one of the anonymous user. *)
Definition accepted (check : CheckToken) : bool :=
  match check with
  | Checked valid kuid => valid && negb (String.eqb kuid "-1")
  | CheckFails _ => false
  end.

(** Whether an attempt to re-authenticate gets as far as calling the
    authenticator, and whether it succeeds. *)
Definition authenticatorCalled (check1 : CheckToken) (a : Authenticator) : bool :=
  match check1, a with
  | Checked _ _, (AuthenticatorReturns | AuthenticatorThrows _) =>
      negb (accepted check1)
  | _, _ => false
  end.

Definition reauthenticates (check1 check2 : CheckToken) (a : Authenticator) : bool :=
  accepted check1
  || match check1, a with
     | Checked _ _, AuthenticatorReturns => accepted check2
     | _, _ => false
     end.

(** Events of the transport, one after the other. *)
Definition handleAll (l : list (handler * Env)) (st : State) : State :=
  fold_left (fun st x => fst (handle x.1 x.2 st)) l st.

End Session.

Module SessionScenario.
Import Kuzzle Session Scenario.

(** A session on a new SDK, holding no token. *)
Definition session (s : SDK) : State :=
  {| sdk := s; jwt := None; lastTokenExpired := None;
     tokenExpiredInterval := 1000 |}.

(** A logged-in session, holding a token. *)
Definition loggedInSession (c : Config) : State :=
  {| sdk := set_loggedIn true (online c); jwt := Some "token";
     lastTokenExpired := None; tokenExpiredInterval := 1000 |}.

Definition withAuthenticator (a : Authenticator) : Config :=
  {| protocol_id := "protocol-1"; sdkName := "js@7"; volatile := 0%nat;
     autoQueue := false; autoReplay := false; queueFilter := None;
     offlineQueueLoader := None; queueMaxSize := 500; queueTTL := 120000;
     replayInterval := 10; requestTimeout := -1; eventTimeout := 200;
     authenticator := a; authenticateRequest := fun r => r |}.

(** Automatic queuing and replay, with a queue loader that yields one
    entry. *)
Definition autoWithLoader : Config :=
  {| protocol_id := "protocol-1"; sdkName := "js@7"; volatile := 0%nat;
     autoQueue := true; autoReplay := true; queueFilter := None;
     offlineQueueLoader := Some (LoadedArray [loaded_a]);
     queueMaxSize := 500; queueTTL := 120000;
     replayInterval := 10; requestTimeout := -1; eventTimeout := 200;
     authenticator := NoAuthenticator; authenticateRequest := fun r => r |}.

Definition at_ (now : Z) : Env :=
  {| env_now := now; env_later := now; env_arg := PVoid;
     env_connected := Checked false "-1";
     env_check1 := Checked false "-1"; env_check2 := Checked false "-1" |}.

End SessionScenario.

(** ** The realtime observer: retrieval and disposal ([Observer]) *)

Module Observing.
Import Observer.

(** The double quote, for the messages that hold one. *)
Definition dq : string := String (Ascii.ascii_of_nat 34) EmptyString.

Definition MISSING_COLLECTION : string :=
  "Missing " +:+ dq +:+ "collection" +:+ dq +:+ " argument" +:+ dq.

(** An argument that passes [if (x)]: neither [undefined] nor empty. *)
Definition given (x : option string) : option string := truthyRoom x.

(** The ids left in a bucket once [documents] are deleted from it. *)
Definition deleteAll (documents ids : list string) : list string :=
  fold_left (fun l id => set_delete id l) documents ids.

(** [disposeDocuments]; [documents] are the [_id]s of the documents given.
    For a collection that is not observed, [observedDocuments] is
    [undefined]: the first [observedDocuments.delete] throws, after the
    first document was removed from [this.documents]. *)
Definition disposeDocuments (index collection : string) (documents : list string)
    (subscribed : completion string) (o : State) : State * completion unit :=
  let curn := collectionUrn index collection in
  match documentsByCollection o !! curn with
  | None =>
      match documents with
      | [] =>
          (o, Throw "TypeError: Cannot read properties of undefined (reading 'size')")
      | id :: _ =>
          (set_documents (delete (documentUrn index collection id) (Observer.documents o)) o,
           Throw "TypeError: Cannot read properties of undefined (reading 'delete')")
      end
  | Some observedDocuments =>
      let o1 :=
        set_documents
          (fold_left (fun m id => delete (documentUrn index collection id) m)
                     documents (Observer.documents o)) o in
      let remaining := deleteAll documents (ids observedDocuments) in
      let o2 :=
        set_buckets
          (<[curn := {| ids := remaining; roomId := roomId observedDocuments |}]>
             (documentsByCollection o1)) o1 in
      let o3 :=
        match remaining with
        | [] => set_buckets (delete curn (documentsByCollection o2)) o2
        | _ :: _ => o2
        end in
      resubscribe index collection subscribed o3
  end.

(** [disposeAll]. The source visits the buckets in the order they were
    created, which the map does not keep: the rooms are unsubscribed in the
    order of the listing of the map. *)
Definition disposeAll (o : State) : State * completion unit :=
  let rooms :=
    omap (fun b => truthyRoom (roomId b))
         (map snd (map_to_list (documentsByCollection o))) in
  ({| documentsByCollection := ∅; documents := ∅; heap := heap o;
      calls := calls o ++ map (fun room => Unsubscribe (Some room)) rooms |},
   Normal tt).

(** [stop(index, collection, documents)]; an argument left out is [None]. *)
Definition stop (index collection : option string)
    (documents : option (list string)) (subscribed : completion string)
    (o : State) : State * completion unit :=
  match given index, given collection, documents with
  | Some i, Some c, Some docs => disposeDocuments i c docs subscribed o
  | Some i, Some c, None => disposeCollection i c o
  | Some _, None, _ => (o, Throw MISSING_COLLECTION)
  | None, _, _ => disposeAll o
  end.

(** [get]: [fetched] is the outcome of [sdk.document.get], the [_id] and
    the [_source] of the document. *)
Definition get (index collection : string)
    (fetched : completion (string * gmap string json))
    (subscribed : completion string) (o : State) : State * completion nat :=
  match fetched with
  | Throw msg => (o, Throw msg)
  | Normal (id, source) => observe index collection id source subscribed o
  end.



(** The colon of the urns, and a name without a colon. *)
Definition colon : Ascii.ascii := Ascii.ascii_of_nat 58.

Fixpoint colonFree (s : string) : bool :=
  match s with
  | EmptyString => true
  | String c rest => negb (Ascii.eqb c colon) && colonFree rest
  end.

End Observing.

(** ** The generated document controller ([src/controllers/DocumentGen.js]) *)

Module DocumentGen.

(** The [position] of an argument: a rank among the arguments of the call,
    or the string ['options']. *)
Inductive Position :=
| At (n : nat)
| Options.

(** What the constructor reads of a parameter of the [methods] table, or of
    a request body. *)
Record Param := {
  name : string;
  position : Position
}.

(** Parameter objects are shared between the [methods] table and the
    arguments of the generated methods: they live in a store, a map from
    references to objects. *)

(** An entry of the [methods] table: its parameters, the position of its
    request body if it has one, and the path of the valuable result. *)
Record Definition_ := {
  params : list nat;
  requestBody : option Position;
  valuableResult : string
}.

Definition isOptions (p : Position) : bool :=
  match p with
  | Options => true
  | At _ => false
  end.

(** [a.position - b.position <= 0], for the positions the sort meets. *)
Definition before (st : gmap nat Param) (a b : nat) : bool :=
  match position <$> st !! a, position <$> st !! b with
  | Some (At m), Some (At n) => Nat.leb m n
  | _, _ => true
  end.

(** [Array.prototype.sort] with this comparator: a stable sort. *)
Fixpoint insertSorted (st : gmap nat Param) (a : nat) (l : list nat) : list nat :=
  match l with
  | [] => [a]
  | b :: rest => if before st a b then a :: l else b :: insertSorted st a rest
  end.

Definition sortByPosition (st : gmap nat Param) (l : list nat) : list nat :=
  foldr (insertSorted st) [] l.

(** [parameter.position !== 'options']. *)
Definition positional (st : gmap nat Param) (r : nat) : bool :=
  match position <$> st !! r with
  | Some p => negb (isOptions p)
  | None => true
  end.

(** The body of the constructor's loop for one entry of the table: the
    arguments of the generated method, in the order of their positions. The
    body argument is a new object. *)
Definition methodArguments (definition : Definition_) (st : gmap nat Param)
    : list nat * gmap nat Param :=
  let kept :=
    filter (fun r => positional st r = true) (params definition) in
  let '(all, st1) :=
    match requestBody definition with
    | Some p =>
        if isOptions p then (kept, st)
        else
          let r := fresh (dom st) in
          (kept ++ [r], <[r := {| name := "body"; position := p |}]> st)
    | None => (kept, st)
    end in
  (sortByPosition st1 all, st1).

(** [args[position]]: [undefined] past the end and for ['options']. *)
Definition argument (args : list json) (p : Position) : option json :=
  match p with
  | At n => args !! n
  | Options => None
  end.

(** The loop that fills the request: a property may be set to
    [undefined]. *)
Definition fillRequest (st : gmap nat Param) (arguments : list nat) (args : list json)
    : gmap string (option json) :=
  fold_left
    (fun request r =>
       match st !! r with
       | Some methodArgument =>
           <[name methodArgument := argument args (position methodArgument)]> request
       | None => request
       end)
    arguments ∅.

(** [methodArguments.some(e => e.position = 'options')]: the callback
    assigns, and its value is truthy, so that [some] stops at the first
    element, whose [position] is now ['options']. *)
Definition someOptions (st : gmap nat Param) (arguments : list nat) : bool * gmap nat Param :=
  match arguments with
  | [] => (false, st)
  | first :: _ =>
      (true,
       match st !! first with
       | Some e => <[first := {| name := name e; position := Options |}]> st
       | None => st
       end)
  end.

(** A call of a generated method: the request and the options handed to
    [this.query], and the store afterwards. *)
Definition invoke (arguments : list nat) (args : list json) (st : gmap nat Param)
    : gmap string (option json) * option json * gmap nat Param :=
  let request := fillRequest st arguments args in
  let '(found, st1) := someOptions st arguments in
  let options :=
    if found then
      match args with
      | [] => None
      | _ :: _ => args !! (length args - 1)%nat
      end
    else Some (JObj ∅) in
  (request, options, st1).

(** The element of an array that a property name designates: the one
    whose index, written in decimal, is the name. *)
Fixpoint elementFrom {A : Type} (i : nat) (l : list A) (key : string) : option A :=
  match l with
  | [] => None
  | x :: rest =>
      if String.eqb (pretty i) key then Some x else elementFrom (S i) rest key
  end.

Definition elementAt {A : Type} (l : list A) (key : string) : option A :=
  elementFrom 0 l key.

Fixpoint characters (s : string) : list json :=
  match s with
  | EmptyString => []
  | String c rest => JStr (String c EmptyString) :: characters rest
  end.

(** [object[key]] for a value that came as JSON ([None] is [undefined]):
    its own properties. Reading a property of [undefined] or [null]
    throws. *)
Definition prop (object : option json) (key : string) : completion (option json) :=
  match object with
  | None => Throw "TypeError: Cannot read properties of undefined"
  | Some JNull => Throw "TypeError: Cannot read properties of null"
  | Some (JObj o) => Normal (o !! key)
  | Some (JArr l) =>
      if String.eqb key "length" then Normal (Some (JNum (Z.of_nat (length l))))
      else Normal (elementAt l key)
  | Some (JStr s) =>
      if String.eqb key "length" then Normal (Some (JNum (Z.of_nat (String.length s))))
      else Normal (elementAt (characters s) key)
  | Some (JNum _) | Some (JBool _) => Normal None
  end.

(** [get(object, path)]. Each call has a shorter path than the one
    before; [None] is a recursion cut short. *)
Fixpoint get_within (depth : nat) (object : option json) (path : string)
    : option (completion (option json)) :=
  match depth with
  | O => None
  | S depth =>
      match String.index 0 "." path with
      | None => Some (prop object path)
      | Some index =>
          match prop object (String.substring 0 index path) with
          | Throw msg => Some (Throw msg)
          | Normal v =>
              get_within depth v
                (String.substring (index + 1) (String.length path) path)
          end
      end
  end.

Definition get (object : option json) (path : string)
    : option (completion (option json)) :=
  get_within (S (String.length path)) object path.

(** A path segment: no dot in it. *)
Definition dot : Ascii.ascii := Ascii.ascii_of_nat 46.

Fixpoint dotFree (s : string) : bool :=
  match s with
  | EmptyString => true
  | String c rest => negb (Ascii.eqb c dot) && dotFree rest
  end.

(** The [methods] table of the file: the one entry [create], its four
    parameters at locations 0 to 3. *)
Definition table : gmap nat Param :=
  <[3%nat := {| name := "refresh"; position := Options |}]>
    (<[2%nat := {| name := "_id"; position := At 3 |}]>
       (<[1%nat := {| name := "collection"; position := At 1 |}]>
          {[0%nat := {| name := "index"; position := At 0 |}]})).

Definition create : Definition_ :=
  {| params := [0; 1; 2; 3]%nat; requestBody := Some (At 2);
     valuableResult := "result" |}.

End DocumentGen.

(** ** Construction of the SDK, its properties and its events
       ([src/Kuzzle.ts]) *)

Module Construction.

(** A value handed to the constructor or to a setter: a JSON value, a
    function, or [undefined]. *)
Inductive value :=
| VUndefined
| VFunction (f : string)
| VJson (v : json).

Definition typeof (v : value) : string :=
  match v with
  | VUndefined => "undefined"
  | VFunction _ => "function"
  | VJson (JBool _) => "boolean"
  | VJson (JNum _) => "number"
  | VJson (JStr _) => "string"
  | VJson JNull | VJson (JArr _) | VJson (JObj _) => "object"
  end.

Definition isArray (v : value) : bool :=
  match v with
  | VJson (JArr _) => true
  | _ => false
  end.

(** A property read on an object: [undefined] when it is missing. *)
Definition read (o : gmap string value) (key : string) : value :=
  default VUndefined (o !! key).

Definition dq : string := String (Ascii.ascii_of_nat 34) EmptyString.

(** [_checkPropertyType]. *)
Definition _checkPropertyType (prop typestr : string) (v : value)
    : completion unit :=
  let wrongType :=
    if String.eqb typestr "array" then negb (isArray v)
    else negb (String.eqb (typeof v) typestr) in
  if wrongType then
    Throw ("Expected " +:+ prop +:+ " to be a " +:+ typestr +:+ ", "
           +:+ typeof v +:+ " received")
  else Normal tt.

(** The setters that check the type of the value: the property they guard,
    the name they give it in the error, and the type they expect.
    [autoReconnect] is held by the protocol. *)
Inductive accessor :=
| AutoQueue
| AutoReconnect
| AutoReplay
| OfflineQueueLoader
| QueueFilter
| QueueMaxSize
| QueueTTL
| ReplayInterval
| RequestTimeout
| TokenExpiredInterval.

Definition field (a : accessor) : string :=
  match a with
  | AutoQueue => "_autoQueue"
  | AutoReconnect => "protocol.autoReconnect"
  | AutoReplay => "_autoReplay"
  | OfflineQueueLoader => "_offlineQueueLoader"
  | QueueFilter => "_queueFilter"
  | QueueMaxSize => "_queueMaxSize"
  | QueueTTL => "_queueTTL"
  | ReplayInterval => "_replayInterval"
  | RequestTimeout => "_requestTimeout"
  | TokenExpiredInterval => "_tokenExpiredInterval"
  end.

Definition checkedName (a : accessor) : string :=
  match a with
  | AutoReconnect => "autoReconnect"
  | _ => field a
  end.

Definition expected (a : accessor) : string :=
  match a with
  | AutoQueue | AutoReconnect | AutoReplay => "boolean"
  | OfflineQueueLoader | QueueFilter => "function"
  | _ => "number"
  end.

(** [set autoQueue(value)] and the like; [get autoQueue()] and the like. *)
Definition setter (a : accessor) (v : value) (properties : gmap string value)
    : completion (gmap string value) :=
  match _checkPropertyType (checkedName a) (expected a) v with
  | Throw msg => Throw msg
  | Normal _ => Normal (<[field a := v]> properties)
  end.

Definition getter (a : accessor) (properties : gmap string value) : value :=
  read properties (field a).

(** [typeof options.key === typestr ? options.key : otherwise]. *)
Definition optionOr (typestr : string) (options : gmap string value)
    (key : string) (otherwise : value) : value :=
  if String.eqb (typeof (read options key)) typestr then read options key
  else otherwise.

(** What the constructor does besides setting properties, in order. *)
Inductive step :=
| EnableCookieSupport
| ProtocolListener (event : string)
| UseController (accessor : string)
| On (event : string)
| Proxify.

Definition requiredMethods : list string := ["addListener"; "isReady"; "query"].

(** The first required method that the protocol lacks. *)
Fixpoint missingMethod (protocol : gmap string value) (methods : list string)
    : option string :=
  match methods with
  | [] => None
  | method :: rest =>
      if String.eqb (typeof (read protocol method)) "function"
      then missingMethod protocol rest
      else Some method
  end.

Definition true_ : value := VJson (JBool true).
Definition false_ : value := VJson (JBool false).
Definition number (n : Z) : value := VJson (JNum n).
Definition null : value := VJson JNull.

Definition controllers : list string :=
  ["auth"; "bulk"; "collection"; "document"; "index"; "ms"; "realtime";
   "security"; "server"].

Definition isTrue (v : value) : bool :=
  match v with
  | VJson (JBool true) => true
  | _ => false
  end.

(** [v === "auto"]. *)
Definition isAuto (v : value) : bool :=
  match v with
  | VJson (JStr o) => String.eqb o "auto"
  | _ => false
  end.

(** The constructor. [protocol] is [None] for [undefined] and [null], and
    the properties of the protocol object otherwise; [sdkVersion] is the
    version found at build time; [browser] tells whether [XMLHttpRequest]
    is defined. The nine controllers of the SDK, whose classes are not
    among the sources, pass the checks of [useController]. The result is
    the properties of the new object and what was done on the way. *)
Definition construct (protocol : option (gmap string value))
    (options : gmap string value) (sdkVersion : string) (browser : bool)
    : completion (gmap string value * list step) :=
  match protocol with
  | None => Throw (dq +:+ "protocol" +:+ dq +:+ " argument missing")
  | Some protocol =>
      match missingMethod protocol requiredMethods with
      | Some method =>
          Throw ("Protocol instance must implement a " +:+ dq +:+ method
                 +:+ dq +:+ " method")
      | None =>
          let p : gmap string value := {["authenticator" := null]} in
          let p := <["autoResubscribe" :=
                       optionOr "boolean" options "autoResubscribe" true_]> p in
          let p := <["eventTimeout" :=
                       optionOr "number" options "eventTimeout" (number 200)]> p in
          let p := <["sdkVersion" := VJson (JStr sdkVersion)]> p in
          let p := <["sdkName" := VJson (JStr ("js@" +:+ sdkVersion))]> p in
          let p := <["volatile" :=
                       optionOr "object" options "volatile" (VJson (JObj ∅))]> p in
          let cookieAuth := optionOr "boolean" options "cookieAuth" false_ in
          let p := <["_cookieAuthentication" := cookieAuth]> p in
          if isTrue cookieAuth
             && negb (String.eqb (typeof (read protocol "enableCookieSupport"))
                                 "function")
          then Throw "TypeError: this.protocol.enableCookieSupport is not a function"
          else
          let steps :=
            if isTrue cookieAuth
            then [EnableCookieSupport; ProtocolListener "websocketRenewalStart";
                  ProtocolListener "websocketRenewalDone"]
            else [] in
          let p := <["deprecationWarning" :=
                       optionOr "boolean" options "deprecationWarning" true_]> p in
          if isTrue cookieAuth && negb browser then
            Throw "Support for cookie authentication with cookieAuth option is not supported outside a browser"
          else
          let steps := steps ++ map UseController controllers in
          let p := <["_offlineQueue" := VJson (JArr [])]> p in
          let p := <["_autoQueue" := optionOr "boolean" options "autoQueue" false_]> p in
          let p := <["_autoReplay" := optionOr "boolean" options "autoReplay" false_]> p in
          let p := <["_offlineQueueLoader" :=
                       optionOr "function" options "offlineQueueLoader" null]> p in
          let p := <["_queueFilter" :=
                       optionOr "function" options "queueFilter" null]> p in
          let p := <["_queueMaxSize" :=
                       optionOr "number" options "queueMaxSize" (number 500)]> p in
          let p := <["_queueTTL" :=
                       optionOr "number" options "queueTTL" (number 120000)]> p in
          let p := <["_replayInterval" :=
                       optionOr "number" options "replayInterval" (number 10)]> p in
          let p := <["_requestTimeout" :=
                       optionOr "number" options "requestTimeout" (number (-1))]> p in
          let p := <["_tokenExpiredInterval" :=
                       optionOr "number" options "tokenExpiredInterval"
                         (number 1000)]> p in
          let p :=
            if isAuto (read options "offlineMode")
            then <["_autoReplay" := true_]> (<["_autoQueue" := true_]> p)
            else p in
          let p := <["_queuing" := false_]> p in
          let p := <["_lastTokenExpired" := null]> p in
          let p := <["_reconnectInProgress" := false_]> p in
          let p := <["_loggedIn" := false_]> p in
          let steps :=
            steps ++ [On "loginAttempt"; On "logoutAttempt"; On "connected";
                      Proxify] in
          Normal (p, steps)
      end
  end.

(** The options whose type is checked, with the property each one sets, the
    type expected and the default. *)
Definition typedOptions : list (string * string * string * value) :=
  [("autoResubscribe", "autoResubscribe", "boolean", true_);
   ("eventTimeout", "eventTimeout", "number", number 200);
   ("volatile", "volatile", "object", VJson (JObj ∅));
   ("cookieAuth", "_cookieAuthentication", "boolean", false_);
   ("deprecationWarning", "deprecationWarning", "boolean", true_);
   ("offlineQueueLoader", "_offlineQueueLoader", "function", null);
   ("queueFilter", "_queueFilter", "function", null);
   ("queueMaxSize", "_queueMaxSize", "number", number 500);
   ("queueTTL", "_queueTTL", "number", number 120000);
   ("replayInterval", "_replayInterval", "number", number 10);
   ("requestTimeout", "_requestTimeout", "number", number (-1));
   ("tokenExpiredInterval", "_tokenExpiredInterval", "number", number 1000)].

(** The events of the SDK ([this.events]). *)
Definition events : list string :=
  ["callbackError"; "connected"; "discarded"; "disconnected"; "loginAttempt";
   "logoutAttempt"; "networkError"; "offlineQueuePush"; "offlineQueuePop";
   "queryError"; "reAuthenticated"; "reconnected"; "reconnectionError";
   "tokenExpired"].

(** [addListener]: the test of the event name; [Normal] is the call of the
    base class, which is not among the sources. *)
Definition addListener (event : string) : completion unit :=
  if bool_decide (event ∈ events) then Normal tt
  else
    Throw ("[" +:+ event +:+ "] is not a known event. Known events: "
           +:+ Js.join ", " events).

(** An effect that is not the emission of an unknown event. *)
Definition knownEvent (e : Kuzzle.effect) : Prop :=
  match e with
  | Kuzzle.Emitted ev _ => ev ∈ events
  | _ => True
  end.

(** From [s] to [s'], the SDK emitted known events only. *)
Definition speaks (s s' : Kuzzle.SDK) : Prop :=
  exists more,
    Kuzzle.trace s' = Kuzzle.trace s ++ more /\ Forall knownEvent more.

End Construction.

Module ConstructionScenario.
Import Construction.

(** A protocol with the three methods required. *)
Definition minimalProtocol : gmap string value :=
  <["addListener" := VFunction "addListener"]>
    (<["isReady" := VFunction "isReady"]> {["query" := VFunction "query"]}).

End ConstructionScenario.

(** * Properties *)

(** ** The offline queue *)

Module QueueFacts.
Import Kuzzle.
#[local] Open Scope list_scope.

Lemma log_all_nil (s : SDK) : log_all [] s = s.
Proof. destruct s; unfold log_all; simpl. by rewrite app_nil_r. Qed.

Lemma log_all_app (a b : list effect) (s : SDK) :
  log_all b (log_all a s) = log_all (a ++ b) s.
Proof. unfold log_all; simpl. by rewrite app_assoc. Qed.

Lemma set_offlineQueue_id (s : SDK) : set_offlineQueue (offlineQueue s) s = s.
Proof. by destruct s. Qed.

Lemma emit_unprotected (now : Z) (ev : string) (p : payload) (s : SDK) :
  protectedEvent ev = false -> emit now ev p s = log_all [Emitted ev p] s.
Proof.
  intros Hev. unfold emit. by rewrite Hev.
Qed.

Lemma emit_pop (now : Z) (p : payload) (s : SDK) :
  emit now "offlineQueuePop" p s = log_all [Emitted "offlineQueuePop" p] s.
Proof. reflexivity. Qed.

Lemma dropAll_spec (now : Z) (msg : string) (dropped : list QueueEntry) (s : SDK) :
  dropAll now msg dropped s = log_all (dropEffects msg dropped) s.
Proof.
  revert s. induction dropped as [|e dropped IH]; intros s.
  - by rewrite log_all_nil.
  - unfold dropAll in *. simpl. rewrite IH. unfold dropEntry.
    rewrite emit_pop. unfold log. fold (log_all [Rejected (promise e) msg]
      (log_all [Emitted "offlineQueuePop" (PRequest (request e))] s)).
    by rewrite !log_all_app.
Qed.

Lemma lastExpired_range (now ttl : Z) (q : list QueueEntry) (i last : Z) :
  last < i ->
  last <= lastExpired now ttl q i last < i + Z.of_nat (length q)
  \/ (q = [] /\ lastExpired now ttl q i last = last).
Proof.
  revert i last. induction q as [|e q IH]; intros i last Hlt; simpl.
  - by right.
  - left. destruct (Z.ltb (ts e) (now - ttl)).
    + destruct (IH (i + 1) i) as [H|[-> H]]; simpl in *; lia.
    + destruct (IH (i + 1) last) as [H|[-> H]]; simpl in *; lia.
Qed.

Lemma lastExpired_covers (now ttl : Z) (q : list QueueEntry) (i last : Z)
    (j : nat) (e : QueueEntry) :
  last < i -> q !! j = Some e -> ts e < now - ttl ->
  i + Z.of_nat j <= lastExpired now ttl q i last.
Proof.
  revert i last j. induction q as [|x q IH]; intros i last j Hlt Hj Hold.
  - done.
  - simpl. destruct j as [|j]; simpl in Hj.
    + injection Hj as ->. apply Z.ltb_lt in Hold. rewrite Hold.
      destruct (lastExpired_range now ttl q (i + 1) i) as [H|[_ H]]; lia.
    + specialize (IH (i + 1)
        (if Z.ltb (ts x) (now - ttl) then i else last) j).
      destruct (Z.ltb (ts x) (now - ttl)); (etrans; [|apply IH]); try done; lia.
Qed.

Lemma expiredCount_le (now ttl : Z) (q : list QueueEntry) :
  (expiredCount now ttl q <= length q)%nat.
Proof.
  unfold expiredCount. destruct (Z.ltb 0 ttl); [|lia].
  destruct (lastExpired_range now ttl q 0 (-1)) as [H|[-> H]];
    [lia| |]; simpl in *; lia.
Qed.

(** No entry older than the TTL is left behind the expired prefix. *)
Lemma expired_all_dropped (now ttl : Z) (q : list QueueEntry) (e : QueueEntry) :
  0 < ttl -> e ∈ drop (expiredCount now ttl q) q -> ~ ts e < now - ttl.
Proof.
  intros Httl Hin Hold. apply list_elem_of_lookup in Hin as [k Hk].
  rewrite lookup_drop in Hk.
  pose proof (lastExpired_covers now ttl q 0 (-1) _ e ltac:(lia) Hk Hold) as Hc.
  unfold expiredCount in *. apply Z.ltb_lt in Httl. rewrite Httl in *.
  destruct (lastExpired_range now ttl q 0 (-1)) as [H|[-> H]]; [lia| |].
  - lia.
  - by rewrite lookup_nil in Hk.
Qed.

Lemma cleanTTL_spec (now : Z) (s : SDK) :
  cleanTTL now s =
  log_all
    (dropEffects TTL_MESSAGE
       (take (expiredCount now (queueTTL (cfg s)) (offlineQueue s)) (offlineQueue s)))
    (set_offlineQueue
       (drop (expiredCount now (queueTTL (cfg s)) (offlineQueue s)) (offlineQueue s)) s).
Proof.
  unfold cleanTTL, expiredCount.
  destruct (Z.ltb 0 (queueTTL (cfg s))).
  - destruct (Z.eqb_spec (lastExpired now (queueTTL (cfg s)) (offlineQueue s) 0 (-1)) (-1))
      as [->|Hne]; simpl.
    + change (Z.to_nat (-1 + 1)) with 0%nat. rewrite drop_0.
      by rewrite log_all_nil, set_offlineQueue_id.
    + by rewrite dropAll_spec.
  - rewrite take_0, drop_0. by rewrite log_all_nil, set_offlineQueue_id.
Qed.

Lemma cleanMaxSize_spec (now : Z) (s : SDK) :
  cleanMaxSize now s =
  log_all
    (dropEffects MAXSIZE_MESSAGE
       (take (excessCount (queueMaxSize (cfg s)) (offlineQueue s)) (offlineQueue s)))
    (set_offlineQueue
       (drop (excessCount (queueMaxSize (cfg s)) (offlineQueue s)) (offlineQueue s)) s).
Proof.
  unfold cleanMaxSize, excessCount.
  destruct (Z.ltb 0 (queueMaxSize (cfg s))
            && Z.ltb (queueMaxSize (cfg s)) (Z.of_nat (length (offlineQueue s)))).
  - simpl. by rewrite dropAll_spec.
  - rewrite take_0, drop_0. by rewrite log_all_nil, set_offlineQueue_id.
Qed.

(** [_cleanQueue] removes a prefix of the queue: the entries up to the last
    expired one, rejected with the TTL error, then the oldest entries in
    excess of the maximal size, rejected with the size error; each removal
    emits [offlineQueuePop]. *)
Lemma cleanQueue_spec (now : Z) (s : SDK) :
  _cleanQueue now s =
  log_all (evictionEffects now (cfg s) (offlineQueue s))
    (set_offlineQueue (drop (evicted now (cfg s) (offlineQueue s)) (offlineQueue s)) s).
Proof.
  unfold _cleanQueue, evicted, evictionEffects.
  rewrite cleanMaxSize_spec, cleanTTL_spec. simpl.
  rewrite drop_drop. unfold set_offlineQueue, log_all; simpl.
  by rewrite app_assoc.
Qed.

(** *** Replay *)

Lemma dequeuingProcess_nil (now : Z) (s : SDK) :
  offlineQueue s = [] -> dequeuingProcess now s = s.
Proof. intros H. unfold dequeuingProcess. by rewrite H. Qed.

(** One run sends the head of the queue, and only it, emits its
    [offlineQueuePop] and sets the timer of the next run. *)
Lemma dequeuingProcess_cons (now : Z) (s : SDK) (e : QueueEntry) (q : list QueueEntry) :
  offlineQueue s = e :: q ->
  dequeuingProcess now s =
  log_all (replayStep (replayInterval (cfg s)) e)
    (set_pendingReplays (S (pendingReplays s)) (set_offlineQueue q s)).
Proof.
  intros H. unfold dequeuingProcess. rewrite H. rewrite emit_pop.
  unfold _timeoutRequest, replayStep.
  destruct (Z.eqb (timeout e) (-1)); unfold log_all, log; simpl;
    f_equal; by rewrite <- ?app_assoc.
Qed.






(** *** The filter of the queue loader *)









(** *** A whole replay *)






(** *** Enqueueing *)

Lemma emit_push (now : Z) (p : payload) (s : SDK) :
  emit now "offlineQueuePush" p s = log_all [Emitted "offlineQueuePush" p] s.
Proof. reflexivity. Qed.

Lemma emit_discarded (now : Z) (p : payload) (s : SDK) :
  emit now "discarded" p s = log_all [Emitted "discarded" p] s.
Proof. reflexivity. Qed.

(** A queuable request made while queuing goes to the tail of the queue,
    after [_cleanQueue] has run on the queue without it. *)
Lemma dispatch_enqueue (t : Z) (r : Request) (now : Z) (s : SDK) :
  queuing s = true ->
  dispatch true t r now s =
  set_offlineQueue
    (drop (evicted now (cfg s) (offlineQueue s)) (offlineQueue s)
     ++ [{| request := Some r; timeout := t; ts := now;
            promise := next_promise s |}])
    (log_all (evictionEffects now (cfg s) (offlineQueue s)
              ++ [Emitted "offlineQueuePush" (PRequest (Some r))])
       (set_next_promise (S (next_promise s)) s)).
Proof.
  intros Hq. unfold dispatch. simpl queuing. rewrite Hq.
  rewrite cleanQueue_spec, emit_push. simpl.
  unfold set_offlineQueue, log_all; simpl. f_equal. by rewrite app_assoc.
Qed.

Lemma dispatch_frame (queuable : bool) (t : Z) (r : Request) (now : Z) (s : SDK) :
  let s' := dispatch queuable t r now s in
  cfg s' = cfg s /\ protocol_ready s' = protocol_ready s
  /\ pendingReplays s' = pendingReplays s
  /\ next_promise s' = S (next_promise s)
  /\ (offlineQueue s' = offlineQueue s
      \/ exists n,
           offlineQueue s' =
           drop n (offlineQueue s)
           ++ [{| request := Some r; timeout := t; ts := now;
                  promise := next_promise s |}]).
Proof.
  destruct (queuing s) eqn:Hq; destruct queuable.
  - simpl. rewrite dispatch_enqueue by done. simpl. repeat split; eauto.
  - unfold dispatch. simpl queuing. rewrite Hq, emit_discarded. simpl.
    repeat split; eauto.
  - unfold dispatch. simpl queuing. rewrite Hq. unfold _timeoutRequest.
    destruct (Z.eqb t (-1)); simpl; repeat split; eauto.
  - unfold dispatch. simpl queuing. rewrite Hq. unfold _timeoutRequest.
    destruct (Z.eqb t (-1)); simpl; repeat split; eauto.
Qed.

Lemma prepareVolatile_frame (v : option json) (s s1 : SDK) (l : nat) :
  prepareVolatile v s = Normal (l, s1) -> exists h, s1 = set_store h s.
Proof.
  unfold prepareVolatile. destruct (resolveVolatile v s) as [[l' h]|]; [|done].
  destruct (store s !! volatile (cfg s)); [|done].
  intros [= <- <-]. eauto.
Qed.

Lemma query_frame (req opts : json) (uuid : string) (now : Z) (s s' : SDK)
    (r : Request) :
  query req opts uuid now s = Normal (s', r) ->
  cfg s' = cfg s /\ protocol_ready s' = protocol_ready s
  /\ pendingReplays s' = pendingReplays s
  /\ next_promise s' = S (next_promise s)
  /\ (offlineQueue s' = offlineQueue s
      \/ exists n t,
           offlineQueue s' =
           drop n (offlineQueue s)
           ++ [{| request := Some r; timeout := t; ts := now;
                  promise := next_promise s |}]).
Proof.
  unfold query. intros H.
  destruct (negb (isPlainObject req)); [done|].
  destruct (negb (isPlainObject opts)); [done|].
  destruct req as [| | | | |req]; try done.
  destruct opts as [| | | | |options]; try done.
  destruct (prepareVolatile _ s) as [[l s1]|] eqn:Hv; [|done].
  injection H as <- <-.
  destruct (prepareVolatile_frame _ _ _ _ Hv) as [h ->].
  match goal with |- context [dispatch ?q ?t ?r now _] =>
    destruct (dispatch_frame q t r now (set_store h s))
      as (Hc & Hr & Hp & Hn & Hq) end.
  simpl in *. repeat split; try done.
  destruct Hq as [Hq|[n Hq]]; [by left|right; eauto].
Qed.

Lemma StronglySorted_sublist {A : Type} (R : A -> A -> Prop) (l1 l2 : list A) :
  l1 `sublist_of` l2 -> StronglySorted R l2 -> StronglySorted R l1.
Proof.
  induction 1 as [|x l1 l2 Hs IH|x l1 l2 Hs IH]; intros Hsorted.
  - constructor.
  - apply StronglySorted_cons in Hsorted as [Hx Hl2].
    apply StronglySorted_cons. split; [|auto].
    rewrite Forall_forall in *. intros y Hy. apply Hx.
    by apply (sublist_subseteq _ _ Hs).
  - apply StronglySorted_cons in Hsorted as [_ Hl2]. auto.
Qed.




(** *** The queue and the [offlineQueuePush] events *)

Lemma emitted_app (ev : string) (a b : list effect) :
  emitted ev (a ++ b) = emitted ev a ++ emitted ev b.
Proof. apply omap_app. Qed.







(** *** What reaches the transport *)

Lemma sent_app (a b : list effect) : sent (a ++ b) = sent a ++ sent b.
Proof. apply omap_app. Qed.

Lemma sent_dropEffects (msg : string) (dropped : list QueueEntry) :
  sent (dropEffects msg dropped) = [].
Proof. induction dropped as [|e dropped IH]; [done|]. simpl. done. Qed.

Lemma sent_evictionEffects (now : Z) (c : Config) (q : list QueueEntry) :
  sent (evictionEffects now c q) = [].
Proof.
  unfold evictionEffects. by rewrite sent_app, !sent_dropEffects.
Qed.

Lemma sent_replay (interval : Z) (q : list QueueEntry) :
  sent (flat_map (replayStep interval) q) = map (fun e => (request e, promise e)) q.
Proof.
  induction q as [|e q IH]; [done|].
  simpl. rewrite sent_app, IH. unfold replayStep.
  by destruct (Z.eqb (timeout e) (-1)).
Qed.

(** *** Requests queued while a replay is running *)

Lemma sublist_map {A B : Type} (f : A -> B) (l1 l2 : list A) :
  l1 `sublist_of` l2 -> map f l1 `sublist_of` map f l2.
Proof. induction 1; simpl; by constructor. Qed.

Lemma sorted_remove_append (sentp qp qp' : list nat) (next : nat) :
  StronglySorted lt (sentp ++ qp) ->
  Forall (fun x => (x < next)%nat) (sentp ++ qp) ->
  qp' `sublist_of` qp ->
  StronglySorted lt (sentp ++ qp' ++ [next])
  /\ Forall (fun x => (x < S next)%nat) (sentp ++ qp' ++ [next]).
Proof.
  intros Hs Hf Hsub.
  assert (Hsub' : sentp ++ qp' `sublist_of` sentp ++ qp).
  { by apply sublist_app. }
  assert (Hf' : Forall (fun x => (x < next)%nat) (sentp ++ qp')).
  { rewrite Forall_forall in *. intros x Hx. apply Hf.
    by apply (sublist_subseteq _ _ Hsub'). }
  rewrite !app_assoc. split.
  - apply StronglySorted_app. split_and!.
    + intros x1 x2 Hx1 Hx2. apply list_elem_of_singleton in Hx2 as ->.
      rewrite Forall_forall in Hf'. by apply Hf'.
    + by eapply StronglySorted_sublist.
    + repeat constructor.
  - apply Forall_app. split.
    + eapply Forall_impl; [exact Hf'|]. simpl. lia.
    + apply Forall_singleton. lia.
Qed.

Lemma replayInv_keep (base : list effect) (s s' : SDK) (more : list effect) :
  replayInv base s ->
  trace s' = trace s ++ more -> sent more = [] ->
  offlineQueue s' `sublist_of` offlineQueue s ->
  (next_promise s <= next_promise s')%nat ->
  replayInv base s'.
Proof.
  intros (since & Ht & Hs & Hf) Ht' Hmore Hq Hn.
  exists (since ++ more). rewrite Ht', Ht, app_assoc. split; [done|].
  rewrite sent_app, Hmore, app_nil_r.
  assert (Hsub : map snd (sent since) ++ map promise (offlineQueue s')
                 `sublist_of` map snd (sent since) ++ map promise (offlineQueue s)).
  { apply sublist_app; [done|]. by apply sublist_map. }
  split.
  - by eapply StronglySorted_sublist.
  - rewrite Forall_forall in *. intros x Hx.
    apply (sublist_subseteq _ _ Hsub) in Hx. apply Hf in Hx. lia.
Qed.

Lemma replayInv_send (base : list effect) (s s' : SDK) (e : QueueEntry)
    (q : list QueueEntry) (interval : Z) :
  replayInv base s ->
  e :: q `sublist_of` offlineQueue s ->
  trace s' = trace s ++ replayStep interval e ->
  offlineQueue s' = q -> next_promise s' = next_promise s ->
  replayInv base s'.
Proof.
  intros (since & Ht & Hs & Hf) Hq Ht' Hq' Hn.
  exists (since ++ replayStep interval e).
  rewrite Ht', Ht, app_assoc. split; [done|].
  assert (Hsent : sent (replayStep interval e) = [(request e, promise e)]).
  { unfold replayStep. by destruct (Z.eqb (timeout e) (-1)). }
  rewrite sent_app, Hsent, map_app, Hq', Hn, <- app_assoc. simpl.
  assert (Hsub : map snd (sent since) ++ promise e :: map promise q
                 `sublist_of` map snd (sent since) ++ map promise (offlineQueue s)).
  { apply sublist_app; [done|]. by apply (sublist_map promise) in Hq. }
  split.
  - by eapply StronglySorted_sublist.
  - rewrite Forall_forall in *. intros x Hx.
    apply (sublist_subseteq _ _ Hsub) in Hx. by apply Hf.
Qed.

Lemma replayInv_dequeuingProcess (base : list effect) (now : Z) (s : SDK) :
  replayInv base s -> replayInv base (dequeuingProcess now s).
Proof.
  intros Hinv. destruct (offlineQueue s) as [|e q] eqn:Hq.
  - by rewrite dequeuingProcess_nil.
  - rewrite (dequeuingProcess_cons _ _ e q) by done.
    eapply (replayInv_send base s _ e q); [done|by rewrite Hq|done|done|done].
Qed.

Lemma replayInv_frame (base : list effect) (s s' : SDK) :
  trace s' = trace s -> offlineQueue s' = offlineQueue s ->
  next_promise s' = next_promise s ->
  replayInv base s -> replayInv base s'.
Proof.
  intros Ht Hq Hn (since & H1 & H2 & H3). exists since.
  by rewrite Ht, Hq, Hn.
Qed.

Lemma sent_pushed (now : Z) (c : Config) (q : list QueueEntry) (p : payload) :
  sent (evictionEffects now c q ++ [Emitted "offlineQueuePush" p]) = [].
Proof. by rewrite sent_app, sent_evictionEffects. Qed.

Lemma replayInv_dispatch (base : list effect) (queuable : bool) (t : Z)
    (r : Request) (now : Z) (s : SDK) :
  queuing s = true ->
  replayInv base s -> replayInv base (dispatch queuable t r now s).
Proof.
  intros Hq Hinv. destruct queuable.
  - rewrite dispatch_enqueue by done.
    destruct Hinv as (since & Ht & Hs & Hf).
    exists (since ++ evictionEffects now (cfg s) (offlineQueue s)
            ++ [Emitted "offlineQueuePush" (PRequest (Some r))]).
    simpl. rewrite Ht, <- app_assoc. split; [done|].
    rewrite sent_app, sent_pushed, app_nil_r, map_app. simpl.
    apply (sorted_remove_append _ (map promise (offlineQueue s))); try done.
    apply sublist_map, sublist_drop.
  - unfold dispatch. simpl queuing. rewrite Hq, emit_discarded.
    eapply (replayInv_keep base s); [done|simpl; by rewrite <- app_assoc|done|done|].
    simpl. lia.
Qed.

Lemma dispatch_queuing (queuable : bool) (t : Z) (r : Request) (now : Z) (s : SDK) :
  queuing (dispatch queuable t r now s) = queuing s.
Proof.
  unfold dispatch. simpl queuing.
  destruct (queuing s) eqn:Hq; [destruct queuable|].
  - rewrite cleanQueue_spec, emit_push. simpl. exact Hq.
  - rewrite emit_discarded. simpl. exact Hq.
  - unfold _timeoutRequest. destruct (Z.eqb t (-1)); simpl; exact Hq.
Qed.

Lemma issue_queuing (s : SDK) (c : Call) : queuing (issue s c) = queuing s.
Proof.
  unfold issue.
  destruct (query _ _ _ _ s) as [[s' r]|] eqn:Hquery; [|done].
  unfold query in Hquery.
  destruct (negb (isPlainObject (call_req c))); [done|].
  destruct (negb (isPlainObject (call_opts c))); [done|].
  destruct (call_req c) as [| | | | |req]; try done.
  destruct (call_opts c) as [| | | | |options]; try done.
  destruct (prepareVolatile _ s) as [[l s1]|] eqn:Hv; [|done].
  injection Hquery as <- <-.
  destruct (prepareVolatile_frame _ _ _ _ Hv) as [h ->].
  by rewrite dispatch_queuing.
Qed.




Lemma replayInv_issue (base : list effect) (s : SDK) (c : Call) :
  queuing s = true ->
  replayInv base s -> replayInv base (issue s c).
Proof.
  intros Hq Hinv. unfold issue.
  destruct (query _ _ _ _ s) as [[s' r]|] eqn:Hquery; [|done].
  unfold query in Hquery.
  destruct (negb (isPlainObject (call_req c))); [done|].
  destruct (negb (isPlainObject (call_opts c))); [done|].
  destruct (call_req c) as [| | | | |req]; try done.
  destruct (call_opts c) as [| | | | |options]; try done.
  destruct (prepareVolatile _ s) as [[l s1]|] eqn:Hv; [|done].
  injection Hquery as <- <-.
  destruct (prepareVolatile_frame _ _ _ _ Hv) as [h ->].
  apply replayInv_dispatch; [done|].
  by apply (replayInv_frame base s).
Qed.

Lemma replayInv_playQueue (base : list effect) (now : Z) (s : SDK) :
  offlineQueueLoader (cfg s) = None ->
  replayInv base s -> replayInv base (playQueue now s).
Proof.
  intros HL Hinv. unfold playQueue. destruct (protocol_ready s); [|done].
  unfold _dequeue. rewrite cleanQueue_spec. simpl cfg. rewrite HL.
  apply replayInv_dequeuingProcess.
  eapply (replayInv_keep base s); [done|done|apply sent_evictionEffects| |done].
  apply sublist_drop.
Qed.

Lemma replayInv_timerFires (base : list effect) (now : Z) (s : SDK) :
  replayInv base s -> replayInv base (timerFires now s).
Proof.
  intros Hinv. unfold timerFires. destruct (pendingReplays s) as [|n]; [done|].
  apply replayInv_dequeuingProcess. by apply (replayInv_frame base s).
Qed.

(** Without a loader, an answer that is pending finds no function to
    call: nothing is replayed. *)
Lemma loaderAnswers_no_loader (now : Z) (s : SDK) :
  offlineQueueLoader (cfg s) = None ->
  loaderAnswers now s = set_pendingLoads (pred (pendingLoads s)) s.
Proof.
  intros HL. unfold loaderAnswers, loaded.
  destruct (pendingLoads s) as [|n] eqn:Hn.
  - simpl. destruct s; simpl in *. by subst.
  - simpl cfg. by rewrite HL.
Qed.

Lemma step_frame (s : SDK) (ev : event) :
  queuing s = true ->
  cfg (step s ev) = cfg s /\ queuing (step s ev) = true.
Proof.
  intros Hq. destruct ev as [c|now|now|now]; simpl.
  - split.
    + unfold issue. destruct (query _ _ _ _ s) as [[s' r]|] eqn:H; [|done].
      by destruct (query_frame _ _ _ _ _ _ _ H) as (Hc & _).
    + by rewrite issue_queuing.
  - unfold playQueue. destruct (protocol_ready s); [|done].
    unfold _dequeue. rewrite cleanQueue_spec. simpl.
    destruct (offlineQueueLoader (cfg s)) as [L|]; [done|].
    destruct (drop _ _) as [|e q] eqn:Hd.
    + by rewrite dequeuingProcess_nil.
    + by rewrite (dequeuingProcess_cons _ _ e q).
  - unfold timerFires. destruct (pendingReplays s); [done|].
    destruct (offlineQueue s) as [|e q] eqn:Hd.
    + by rewrite dequeuingProcess_nil.
    + by rewrite (dequeuingProcess_cons _ _ e q).
  - unfold loaderAnswers. destruct (pendingLoads s) as [|n]; [done|].
    unfold loaded. simpl cfg.
    destruct (offlineQueueLoader (cfg s)) as [[L|t|m]|]; try done.
    simpl offlineQueue.
    destruct (filterUnique _ _) as [[|e kept]|]; [done| |done].
    by rewrite (dequeuingProcess_cons _ _ e kept).
Qed.

(** While the SDK queues, whatever the order in which requests are made,
    replays are started and timers fire: the requests that reach the
    transport do so in the order in which they were queued, and before
    every request still in the queue. *)
Lemma replay_interleaved (evs : list event) (s0 : SDK) :
  queuing s0 = true -> offlineQueueLoader (cfg s0) = None ->
  offlineQueue s0 = [] ->
  exists since,
    trace (run evs s0) = trace s0 ++ since
    /\ StronglySorted lt (map snd (sent since)
                          ++ map promise (offlineQueue (run evs s0))).
Proof.
  intros Hq HL Hq0.
  assert (Hinv0 : replayInv (trace s0) s0).
  { exists []. rewrite app_nil_r, Hq0. split_and!; [done|constructor|constructor]. }
  assert (H : replayInv (trace s0) (run evs s0)).
  { revert Hq HL Hinv0. generalize (trace s0) as base. clear Hq0.
    unfold run. revert s0.
    induction evs as [|ev evs IH]; intros s base Hq HL Hinv; [done|].
    simpl. destruct (step_frame s ev Hq) as [Hc Hq'].
    apply IH; [done|by rewrite Hc|].
    destruct ev as [c|now|now|now]; simpl.
    - by apply replayInv_issue.
    - by apply replayInv_playQueue.
    - by apply replayInv_timerFires.
    - rewrite loaderAnswers_no_loader by done.
      by apply (replayInv_frame base s). }
  destruct H as (since & Ht & Hs & _). eauto.
Qed.


(** *** The eviction policy *)

Lemma excessCount_length (maxSize : Z) (q : list QueueEntry) :
  0 < maxSize ->
  Z.of_nat (length (drop (excessCount maxSize q) q))
  = Z.min maxSize (Z.of_nat (length q)).
Proof.
  intros Hmax. rewrite length_drop. unfold excessCount.
  destruct (Z.ltb_spec 0 maxSize); [|lia].
  destruct (Z.ltb_spec maxSize (Z.of_nat (length q))); simpl; lia.
Qed.

(** What [_cleanQueue] leaves: a suffix of the queue, holding no entry
    older than a positive TTL and no more entries than a positive maximal
    size; it leaves the SDK alone when both settings are disabled. *)
Lemma cleanQueue_policy (now : Z) (s : SDK) :
  offlineQueue (_cleanQueue now s)
  = drop (evicted now (cfg s) (offlineQueue s)) (offlineQueue s)
  /\ (0 < queueTTL (cfg s) ->
      forall e, e ∈ offlineQueue (_cleanQueue now s) ->
                ~ ts e < now - queueTTL (cfg s))
  /\ (0 < queueMaxSize (cfg s) ->
      Z.of_nat (length (offlineQueue (_cleanQueue now s))) <= queueMaxSize (cfg s))
  /\ (queueTTL (cfg s) <= 0 -> queueMaxSize (cfg s) <= 0 -> _cleanQueue now s = s).
Proof.
  rewrite cleanQueue_spec. simpl. split_and!.
  - done.
  - intros Httl e He. apply (expired_all_dropped now _ (offlineQueue s) e Httl).
    unfold evicted in He. rewrite <- drop_drop in He.
    by apply (sublist_subseteq _ _ (sublist_drop _ _)) in He.
  - intros Hmax. unfold evicted. rewrite <- drop_drop.
    rewrite excessCount_length by done. lia.
  - intros Httl Hmax. unfold evictionEffects, evicted, expiredCount, excessCount.
    destruct (Z.ltb_spec 0 (queueTTL (cfg s))); [lia|].
    destruct (Z.ltb_spec 0 (queueMaxSize (cfg s))); [lia|].
    rewrite andb_false_l, !take_0, !drop_0. simpl.
    by rewrite log_all_nil, set_offlineQueue_id.
Qed.

Lemma query_enqueues (req options : gmap string json) (uuid : string)
    (now : Z) (s s' : SDK) (r : Request) :
  queuing s = true -> queueFilter (cfg s) = None ->
  options !! "queuable" = None ->
  query (JObj req) (JObj options) uuid now s = Normal (s', r) ->
  exists h t, s' = dispatch true t r now (set_store h s).
Proof.
  intros Hq Hf Ho H. unfold query in H. simpl in H. rewrite Hf, Ho in H.
  destruct (prepareVolatile _ s) as [[l s1]|] eqn:Hv; [|done].
  injection H as <- <-.
  destruct (prepareVolatile_frame _ _ _ _ Hv) as [h ->]. eauto.
Qed.

(** C3. The size rule is applied before the new entry is pushed: once the
    queue holds [queueMaxSize] entries, every further enqueue leaves
    [queueMaxSize + 1] entries in the queue, and the enqueue that first
    goes beyond [queueMaxSize] rejects nothing. *)
Theorem enqueue_overflows_queueMaxSize (req options : gmap string json)
    (uuid : string) (now : Z) (s s' : SDK) (r : Request) :
  queuing s = true -> queueFilter (cfg s) = None ->
  options !! "queuable" = None ->
  queueTTL (cfg s) <= 0 ->
  0 < queueMaxSize (cfg s) <= Z.of_nat (length (offlineQueue s)) ->
  query (JObj req) (JObj options) uuid now s = Normal (s', r) ->
  Z.of_nat (length (offlineQueue s')) = queueMaxSize (cfg s) + 1
  /\ (Z.of_nat (length (offlineQueue s)) = queueMaxSize (cfg s) ->
      trace s' = trace s ++ [Emitted "offlineQueuePush" (PRequest (Some r))]).
Proof.
  intros Hq Hf Ho Httl Hmax H.
  destruct (query_enqueues _ _ _ _ _ _ _ Hq Hf Ho H) as (h & t & ->).
  rewrite dispatch_enqueue by done. simpl.
  unfold evictionEffects, evicted, expiredCount.
  destruct (Z.ltb_spec 0 (queueTTL (cfg s))); [lia|].
  rewrite !drop_0, take_0. simpl. split.
  - rewrite length_app, Nat2Z.inj_add, excessCount_length by lia. simpl. lia.
  - intros Hlen. unfold excessCount.
    destruct (Z.ltb_spec (queueMaxSize (cfg s)) (Z.of_nat (length (offlineQueue s))));
      [lia|].
    rewrite andb_false_r. by rewrite take_0.
Qed.


End QueueFacts.

(** *** Examples and instances *)

Module QueueExamples.
Import Kuzzle Scenario QueueFacts.
#[local] Open Scope list_scope.

(** Requests queued as [r0], [r1], [r2] reach the transport in that
    order. *)
Example replay_r0_r1_r2 :
  requestIds (sent (trace (drain [4; 5; 6]
    (playQueue 3 (set_protocol_ready true
       (issueAll [get "r0" 0; get "r1" 1; get "r2" 2] (offline config)))))))
  = [Some (JStr "r0"); Some (JStr "r1"); Some (JStr "r2")].
Proof. vm_compute. reflexivity. Qed.

(** A request left in the queue past the TTL is rejected and never
    sent. *)
Example expired_never_sent :
  let s := playQueue 200000 (set_protocol_ready true
             (issueAll [get "r0" 0] (offline config))) in
  sent (trace s) = []
  /\ trace s = [Emitted "offlineQueuePush"
                  (PRequest (Some {| fields := getRequest "r0";
                                     volatile_ref := Some 0%nat |}));
                Emitted "offlineQueuePop"
                  (PRequest (Some {| fields := getRequest "r0";
                                     volatile_ref := Some 0%nat |}));
                Rejected 0 TTL_MESSAGE].
Proof. vm_compute. split; reflexivity. Qed.


(** With [queueMaxSize = 1], the second enqueue leaves two entries in the
    queue and rejects none. *)
Example two_entries_for_maxSize_one :
  let s := issueAll [get "r0" 0; get "r1" 1] (offline smallQueue) in
  requestIds (map (fun e => (request e, promise e)) (offlineQueue s))
  = [Some (JStr "r0"); Some (JStr "r1")]
  /\ emitted "offlineQueuePop" (trace s) = [].
Proof. vm_compute. split; reflexivity. Qed.

Lemma enqueue_overflows_queueMaxSize_witness :
  match query (JObj (getRequest "r1")) (JObj ∅) "uuid" 1
          (issue (offline smallQueue) (get "r0" 0)) with
  | Normal (s', r) => Z.of_nat (length (offlineQueue s')) = 1 + 1
  | Throw _ => False
  end.
Proof.
  destruct (query (JObj (getRequest "r1")) (JObj ∅) "uuid" 1
              (issue (offline smallQueue) (get "r0" 0))) as [[s' r]|msg] eqn:H.
  - apply (enqueue_overflows_queueMaxSize (getRequest "r1") ∅ "uuid" 1
             (issue (offline smallQueue) (get "r0" 0)) s' r);
      [reflexivity|reflexivity|reflexivity| | |exact H].
    + vm_compute. discriminate.
    + vm_compute. split; [reflexivity|discriminate].
  - vm_compute in H. discriminate.
Defined.



(** With a loader, [playQueue] sends nothing by itself: the loaded entry
    is sent once the loader has answered. *)
Example loader_answers_later :
  sent (trace (playQueue 0 duplicate)) = []
  /\ pendingLoads (playQueue 0 duplicate) = 1%nat
  /\ sent (trace (loaderAnswers 1 (playQueue 0 duplicate)))
     = [(request loaded_a, promise loaded_a)].
Proof. vm_compute. split_and!; reflexivity. Qed.

(** Two entries whose [requestId] is [__proto__] are both kept. *)
Example proto_ids_both_kept :
  let e (p : nat) : QueueEntry :=
    {| request :=
         Some {| fields := <["requestId" := JStr "__proto__"]> (getRequest "r");
                 volatile_ref := None |};
       timeout := -1; ts := 0; promise := p |} in
  filterUnique ∅ [e 1%nat; e 2%nat] = Normal [e 1%nat; e 2%nat].
Proof. vm_compute. reflexivity. Qed.

End QueueExamples.

(** ** The connection *)

Module ConnectionFacts.
Import Kuzzle QueueFacts.
#[local] Open Scope list_scope.

Lemma listeners_app (ev : string) (a b : list effect) :
  listeners ev (a ++ b) = (listeners ev a + listeners ev b)%nat.
Proof. unfold listeners. by rewrite omap_app, length_app. Qed.

Lemma connect_ready (s : SDK) : protocol_ready s = true -> connect s = s.
Proof. intros H. unfold connect. by rewrite H. Qed.

(** What a call made while the protocol is not ready adds to the trace. *)
Lemma connect_not_ready (s : SDK) :
  protocol_ready s = false ->
  trace (connect s) =
    trace s ++
    [ProtocolAddListener "queryError" OnQueryError;
     ProtocolAddListener "tokenExpired" OnTokenExpired;
     ProtocolAddListener "connect" OnConnect;
     ProtocolAddListener "networkError" OnNetworkError;
     ProtocolAddListener "disconnect" OnDisconnect;
     ProtocolAddListener "reconnect" OnReconnect;
     ProtocolAddListener "discarded" OnDiscarded;
     ProtocolAddListener "websocketRenewalStart" OnRenewalStart;
     ProtocolAddListener "websocketRenewalDone" OnRenewalDone;
     ProtocolConnect]
  /\ protocol_ready (connect s) = false.
Proof.
  intros H. unfold connect. rewrite H.
  destruct (autoQueue (cfg s)); simpl; rewrite <- ?app_assoc; done.
Qed.

Lemma connect_listeners (s : SDK) (ev : string) :
  protocol_ready s = false -> ev ∈ transportEvents ->
  listeners ev (trace (connect s)) = S (listeners ev (trace s)).
Proof.
  intros H Hev. destruct (connect_not_ready s H) as [-> _].
  rewrite listeners_app.
  unfold transportEvents in Hev.
  repeat (apply elem_of_cons in Hev as [->|Hev];
          [match goal with |- (_ + ?k)%nat = _ => change k with 1%nat end; lia|]).
  by apply elem_of_nil in Hev.
Qed.

(** C7. [connect] is a no-op when the protocol reports ready. Each call
    made while it does not attaches one more listener to each protocol
    event: after [n] such calls, [n] listeners more than before. *)
Theorem connect_registers_once_per_call (s : SDK) :
  (protocol_ready s = true -> connect s = s)
  /\ (protocol_ready s = false ->
      forall (n : nat) (ev : string), ev ∈ transportEvents ->
        listeners ev (trace (Nat.iter n connect s))
        = (listeners ev (trace s) + n)%nat).
Proof.
  split; [apply connect_ready|].
  intros H n ev Hev.
  assert (Hn : protocol_ready (Nat.iter n connect s) = false
               /\ listeners ev (trace (Nat.iter n connect s))
                  = (listeners ev (trace s) + n)%nat).
  { induction n as [|n [IHr IHl]]; simpl.
    - split; [done|lia].
    - split; [by apply connect_not_ready|].
      rewrite connect_listeners by done. lia. }
  apply Hn.
Qed.

(** *** Reconnection *)

Lemma emit_reconnectionError (now : Z) (p : payload) (s : SDK) :
  emit now "reconnectionError" p s = log_all [Emitted "reconnectionError" p] s.
Proof. reflexivity. Qed.

(** [tryReAuthenticate] always resolves, to a boolean. *)
Lemma tryReAuthenticate_resolves (now : Z) (check1 check2 : CheckToken) (s : SDK) :
  exists b, snd (tryReAuthenticate now check1 check2 s) = Normal b.
Proof.
  unfold tryReAuthenticate.
  destruct (tryReAuthenticate_body _ _ _ _) as [s1 [b|err]]; simpl; eauto.
Qed.

(** Its result depends on the token checks and on the authenticator
    only. *)
Lemma tryReAuthenticate_result (now : Z) (check1 check2 : CheckToken) (s1 s2 : SDK) :
  cfg s1 = cfg s2 ->
  snd (tryReAuthenticate now check1 check2 s1)
  = snd (tryReAuthenticate now check1 check2 s2).
Proof.
  intros Hc. unfold tryReAuthenticate, tryReAuthenticate_body, authenticate.
  simpl cfg. rewrite Hc.
  destruct (isAuthenticated check1) as [[]|]; try done;
    destruct (authenticator (cfg s2)); try done;
    destruct (isAuthenticated check2) as [[]|]; done.
Qed.

(** With an invalid token and no authenticator, it resolves to [false]. *)
Lemma tryReAuthenticate_no_authenticator (now : Z) (check1 check2 : CheckToken)
    (s : SDK) :
  isAuthenticated check1 = Normal false ->
  authenticator (cfg s) = NoAuthenticator ->
  snd (tryReAuthenticate now check1 check2 s) = Normal false.
Proof.
  intros H1 Ha. unfold tryReAuthenticate, tryReAuthenticate_body.
  simpl cfg. by rewrite H1, Ha.
Qed.

(** When it resolves to [false], it has emitted [reconnectionError], after
    calling the authenticator if there is one, and nothing else. *)
Lemma tryReAuthenticate_failure (now : Z) (check1 check2 : CheckToken)
    (s s' : SDK) :
  tryReAuthenticate now check1 check2 s = (s', Normal false) ->
  (exists pre msg,
     trace s' = trace s ++ pre ++ [Emitted "reconnectionError" (PError msg)]
     /\ (pre = [] \/ pre = [CallAuthenticator]))
  /\ offlineQueue s' = offlineQueue s /\ cfg s' = cfg s
  /\ protocol_ready s' = protocol_ready s
  /\ reconnectInProgress s' = false.
Proof.
  unfold tryReAuthenticate, tryReAuthenticate_body, authenticate.
  simpl cfg. rewrite !emit_reconnectionError.
  destruct (isAuthenticated check1) as [[]|err1]; simpl.
  - intros [= <-].
  - destruct (authenticator (cfg s)) as [| | |err]; simpl.
    + intros [= <-]. simpl. split_and!; try done.
      exists [], "Could not re-authenticate: 'authenticator' property is not set.".
      split; [done|by left].
    + rewrite !emit_reconnectionError. intros [= <-]. simpl. split_and!; try done.
      eexists [], _. split; [done|by left].
    + destruct (isAuthenticated check2) as [[]|err2]; simpl;
        rewrite ?emit_reconnectionError; intros [= <-]; simpl;
        split_and!; try done; eexists [CallAuthenticator], _;
        (split; [by rewrite <- app_assoc|by right]).
    + rewrite !emit_reconnectionError. intros [= <-]. simpl. split_and!; try done.
      eexists [CallAuthenticator], _. split; [by rewrite <- app_assoc|by right].
  - rewrite !emit_reconnectionError. intros [= <-]. simpl. split_and!; try done.
    eexists [], _. split; [done|by left].
Qed.

(** C4. [tryReAuthenticate] always resolves to a boolean, [false] when
    the token is invalid and no authenticator is set. When [_reconnect]
    runs for a logged-in user and the re-authentication fails, the SDK
    emits [reconnectionError] (after calling the authenticator if there is
    one), closes the protocol and does nothing else: nothing is sent,
    nothing leaves the queue, [reconnected] is not emitted; it ends logged
    out. *)
Theorem reconnect_reauthentication_failure (now : Z) (check1 check2 : CheckToken)
    (s : SDK) :
  (exists b, snd (tryReAuthenticate now check1 check2 s) = Normal b)
  /\ (isAuthenticated check1 = Normal false ->
      authenticator (cfg s) = NoAuthenticator ->
      snd (tryReAuthenticate now check1 check2 s) = Normal false)
  /\ (reconnectInProgress s = false -> loggedIn s = true ->
      snd (tryReAuthenticate now check1 check2 s) = Normal false ->
      let s' := fst (_reconnect now check1 check2 s) in
      (exists pre msg,
         trace s' = trace s ++ pre
                    ++ [Emitted "reconnectionError" (PError msg); ProtocolClose]
         /\ (pre = [] \/ pre = [CallAuthenticator]))
      /\ loggedIn s' = false
      /\ offlineQueue s' = offlineQueue s
      /\ sent (trace s') = sent (trace s)
      /\ emitted "offlineQueuePop" (trace s') = emitted "offlineQueuePop" (trace s)
      /\ emitted "reconnected" (trace s') = emitted "reconnected" (trace s)
      /\ snd (_reconnect now check1 check2 s) = Normal tt).
Proof.
  split; [apply tryReAuthenticate_resolves|].
  split; [apply tryReAuthenticate_no_authenticator|].
  intros Hr Hl Hfail s'. subst s'. unfold _reconnect. rewrite Hr.
  set (sq := if autoQueue (cfg s) then stopQueuing s else s).
  assert (Hsq : cfg sq = cfg s /\ trace sq = trace s
                /\ offlineQueue sq = offlineQueue s /\ loggedIn sq = true).
  { subst sq. destruct (autoQueue (cfg s)); done. }
  destruct Hsq as (Hc & Ht & Hq & Hl'). rewrite Hl'.
  rewrite <- (tryReAuthenticate_result now check1 check2 sq s Hc) in Hfail.
  destruct (tryReAuthenticate now check1 check2 sq) as [s1 r] eqn:Htry.
  simpl in Hfail. subst r.
  destruct (tryReAuthenticate_failure _ _ _ _ _ Htry)
    as ((pre & msg & Htr & Hpre) & Hq1 & _).
  simpl. rewrite Htr, Ht, Hq1, Hq.
  assert (Hshape : (trace s ++ pre ++ [Emitted "reconnectionError" (PError msg)])
                   ++ [ProtocolClose]
                   = trace s ++ pre
                     ++ [Emitted "reconnectionError" (PError msg); ProtocolClose]).
  { by rewrite <- !app_assoc. }
  rewrite Hshape. split_and!; try done.
  - eauto.
  - rewrite sent_app. destruct Hpre as [->| ->]; simpl; by rewrite app_nil_r.
  - unfold emitted. rewrite omap_app.
    destruct Hpre as [->| ->]; simpl; by rewrite app_nil_r.
  - unfold emitted. rewrite omap_app.
    destruct Hpre as [->| ->]; simpl; by rewrite app_nil_r.
Qed.

End ConnectionFacts.

Module ConnectionExamples.
Import Kuzzle Scenario ConnectionFacts.
#[local] Open Scope list_scope.

(** Two calls to [connect] before the protocol is ready: each listener is
    attached twice. *)
Lemma connect_twice_registers_twice :
  protocol_ready (connect (offline config)) = false
  /\ Forall (fun ev => listeners ev (trace (connect (connect (offline config)))) = 2%nat)
            transportEvents.
Proof. split; [reflexivity|]. repeat constructor. Qed.

Lemma connect_registers_once_per_call_witness :
  listeners "reconnect" (trace (Nat.iter 3 connect (offline config))) = 3%nat.
Proof.
  apply (proj2 (connect_registers_once_per_call (offline config)) eq_refl 3%nat
           "reconnect").
  unfold transportEvents. do 2 apply list_elem_of_further. apply list_elem_of_here.
Defined.

(** A logged-in user, an invalid token and no authenticator: the reconnect
    handler emits [reconnectionError], closes the protocol and leaves the
    queued request where it is. *)
Example reconnect_with_invalid_token :
  let s' := fst (_reconnect 9 (Checked false "-1") (Checked false "-1") reconnecting) in
  trace s' =
    [Emitted "reconnectionError"
       (PError "Could not re-authenticate: 'authenticator' property is not set.");
     ProtocolClose]
  /\ loggedIn s' = false /\ offlineQueue s' = [queued_a].
Proof. vm_compute. repeat split. Qed.

(** The same reconnection with a valid token replays the queue and emits
    [reconnected]. *)
Example reconnect_with_valid_token :
  let s' := fst (_reconnect 9 (Checked true "user") (Checked true "user") reconnecting) in
  sent (trace s') = [(request queued_a, promise queued_a)]
  /\ emitted "reconnected" (trace s') = [PVoid].
Proof. vm_compute. repeat split. Qed.

Lemma reconnect_reauthentication_failure_witness :
  loggedIn (fst (_reconnect 9 (Checked false "-1") (Checked false "-1") reconnecting))
  = false.
Proof.
  apply (proj2 (proj2 (reconnect_reauthentication_failure 9 (Checked false "-1")
                         (Checked false "-1") reconnecting))
           eq_refl eq_refl eq_refl).
Defined.

End ConnectionExamples.

(** ** Volatile data *)

Module VolatileFacts.
Import Kuzzle QueueFacts.
#[local] Open Scope list_scope.

Lemma copyOptions_lookup (options request : gmap string json) (k : string) :
  copyOptions options request !! k =
  if bool_decide (k ∈ ["queuable"; "timeout"]) then request !! k
  else match options !! k with
       | Some v => Some v
       | None => request !! k
       end.
Proof.
  unfold copyOptions.
  apply (map_fold_weak_ind
    (fun (r m : gmap string json) =>
       r !! k = if bool_decide (k ∈ ["queuable"; "timeout"]) then request !! k
                else match m !! k with
                     | Some v => Some v
                     | None => request !! k
                     end)).
  - rewrite lookup_empty. by case_bool_decide.
  - intros i x m r Hi IH.
    destruct (decide (i = k)) as [->|Hne].
    + rewrite lookup_insert_eq. case_bool_decide; [done|].
      by rewrite lookup_insert_eq.
    + rewrite (lookup_insert_ne m) by done.
      repeat case_bool_decide; rewrite ?lookup_insert_ne by done; done.
Qed.

Lemma defaultFrom_lookup (options request : gmap string json) (k k' : string) :
  k <> k' -> defaultFrom options k request !! k' = request !! k'.
Proof.
  intros Hne. unfold defaultFrom.
  destruct (request !! k), (options !! k); try done.
  by rewrite lookup_insert_ne.
Qed.

(** The [volatile] property that [query] examines. *)
Lemma normalise_volatile (req options : gmap string json) (uuid : string) :
  normalise req options uuid !! "volatile" = callerVolatile req options.
Proof.
  unfold normalise, callerVolatile.
  rewrite !defaultFrom_lookup by done. rewrite copyOptions_lookup.
  rewrite bool_decide_eq_false_2
    by (intros H; repeat (apply elem_of_cons in H as [H|H]; [done|]);
        by apply elem_of_nil in H).
  destruct (options !! "volatile"); [done|].
  destruct (Js.truthy_prop (req !! "requestId")); [done|].
  by rewrite lookup_insert_ne.
Qed.

(** *** Merging the SDK-wide volatile data *)

Lemma mergeItem_insert (inherits : string -> bool) (src dst : nat)
    (h : gmap nat (gmap string json)) (X : gmap string json) (item : string) :
  src <> dst ->
  mergeItem inherits src dst (<[dst := X]> h) item =
  <[dst := match X !! item with
           | Some _ => X
           | None =>
               if inherits item then X
               else match deref h src !! item with
                    | Some v => <[item := v]> X
                    | None => X
                    end
           end]> h.
Proof.
  intros Hne. unfold mergeItem, deref.
  rewrite lookup_insert_eq, lookup_insert_ne by done. simpl.
  destruct (X !! item); [done|]. destruct (inherits item); [done|].
  destruct (default ∅ (h !! src) !! item); [|done].
  by rewrite insert_insert_eq.
Qed.

Lemma mergeItems_insert (inherits : string -> bool) (src dst : nat)
    (h : gmap nat (gmap string json)) (ks : list string) (X : gmap string json) :
  src <> dst ->
  fold_left (mergeItem inherits src dst) ks (<[dst := X]> h) =
  <[dst := fold_left
             (fun X item =>
                match X !! item with
                | Some _ => X
                | None =>
                    if inherits item then X
                    else match deref h src !! item with
                         | Some v => <[item := v]> X
                         | None => X
                         end
                end) ks X]> h.
Proof.
  intros Hne. revert X. induction ks as [|item ks IH]; intros X; [done|].
  simpl. rewrite mergeItem_insert by done. apply IH.
Qed.

Lemma mergeItems_lookup (inherits : string -> bool) (D : gmap string json)
    (ks : list string) (X : gmap string json) (k : string) :
  (fold_left
     (fun X item =>
        match X !! item with
        | Some _ => X
        | None =>
            if inherits item then X
            else match D !! item with
                 | Some v => <[item := v]> X
                 | None => X
                 end
        end) ks X) !! k =
  match X !! k with
  | Some v => Some v
  | None => if bool_decide (k ∈ ks) && negb (inherits k) then D !! k else None
  end.
Proof.
  revert X. induction ks as [|item ks IH]; intros X.
  - simpl. by destruct (X !! k).
  - simpl. rewrite IH. clear IH.
    destruct (decide (k = item)) as [->|Hne].
    + rewrite (bool_decide_eq_true_2 (item ∈ item :: ks)) by apply list_elem_of_here.
      destruct (X !! item) eqn:HX; [by rewrite HX|].
      destruct (inherits item) eqn:Hi.
      * rewrite HX. by rewrite andb_false_r.
      * destruct (D !! item) eqn:HD.
        -- by rewrite lookup_insert_eq.
        -- rewrite HX. by destruct (bool_decide (item ∈ ks)).
    + assert (Hmem : bool_decide (k ∈ item :: ks) = bool_decide (k ∈ ks)).
      { apply bool_decide_ext. rewrite elem_of_cons. naive_solver. }
      rewrite Hmem.
      destruct (X !! item); [done|]. destruct (inherits item); [done|].
      destruct (D !! item); [|done].
      by rewrite lookup_insert_ne.
Qed.

Lemma mergeable_lookup (inherits : string -> bool) (D : gmap string json)
    (k : string) :
  mergeable inherits D !! k = if inherits k then None else D !! k.
Proof.
  unfold mergeable. destruct (inherits k) eqn:Hi.
  - apply map_lookup_filter_None. right. intros x _. simpl. by rewrite Hi.
  - destruct (D !! k) as [v|] eqn:HD.
    + apply map_lookup_filter_Some. by split.
    + apply map_lookup_filter_None. by left.
Qed.

(** Merged into an object of its own, the SDK-wide data fills the keys that
    the object neither has nor inherits, and leaves the others. *)
Lemma mergeVolatile_own (inherits : string -> bool) (src dst : nat)
    (h : gmap nat (gmap string json)) (X : gmap string json) :
  src <> dst ->
  mergeVolatile inherits src dst (<[dst := X]> h)
  = <[dst := X ∪ mergeable inherits (deref h src)]> h.
Proof.
  intros Hne. unfold mergeVolatile.
  assert (Hd : deref (<[dst := X]> h) src = deref h src).
  { unfold deref. by rewrite lookup_insert_ne. }
  rewrite Hd, mergeItems_insert by done. f_equal.
  apply map_eq. intros k.
  rewrite mergeItems_lookup, lookup_union, mergeable_lookup.
  destruct (X !! k) as [v|] eqn:HX.
  - destruct (inherits k); [done|]. by destruct (deref h src !! k).
  - destruct (inherits k); [by rewrite andb_false_r|]. rewrite andb_true_r.
    case_bool_decide as Hk.
    + by destruct (deref h src !! k).
    + destruct (deref h src !! k) as [v|] eqn:HD; [|done].
      exfalso. apply Hk. apply list_elem_of_fmap. exists (k, v).
      split; [done|]. by apply elem_of_map_to_list.
Qed.

(** Merged into itself, the SDK-wide object does not change. *)
Lemma mergeVolatile_alias (inherits : string -> bool) (l : nat)
    (h : gmap nat (gmap string json)) :
  mergeVolatile inherits l l h = h.
Proof.
  unfold mergeVolatile.
  assert (Hks : Forall (fun item => is_Some (deref h l !! item))
                       (map_to_list (deref h l)).*1).
  { apply Forall_forall. intros item Hitem.
    apply list_elem_of_fmap in Hitem as ([k v] & -> & Hkv).
    apply elem_of_map_to_list in Hkv. eauto. }
  induction Hks as [|item ks [v Hv] _ IH]; [done|].
  simpl. unfold mergeItem at 2. by rewrite Hv.
Qed.


Lemma setMarkers_spec (c : Config) (l : nat) (h : gmap nat (gmap string json)) :
  setMarker l "sdkName" (JStr (sdkName c))
    (setMarker l "sdkInstanceId" (JStr (protocol_id c)) h)
  = <[l := withMarkers c (deref h l)]> h.
Proof.
  unfold setMarker, withMarkers, deref.
  rewrite lookup_insert_eq. simpl. rewrite insert_insert_eq.
  by rewrite lookup_insert_ne.
Qed.

(** The volatile object of the dispatched request: the SDK-wide object
    itself when the caller supplied none, else a new object holding the
    caller's data completed by the SDK-wide data; in both cases with the
    two markers set. The SDK-wide object is not [null]. *)
Lemma prepareVolatile_spec (v : option json) (s s1 : SDK) (l : nat) :
  prepareVolatile v s = Normal (l, s1) ->
  is_Some (store s !! volatile (cfg s))
  /\ ((Js.truthy_prop v = false /\ l = volatile (cfg s)
       /\ s1 = set_store
                 (<[l := withMarkers (cfg s) (deref (store s) (volatile (cfg s)))]>
                    (store s)) s)
      \/ (exists o, v = Some (JObj o) /\ (l ∉ dom (store s)) /\ l <> volatile (cfg s)
          /\ s1 = set_store
                    (<[l := withMarkers (cfg s)
                              (o ∪ mergeable (inherited s)
                                     (deref (store s) (volatile (cfg s))))]>
                       (store s)) s)).
Proof.
  unfold prepareVolatile, resolveVolatile.
  destruct (Js.truthy_prop v) eqn:Ht; simpl.
  - destruct v as [[| | | | |o]|]; try done.
    destruct (store s !! volatile (cfg s)) as [D|] eqn:Hvol; [|done].
    intros [= <- <-]. split; [eauto|]. right. exists o.
    assert (Hfresh : fresh (dom (store s)) ∉ dom (store s)) by apply is_fresh.
    assert (Hne : volatile (cfg s) <> fresh (dom (store s))).
    { intros Heq. apply Hfresh. rewrite <- Heq. apply elem_of_dom. eauto. }
    split_and!; [done|done|done|].
    rewrite mergeVolatile_own by done. rewrite setMarkers_spec.
    f_equal. unfold deref at 1. rewrite lookup_insert_eq. simpl.
    by rewrite insert_insert_eq.
  - destruct (store s !! volatile (cfg s)) as [D|] eqn:Hvol; [|done].
    intros [= <- <-]. split; [eauto|]. left. split_and!; [done|done|].
    by rewrite mergeVolatile_alias, setMarkers_spec.
Qed.

Lemma withMarkers_lookup (c : Config) (M : gmap string json) (k : string) :
  withMarkers c M !! k =
  if decide (k = "sdkName") then
    Some (Js.or_else (M !! "sdkName") (JStr (sdkName c)))
  else if decide (k = "sdkInstanceId") then
    Some (Js.or_else (M !! "sdkInstanceId") (JStr (protocol_id c)))
  else M !! k.
Proof.
  unfold withMarkers. repeat case_decide; subst.
  - by rewrite lookup_insert_eq.
  - by rewrite lookup_insert_ne, lookup_insert_eq.
  - by rewrite !lookup_insert_ne.
Qed.

Lemma withMarkers_other (c : Config) (M : gmap string json) (k : string) :
  k ∉ markerKeys -> withMarkers c M !! k = M !! k.
Proof.
  intros Hk. rewrite withMarkers_lookup. unfold markerKeys in Hk.
  repeat case_decide; subst; try done; exfalso; apply Hk;
    rewrite !elem_of_cons; auto.
Qed.

Lemma or_else_truthy (v y : json) :
  Js.truthy v = true -> Js.or_else (Some v) y = v.
Proof. intros H. simpl. by rewrite H. Qed.



Lemma dispatch_store (queuable : bool) (t : Z) (r : Request) (now : Z) (s : SDK) :
  store (dispatch queuable t r now s) = store s.
Proof.
  unfold dispatch. simpl queuing.
  destruct (queuing s); [destruct queuable|].
  - by rewrite cleanQueue_spec, emit_push.
  - by rewrite emit_discarded.
  - unfold _timeoutRequest. by destruct (Z.eqb t (-1)).
Qed.

(** The volatile object of a dispatched request. *)
Lemma query_volatile (req options : gmap string json) (uuid : string)
    (now : Z) (s s' : SDK) (r : Request) :
  query (JObj req) (JObj options) uuid now s = Normal (s', r) ->
  cfg s' = cfg s
  /\ is_Some (store s !! volatile (cfg s))
  /\ exists l,
       volatile_ref r = Some l
       /\ store s' =
          <[l := withMarkers (cfg s)
                   (if Js.truthy_prop (callerVolatile req options)
                    then callerObject req options
                         ∪ mergeable (inherited s)
                             (deref (store s) (volatile (cfg s)))
                    else deref (store s) (volatile (cfg s)))]>
            (store s)
       /\ (if Js.truthy_prop (callerVolatile req options)
           then l <> volatile (cfg s)
           else l = volatile (cfg s)).
Proof.
  intros H. unfold query in H. simpl in H.
  rewrite normalise_volatile in H.
  destruct (prepareVolatile _ s) as [[l s1]|] eqn:Hv; [|done].
  injection H as <- <-.
  destruct (dispatch_frame
              (match queueFilter (cfg s) with
               | Some filter =>
                   match options !! "queuable" with
                   | Some (JBool false) => false
                   | _ => true
                   end
                   && filter (if Js.truthy_prop (req !! "requestId") then req
                              else <["requestId" := JStr uuid]> req)
               | None =>
                   match options !! "queuable" with
                   | Some (JBool false) => false
                   | _ => true
                   end
               end)
              (match options !! "timeout" with
               | Some (JNum t) => t
               | _ => requestTimeout (cfg s)
               end)
              {| fields := authenticateRequest (cfg s)
                             (delete "volatile" (normalise req options uuid));
                 volatile_ref := Some l |} now s1) as (Hc & _).
  rewrite Hc, dispatch_store.
  destruct (prepareVolatile_spec _ _ _ _ Hv)
    as (Hvol & [(Ht & -> & ->)|(o & Ho & Hfresh & Hne & ->)]).
  - split; [done|]. split; [done|]. exists (volatile (cfg s)). simpl.
    rewrite Ht. done.
  - split; [done|]. split; [done|]. exists l. simpl.
    unfold callerObject. rewrite Ho. simpl. done.
Qed.

Lemma callerObject_falsy (req options : gmap string json) :
  Js.truthy_prop (callerVolatile req options) = false ->
  callerObject req options = ∅.
Proof.
  intros H. unfold callerObject.
  destruct (callerVolatile req options) as [[| | | | |o]|]; done.
Qed.

(** The caller's data completed by the SDK-wide data, key by key. *)
Lemma merged_lookup (inherits : string -> bool) (req options D : gmap string json)
    (k : string) :
  let M := if Js.truthy_prop (callerVolatile req options)
           then callerObject req options ∪ mergeable inherits D
           else D in
  (forall v, callerObject req options !! k = Some v -> M !! k = Some v)
  /\ (inherits k = false -> M !! k = (callerObject req options ∪ D) !! k).
Proof.
  intros M. subst M.
  destruct (Js.truthy_prop (callerVolatile req options)) eqn:Ht.
  - split.
    + intros v Hv. apply lookup_union_Some_raw. by left.
    + intros Hi. rewrite !lookup_union, mergeable_lookup, Hi. done.
  - rewrite (callerObject_falsy _ _ Ht). split.
    + intros v Hv. by rewrite lookup_empty in Hv.
    + intros _. by rewrite (left_id_L ∅ (∪)).
Qed.

(** C6. In the volatile object of a dispatched request, every key that the
    caller supplied keeps the caller's value, except a [sdkInstanceId] or
    [sdkName] whose value is falsy; the keys that the caller did not
    supply, and that an object does not inherit, have the SDK-wide values;
    and [sdkInstanceId] and [sdkName] are set: to the caller's value or
    else the SDK-wide one if truthy, else to the protocol id and the SDK
    name. (For options without a [__proto__] property.) *)
Theorem volatile_merge (req options : gmap string json) (uuid : string)
    (now : Z) (s s' : SDK) (r : Request) :
  options !! "__proto__" = None ->
  query (JObj req) (JObj options) uuid now s = Normal (s', r) ->
  exists l,
    volatile_ref r = Some l /\
    let V := deref (store s') l in
    let o := callerObject req options in
    let D := deref (store s) (volatile (cfg s)) in
    (forall k v, o !! k = Some v -> k ∉ markerKeys \/ Js.truthy v = true ->
                 V !! k = Some v)
    /\ (forall k, o !! k = None -> k ∉ markerKeys -> inherited s k = false ->
                  V !! k = D !! k)
    /\ V !! "sdkInstanceId"
       = Some (Js.or_else ((o ∪ D) !! "sdkInstanceId") (JStr (protocol_id (cfg s))))
    /\ V !! "sdkName"
       = Some (Js.or_else ((o ∪ D) !! "sdkName") (JStr (sdkName (cfg s)))).
Proof.
  intros _ H.
  destruct (query_volatile _ _ _ _ _ _ _ H) as (_ & _ & l & Hl & Hs & _).
  exists l. split; [done|].
  set (M := if Js.truthy_prop (callerVolatile req options)
            then callerObject req options
                 ∪ mergeable (inherited s) (deref (store s) (volatile (cfg s)))
            else deref (store s) (volatile (cfg s))) in *.
  assert (HV : deref (store s') l = withMarkers (cfg s) M).
  { unfold deref at 1. by rewrite Hs, lookup_insert_eq. }
  assert (HM := merged_lookup (inherited s) req options
                  (deref (store s) (volatile (cfg s)))).
  fold M in HM. simpl in HM.
  simpl. rewrite HV. split_and!.
  - intros k v Hk Hcase. rewrite withMarkers_lookup.
    assert (Hu : M !! k = Some v) by (by apply HM).
    repeat case_decide; subst; [| |done].
    + destruct Hcase as [Hm|Ht].
      * exfalso. apply Hm. unfold markerKeys. rewrite !elem_of_cons. auto.
      * by rewrite Hu, or_else_truthy.
    + destruct Hcase as [Hm|Ht].
      * exfalso. apply Hm. unfold markerKeys. rewrite !elem_of_cons. auto.
      * by rewrite Hu, or_else_truthy.
  - intros k Hk Hm Hi. rewrite withMarkers_other by done.
    rewrite (proj2 (HM k)) by done. by rewrite lookup_union_r.
  - rewrite withMarkers_lookup. simpl.
    by rewrite (proj2 (HM "sdkInstanceId")) by done.
  - rewrite withMarkers_lookup. simpl.
    by rewrite (proj2 (HM "sdkName")) by done.
Qed.


End VolatileFacts.

Module VolatileExamples.
Import Kuzzle Scenario VolatileFacts.
#[local] Open Scope list_scope.

(** The caller sets [sdkName] to the empty string: the request is
    dispatched with the name of the SDK instead. *)
Lemma falsy_sdkName_overwritten :
  callerObject anonymousRequest ∅ !! "sdkName" = Some (JStr "")
  /\ match query (JObj anonymousRequest) (JObj ∅) "uuid" 0 (online config) with
     | Normal (s', r) =>
         exists l, volatile_ref r = Some l
                   /\ deref (store s') l !! "sdkName" = Some (JStr "js@7")
     | Throw _ => False
     end.
Proof.
  split; [vm_compute; reflexivity|].
  vm_compute. eexists. split; reflexivity.
Qed.

Lemma volatile_merge_witness :
  match query (JObj anonymousRequest) (JObj ∅) "uuid" 0 (online config) with
  | Normal (s', r) =>
      exists l, volatile_ref r = Some l
                /\ deref (store s') l !! "sdkInstanceId" = Some (JStr "protocol-1")
  | Throw _ => False
  end.
Proof.
  destruct (query (JObj anonymousRequest) (JObj ∅) "uuid" 0 (online config))
    as [[s' r]|msg] eqn:H.
  - destruct (volatile_merge anonymousRequest ∅ "uuid" 0 (online config) s' r)
      as (l & Hl & _ & _ & Hid & _); [reflexivity|exact H|].
    exists l. split; [exact Hl|]. rewrite Hid. vm_compute. reflexivity.
  - vm_compute in H. discriminate.
Defined.

(** A request without volatile data: the SDK-wide object, empty before
    the call, holds the two markers after it. *)
Example defaults_mutated :
  deref (store (online config)) (volatile config) = ∅
  /\ match query (JObj (getRequest "r0")) (JObj ∅) "uuid" 0 (online config) with
     | Normal (s', r) =>
         volatile_ref r = Some (volatile config)
         /\ deref (store s') (volatile config)
            = <["sdkInstanceId" := JStr "protocol-1"]> {["sdkName" := JStr "js@7"]}
     | Throw _ => False
     end.
Proof. split; [reflexivity|]. vm_compute. split; reflexivity. Qed.


(** A default named like a property that every object inherits is not
    merged into the volatile data of the caller; the others are. *)
Example inherited_default_not_merged :
  let s := set_store {[0%nat := <["constructor" := JStr "x"]> {["team" := JStr "a"]}]}
             (online config) in
  match query (JObj (<["volatile" := JObj ∅]> (getRequest "r0"))) (JObj ∅)
          "uuid" 0 s with
  | Normal (s', r) =>
      exists l, volatile_ref r = Some l
                /\ deref (store s') l !! "team" = Some (JStr "a")
                /\ deref (store s') l !! "constructor" = None
  | Throw _ => False
  end.
Proof. vm_compute. eexists. split_and!; reflexivity. Qed.

(** With [volatile: null] for the SDK, every request is refused. *)
Example null_volatile_throws :
  query (JObj (getRequest "r0")) (JObj ∅) "uuid" 0 (set_store ∅ (online config))
  = Throw "TypeError: Cannot convert undefined or null to object".
Proof. vm_compute. reflexivity. Qed.

End VolatileExamples.

(** ** The realtime observer *)

Module ObserverFacts.
Import Observer.
#[local] Open Scope list_scope.

(** C9. A [write] notification for a document that the observer does not
    track is not ignored: the handler throws, reading [_source] of
    [undefined]. *)
Theorem write_untracked_throws (n : Notification) (subscribed : completion string)
    (o : State) :
  event n = "write" ->
  documents o !! documentUrn (index n) (collection n) (result_id n) = None ->
  notificationHandler n subscribed o
  = (o, Throw "TypeError: Cannot read properties of undefined (reading '_source')").
Proof.
  intros He Hd. unfold notificationHandler, tracked. by rewrite He, Hd.
Qed.

Lemma set_delete_last (id : string) : set_delete id [id] = [].
Proof. unfold set_delete. by rewrite filter_cons_False by (by intros H). Qed.

(** C2. A [delete] notification for the only document tracked in its
    collection marks the document deleted and forgets it and its bucket,
    and no call is made to the realtime controller: the room of the bucket
    is not unsubscribed. *)
Theorem last_delete_leaves_subscription (n : Notification)
    (subscribed : completion string) (o : State) (l : nat)
    (d : RealtimeDocument) (room : string) :
  event n = "delete" ->
  tracked o (documentUrn (index n) (collection n) (result_id n)) = Some (l, d) ->
  _id d = result_id n ->
  documentsByCollection o !! collectionUrn (index n) (collection n)
  = Some {| ids := [result_id n]; roomId := Some room |} ->
  let o' := fst (notificationHandler n subscribed o) in
  snd (notificationHandler n subscribed o) = Normal tt
  /\ heap o' !! l = Some {| _id := _id d; _source := _source d; deleted := true |}
  /\ documents o' !! documentUrn (index n) (collection n) (result_id n) = None
  /\ documentsByCollection o' !! collectionUrn (index n) (collection n) = None
  /\ calls o' = calls o.
Proof.
  intros He Ht Hid Hb. unfold notificationHandler. rewrite He, Ht. simpl.
  rewrite Hb. simpl. rewrite set_delete_last. simpl.
  unfold resubscribe. simpl. rewrite lookup_delete_eq. simpl.
  split_and!; try done.
  - by rewrite lookup_insert_eq.
  - rewrite Hid. by rewrite lookup_delete_eq.
  - by rewrite lookup_delete_eq.
Qed.

(** While other documents of the collection remain tracked, the bucket is
    resubscribed and its previous room unsubscribed. *)
Lemma delete_resubscribes (n : Notification) (newRoom : string) (o : State)
    (l : nat) (d : RealtimeDocument) (bucket : ObservedDocuments)
    (room other : string) (rest : list string) :
  event n = "delete" ->
  tracked o (documentUrn (index n) (collection n) (result_id n)) = Some (l, d) ->
  documentsByCollection o !! collectionUrn (index n) (collection n) = Some bucket ->
  set_delete (result_id n) (ids bucket) = other :: rest ->
  truthyRoom (roomId bucket) = Some room ->
  calls (fst (notificationHandler n (Normal newRoom) o))
  = calls o ++ [Subscribe (index n) (collection n) (other :: rest);
                Unsubscribe (Some room)].
Proof.
  intros He Ht Hb Hrest Hroom. unfold notificationHandler. rewrite He, Ht. simpl.
  rewrite Hb. simpl. rewrite Hrest. simpl.
  unfold resubscribe. simpl. rewrite lookup_insert_eq. simpl. rewrite Hroom.
  simpl. by rewrite <- app_assoc.
Qed.

End ObserverFacts.

Module ObserverExamples.
Import Observer ObserverScenario ObserverFacts.
#[local] Open Scope list_scope.

Example observing_one_room :
  documentsByCollection observing !! "i:c"
  = Some {| ids := ["d"]; roomId := Some "room-1" |}
  /\ calls observing = [Subscribe "i" "c" ["d"]].
Proof. vm_compute. split; reflexivity. Qed.

(** The document is observed, then deleted on the server: the observer
    forgets the bucket without unsubscribing from ["room-1"]. *)
Example delete_last_no_unsubscribe :
  let o' := fst (notificationHandler (deleteOf "d") (Normal "room-2") observing) in
  calls o' = [Subscribe "i" "c" ["d"]]
  /\ documentsByCollection o' = ∅ /\ documents o' = ∅.
Proof. vm_compute. repeat split. Qed.

(** Stopping the observation of the collection does unsubscribe. *)
Example disposeCollection_unsubscribes :
  calls (fst (disposeCollection "i" "c" observing))
  = [Subscribe "i" "c" ["d"]; Unsubscribe (Some "room-1")].
Proof. vm_compute. reflexivity. Qed.

(** With two documents observed, the deletion of one resubscribes the
    bucket to the other and unsubscribes the previous room. *)
Example delete_one_of_two :
  calls (fst (notificationHandler (deleteOf "d") (Normal "room-3") observingTwo))
  = [Subscribe "i" "c" ["d"]; Subscribe "i" "c" ["d"; "e"];
     Unsubscribe (Some "room-1"); Subscribe "i" "c" ["e"];
     Unsubscribe (Some "room-2")].
Proof. vm_compute. reflexivity. Qed.

Lemma last_delete_leaves_subscription_witness :
  calls (fst (notificationHandler (deleteOf "d") (Normal "room-2") observing))
  = calls observing.
Proof.
  apply (last_delete_leaves_subscription (deleteOf "d") (Normal "room-2") observing
           0%nat {| _id := "d"; _source := {["name" := JStr "x"]}; deleted := false |}
           "room-1");
    vm_compute; reflexivity.
Defined.

Lemma write_untracked_throws_witness :
  notificationHandler (writeOf "unknown") (Normal "room-2") observing
  = (observing,
     Throw "TypeError: Cannot read properties of undefined (reading '_source')").
Proof.
  apply (write_untracked_throws (writeOf "unknown") (Normal "room-2") observing);
    vm_compute; reflexivity.
Defined.

(** A [write] for the tracked document updates it in place. *)
Example write_tracked :
  heap (fst (notificationHandler (writeOf "d") (Normal "room-2") observing)) !! 0%nat
  = Some {| _id := "d"; _source := {["name" := JStr "y"]}; deleted := false |}.
Proof. vm_compute. reflexivity. Qed.

End ObserverExamples.
(** ** Search cursors *)

Module SearchResultFacts.
Import SearchResult.
#[local] Open Scope Z_scope.

(** The offset that the specification words, [from + size], is not the one
    of the tests: the request would carry [from = 4]. *)
Lemma next_spec_fails_repository_test :
  exists r, next_spec (test_cursor 2) = Resubmit r
            /\ from r = Some 4 /\ r <> test_expected_request.
Proof. eexists. split; [reflexivity|]. split; [reflexivity|]. discriminate. Qed.





End SearchResultFacts.

(** * Further properties

    ** Events: the throttle of [emit] *)

Module EmitFacts.
Import Kuzzle Session.
#[local] Open Scope list_scope.

Lemma emit_throttled (now : Z) (ev : string) (p : payload) (s : SDK) :
  throttled now ev s = true -> emit now ev p s = s.
Proof.
  unfold throttled, emit. intros H.
  apply andb_prop in H as [H1 H2]. rewrite H1.
  destruct (lastEmittedOf ev s) as [last|]; [|discriminate].
  rewrite H2. reflexivity.
Qed.

Lemma emit_delivered (now : Z) (ev : string) (p : payload) (s : SDK) :
  throttled now ev s = false ->
  emit now ev p s =
  log_all [Emitted ev p]
    (if protectedEvent ev
     then set_lastEmitted (<[ev := now]> (lastEmitted s)) s else s).
Proof.
  unfold throttled, emit. intros H.
  destruct (protectedEvent ev); simpl in H; [|reflexivity].
  destruct (lastEmittedOf ev s) as [last|]; [|reflexivity].
  rewrite H. reflexivity.
Qed.




End EmitFacts.

Module EmitExamples.
Import Kuzzle Session Scenario.
#[local] Open Scope list_scope.


(** After the window, the event is delivered again. *)
Example disconnected_after_window :
  emitted "disconnected"
    (trace (emit 1200 "disconnected" PVoid
              (emit 1100 "disconnected" PVoid
                 (emit 1000 "disconnected" PVoid (online config)))))
  = [PVoid; PVoid].
Proof. vm_compute. reflexivity. Qed.

(** A name that the table of protected events inherits is throttled like
    the six of the table. *)
Example inherited_name_throttled :
  emitted "toString"
    (trace (emit 1100 "toString" PVoid (emit 1000 "toString" PVoid (online config))))
  = [PVoid].
Proof. vm_compute. reflexivity. Qed.

End EmitExamples.

(** ** The offline queue: eviction *)

Module EvictionFacts.
Import Kuzzle Session.
#[local] Open Scope list_scope.

Lemma lastExpired_none (now ttl : Z) (q : list QueueEntry) (i last : Z) :
  Forall (fun e => ~ ts e < now - ttl) q -> lastExpired now ttl q i last = last.
Proof.
  intros H. revert i last. induction H as [|e q He _ IH]; intros i last; [done|].
  simpl. rewrite IH.
  destruct (Z.ltb_spec (ts e) (now - ttl)); [contradiction|done].
Qed.

Lemma expiredCount_none (now ttl : Z) (q : list QueueEntry) :
  (0 < ttl -> Forall (fun e => ~ ts e < now - ttl) q) ->
  expiredCount now ttl q = 0%nat.
Proof.
  intros H. unfold expiredCount.
  destruct (Z.ltb_spec 0 ttl) as [Httl|]; [|done].
  rewrite lastExpired_none by auto. done.
Qed.

Lemma excessCount_none (maxSize : Z) (q : list QueueEntry) :
  (0 < maxSize -> Z.of_nat (length q) <= maxSize) ->
  excessCount maxSize q = 0%nat.
Proof.
  intros H. unfold excessCount.
  destruct (Z.ltb_spec 0 maxSize) as [Hm|]; [|done].
  destruct (Z.ltb_spec maxSize (Z.of_nat (length q))); [|done].
  specialize (H Hm). lia.
Qed.

Lemma evicted_none (now : Z) (c : Config) (q : list QueueEntry) :
  (0 < queueTTL c -> Forall (fun e => ~ ts e < now - queueTTL c) q) ->
  (0 < queueMaxSize c -> Z.of_nat (length q) <= queueMaxSize c) ->
  evicted now c q = 0%nat /\ evictionEffects now c q = [].
Proof.
  intros Ht Hm. unfold evicted, evictionEffects.
  rewrite expiredCount_none by done. rewrite drop_0.
  rewrite excessCount_none by done. done.
Qed.

(** X2. Cleaning the queue twice at the same time is cleaning it once: what
    [_cleanQueue] leaves holds no expired entry and no entry in excess, so
    a second run removes nothing, rejects nothing and emits nothing. *)
Theorem cleanQueue_idempotent (now : Z) (s : SDK) :
  _cleanQueue now (_cleanQueue now s) = _cleanQueue now s.
Proof.
  destruct (QueueFacts.cleanQueue_policy now s) as (Hq & Httl & Hmax & _).
  set (s1 := _cleanQueue now s) in *.
  assert (Hcfg : cfg s1 = cfg s).
  { unfold s1. rewrite QueueFacts.cleanQueue_spec. reflexivity. }
  rewrite (QueueFacts.cleanQueue_spec now s1).
  destruct (evicted_none now (cfg s1) (offlineQueue s1)) as [-> ->].
  - rewrite Hcfg. intros H. apply Forall_forall. intros e He.
    by apply Httl.
  - rewrite Hcfg. done.
  - rewrite drop_0, QueueFacts.set_offlineQueue_id, QueueFacts.log_all_nil. done.
Qed.

(** The index found by the scan of [_cleanQueue] is the one it started
    from, or that of an expired entry. *)
Lemma lastExpired_hit (now ttl : Z) (q : list QueueEntry) (i last : Z) :
  0 <= i ->
  lastExpired now ttl q i last = last
  \/ exists e, q !! Z.to_nat (lastExpired now ttl q i last - i) = Some e
               /\ ts e < now - ttl
               /\ i <= lastExpired now ttl q i last.
Proof.
  revert i last. induction q as [|e q IH]; intros i last Hi; [by left|].
  simpl.
  destruct (IH (i + 1)
              (if Z.ltb (ts e) (now - ttl) then i else last)) as [Heq|He];
    [lia| |].
  - rewrite Heq. destruct (Z.ltb_spec (ts e) (now - ttl)); [|by left].
    right. exists e. replace (i - i) with 0 by lia. simpl. split; [done|]. lia.
  - right. destruct He as (e' & Hl & Hexp & Hle).
    exists e'. split; [|split; [done|lia]].
    replace (Z.to_nat (lastExpired now ttl q (i + 1)
                         (if Z.ltb (ts e) (now - ttl) then i else last) - i))
      with (S (Z.to_nat (lastExpired now ttl q (i + 1)
                           (if Z.ltb (ts e) (now - ttl) then i else last) - (i + 1))))
      by lia.
    done.
Qed.

Lemma byTimestamp_lookup (q : list QueueEntry) (i j : nat) (a b : QueueEntry) :
  byTimestamp q -> q !! i = Some a -> q !! j = Some b -> (i <= j)%nat ->
  ts a <= ts b.
Proof.
  intros Hs. revert i j. induction Hs as [|x q Hs IH Hx]; intros i j Ha Hb Hij.
  - done.
  - destruct i as [|i], j as [|j]; simpl in *.
    + simplify_eq. lia.
    + simplify_eq. rewrite Forall_forall in Hx.
      apply Hx. eapply list_elem_of_lookup_2. done.
    + lia.
    + eapply IH; eauto. lia.
Qed.

Lemma expired_prefix (now ttl : Z) (q : list QueueEntry) :
  byTimestamp q ->
  Forall (fun e => ts e < now - ttl) (take (expiredCount now ttl q) q).
Proof.
  intros Hs. unfold expiredCount.
  destruct (Z.ltb_spec 0 ttl); [|by rewrite take_0].
  destruct (lastExpired_hit now ttl q 0 (-1)) as [->|(e & Hl & He & Hle)]; [lia| |].
  { simpl. by rewrite take_0. }
  apply Forall_forall. intros a Ha.
  apply list_elem_of_lookup_1 in Ha as [j Hj].
  apply lookup_take_Some in Hj as [Hj Hlt].
  pose proof (byTimestamp_lookup q j _ a e Hs Hj Hl) as Hts.
  rewrite Z.sub_0_r in *. lia.
Qed.

Lemma byTimestamp_snoc (q : list QueueEntry) (e : QueueEntry) :
  byTimestamp q -> Forall (fun a => ts a <= ts e) q -> byTimestamp (q ++ [e]).
Proof.
  intros Hs Hle. induction Hs as [|x q Hs IH Hx]; simpl.
  - repeat constructor.
  - apply Forall_cons in Hle as [Hxe Hle].
    constructor; [by apply IH|].
    apply Forall_app. split; [done|]. by constructor.
Qed.

Lemma byTimestamp_drop (q : list QueueEntry) (n : nat) :
  byTimestamp q -> byTimestamp (drop n q).
Proof.
  intros Hs. eapply QueueFacts.StronglySorted_sublist; [|done].
  apply sublist_drop.
Qed.

(** [query] keeps the queue in the order of its timestamps when the clock
    does not go back. *)
Lemma issue_byTimestamp (s : SDK) (c : Call) :
  byTimestamp (offlineQueue s) ->
  Forall (fun a => ts a <= call_now c) (offlineQueue s) ->
  byTimestamp (offlineQueue (issue s c))
  /\ Forall (fun a => ts a <= call_now c) (offlineQueue (issue s c))
  /\ cfg (issue s c) = cfg s.
Proof.
  intros Hs Hle. unfold issue.
  destruct (query (call_req c) (call_opts c) (call_uuid c) (call_now c) s)
    as [[s' r]|] eqn:Hq; [|done].
  apply QueueFacts.query_frame in Hq as (Hcfg & _ & _ & _ & [->|(n & t & ->)]);
    [done|].
  assert (Hd : Forall (fun a => ts a <= call_now c) (drop n (offlineQueue s)))
    by (by apply Forall_drop).
  split; [|split; [|done]].
  - apply byTimestamp_snoc; [by apply byTimestamp_drop|done].
  - apply Forall_app. split; [done|]. constructor; [simpl; lia|done].
Qed.

Lemma issueAll_byTimestamp (calls : list Call) (s : SDK) :
  clockwise calls ->
  byTimestamp (offlineQueue s) ->
  Forall (fun a => Forall (fun c => ts a <= call_now c) calls) (offlineQueue s) ->
  byTimestamp (offlineQueue (issueAll calls s)) /\ cfg (issueAll calls s) = cfg s.
Proof.
  intros Hc. revert s. induction Hc as [|c calls Hc IH Hcc]; intros s Hs Hle.
  - done.
  - unfold issueAll in *. simpl.
    destruct (issue_byTimestamp s c Hs) as (Hs1 & Hle1 & Hcfg).
    { eapply Forall_impl; [exact Hle|]. intros a Ha. by apply Forall_cons in Ha as [? _]. }
    destruct (IH (issue s c) Hs1) as [H1 H2].
    + apply Forall_forall. intros a Ha. apply Forall_forall. intros c' Hc'.
      rewrite Forall_forall in Hle1. rewrite Forall_forall in Hcc.
      specialize (Hle1 a Ha). specialize (Hcc c' Hc'). simpl in *. lia.
    + split; [done|congruence].
Qed.

(** X3. Under a clock that does not go back, the TTL rule of [_cleanQueue]
    rejects expired requests only: of a queue filled by [query], the
    entries it removes are exactly those older than [queueTTL], and they
    are the oldest ones. *)
Theorem ttl_rejects_only_expired (calls : list Call) (s0 : SDK) (now : Z) :
  offlineQueue s0 = [] -> clockwise calls -> 0 < queueTTL (cfg s0) ->
  let s := issueAll calls s0 in
  let n := expiredCount now (queueTTL (cfg s0)) (offlineQueue s) in
  Forall (fun e => ts e < now - queueTTL (cfg s0)) (take n (offlineQueue s))
  /\ Forall (fun e => ~ ts e < now - queueTTL (cfg s0)) (drop n (offlineQueue s))
  /\ trace (_cleanQueue now s)
     = trace s ++ dropEffects TTL_MESSAGE (take n (offlineQueue s))
       ++ dropEffects MAXSIZE_MESSAGE
            (take (excessCount (queueMaxSize (cfg s0)) (drop n (offlineQueue s)))
                  (drop n (offlineQueue s))).
Proof.
  intros H0 Hc Httl s n.
  destruct (issueAll_byTimestamp calls s0 Hc) as [Hs Hcfg].
  { rewrite H0. constructor. }
  { rewrite H0. constructor. }
  fold s in Hs, Hcfg.
  split; [by apply expired_prefix|].
  split.
  { apply Forall_forall. intros e He.
    by apply (QueueFacts.expired_all_dropped now _ (offlineQueue s)). }
  rewrite QueueFacts.cleanQueue_spec, Hcfg. done.
Qed.

End EvictionFacts.

Module EvictionExamples.
Import Kuzzle Session Scenario.
#[local] Open Scope list_scope.

Lemma ttl_rejects_only_expired_witness :
  Forall (fun e => ts e < 130000 - 120000)
    (take (expiredCount 130000 120000
             (offlineQueue (issueAll [get "r0" 0; get "r1" 20000] (offline config))))
          (offlineQueue (issueAll [get "r0" 0; get "r1" 20000] (offline config)))).
Proof.
  apply (EvictionFacts.ttl_rejects_only_expired
           [get "r0" 0; get "r1" 20000] (offline config) 130000).
  - reflexivity.
  - repeat constructor; simpl; lia.
  - simpl. lia.
Defined.

(** Of two requests queued at times 0 and 20000, the first only has
    expired at time 130000. *)
Example one_of_two_expired :
  let s := _cleanQueue 130000
             (issueAll [get "r0" 0; get "r1" 20000] (offline config)) in
  map ts (offlineQueue s) = [20000]
  /\ emitted "offlineQueuePop" (trace s)
     = [PRequest (Some {| fields := getRequest "r0"; volatile_ref := Some 0%nat |})].
Proof. vm_compute. done. Qed.

End EvictionExamples.

(** ** [query]: what is sent, what is discarded, what is refused *)

Module DispatchFacts.
Import Kuzzle Session.
#[local] Open Scope list_scope.

(** The parts of a successful [query]. *)
Lemma query_parts (req options : gmap string json) (uuid : string) (now : Z)
    (s s' : SDK) (r : Request) :
  query (JObj req) (JObj options) uuid now s = Normal (s', r) ->
  exists l s1 queuable,
    prepareVolatile (normalise req options uuid !! "volatile") s = Normal (l, s1)
    /\ r = {| fields := authenticateRequest (cfg s)
                          (delete "volatile" (normalise req options uuid));
              volatile_ref := Some l |}
    /\ queuable =
       (match options !! "queuable" with
        | Some (JBool false) => false
        | _ => true
        end
        && match queueFilter (cfg s) with
           | Some filter =>
               filter (if Js.truthy_prop (req !! "requestId") then req
                       else <["requestId" := JStr uuid]> req)
           | None => true
           end)
    /\ s' = dispatch queuable
              (match options !! "timeout" with
               | Some (JNum t) => t
               | _ => requestTimeout (cfg s)
               end) r now s1.
Proof.
  unfold query. simpl. intros H.
  destruct (prepareVolatile (normalise req options uuid !! "volatile") s)
    as [[l s1]|] eqn:Hp; [|discriminate].
  injection H as <- <-.
  exists l, s1. eexists. split; [done|]. split; [done|]. split; [reflexivity|].
  f_equal. destruct (queueFilter (cfg s)); [done|]. by rewrite andb_true_r.
Qed.

Lemma prepareVolatile_fields (v : option json) (s s1 : SDK) (l : nat) :
  prepareVolatile v s = Normal (l, s1) ->
  trace s1 = trace s /\ offlineQueue s1 = offlineQueue s
  /\ queuing s1 = queuing s /\ next_promise s1 = next_promise s
  /\ cfg s1 = cfg s.
Proof.
  intros H. apply QueueFacts.prepareVolatile_frame in H as [h ->]. done.
Qed.

(** X4. While the SDK is not queuing, [query] hands the request to the
    transport at once, whether the transport reports ready or not: the one
    effect is the protocol query (behind a timer when the timeout, the
    [timeout] option if it is a number and [requestTimeout] otherwise, is
    not [-1]); the offline queue is left alone and nothing is emitted. *)
Theorem query_sends_when_not_queuing (req options : gmap string json)
    (uuid : string) (now : Z) (s s' : SDK) (r : Request) :
  queuing s = false ->
  query (JObj req) (JObj options) uuid now s = Normal (s', r) ->
  let t := match options !! "timeout" with
           | Some (JNum t) => t
           | _ => requestTimeout (cfg s)
           end in
  trace s' = trace s
             ++ (if Z.eqb t (-1) then [] else [StartTimeout t (next_promise s)])
             ++ [ProtocolQuery (Some r) (next_promise s)]
  /\ offlineQueue s' = offlineQueue s
  /\ queuing s' = false.
Proof.
  intros Hq H t.
  apply query_parts in H as (l & s1 & queuable & Hp & _ & _ & ->).
  apply prepareVolatile_fields in Hp as (Htr & Hoq & Hqu & Hnp & _).
  fold t. unfold dispatch. simpl. rewrite Hqu, Hq.
  unfold _timeoutRequest. destruct (Z.eqb t (-1)); simpl;
    rewrite ?Htr, ?Hoq, ?Hnp, ?Hqu, <- ?app_assoc; done.
Qed.

(** X5. While the SDK is queuing, a request that is not queuable (the
    option [queuable] is [false], or the [queueFilter] refuses the request
    as it is before the options are copied into it) is discarded: a
    [discarded] event, then the rejection of the caller's promise. The
    queue is not touched, not even cleaned, and nothing is sent. *)
Theorem query_discards_unqueuable (req options : gmap string json)
    (uuid : string) (now : Z) (s s' : SDK) (r : Request) :
  queuing s = true ->
  options !! "queuable" = Some (JBool false)
  \/ (exists filter,
        queueFilter (cfg s) = Some filter
        /\ filter (if Js.truthy_prop (req !! "requestId") then req
                   else <["requestId" := JStr uuid]> req) = false) ->
  query (JObj req) (JObj options) uuid now s = Normal (s', r) ->
  trace s' = trace s ++ [Emitted "discarded" (PRequest (Some r));
                         Rejected (next_promise s) DISCARDED_MESSAGE]
  /\ offlineQueue s' = offlineQueue s
  /\ sent (trace s') = sent (trace s).
Proof.
  intros Hq Hno H.
  apply query_parts in H as (l & s1 & queuable & Hp & _ & Hqb & ->).
  apply prepareVolatile_fields in Hp as (Htr & Hoq & Hqu & Hnp & _).
  assert (queuable = false) as ->.
  { rewrite Hqb. destruct Hno as [->|(f & -> & ->)]; [done|].
    by rewrite andb_false_r. }
  unfold dispatch. simpl. rewrite Hqu, Hq.
  rewrite QueueFacts.emit_discarded. simpl.
  rewrite Htr, Hoq, Hnp, <- app_assoc. simpl.
  split; [done|]. split; [done|].
  rewrite QueueFacts.sent_app. simpl. by rewrite app_nil_r.
Qed.

Lemma defaultFrom_copied (options request : gmap string json) (k : string) :
  k ∉ ["queuable"; "timeout"] ->
  defaultFrom options k (copyOptions options request) = copyOptions options request.
Proof.
  intros Hk. unfold defaultFrom.
  rewrite VolatileFacts.copyOptions_lookup.
  rewrite bool_decide_eq_false_2 by done.
  destruct (options !! k); [done|]. by destruct (request !! k).
Qed.

(** X6. Every option but [queuable] and [timeout] is copied into the
    request and replaces the request's own property of that name; these two
    are never copied. The [requestId] is the caller's when it is truthy (and
    no option replaces it), a fresh one otherwise. The later tests on
    [refresh] and [retryOnConflict] find the options copied already and
    change nothing. (For options without a [__proto__] property, whose
    copy is an assignment to the prototype of the request.) *)
Theorem options_override_request (req options : gmap string json)
    (uuid : string) (now : Z) (s s' : SDK) (r : Request) :
  options !! "__proto__" = None ->
  query (JObj req) (JObj options) uuid now s = Normal (s', r) ->
  let own := if Js.truthy_prop (req !! "requestId") then req
             else <["requestId" := JStr uuid]> req in
  normalise req options uuid = copyOptions options own
  /\ exists request,
       fields r = authenticateRequest (cfg s) request
       /\ request !! "volatile" = None
       /\ forall k, k <> "volatile" ->
            request !! k =
            if bool_decide (k ∈ ["queuable"; "timeout"]) then own !! k
            else match options !! k with
                 | Some v => Some v
                 | None => own !! k
                 end.
Proof.
  intros _ H own.
  assert (Hn : normalise req options uuid = copyOptions options own).
  { unfold normalise. fold own.
    rewrite (defaultFrom_copied options own "refresh");
      [|by (intros Hin; repeat (apply elem_of_cons in Hin as [?|Hin]; [done|]);
            by apply elem_of_nil in Hin)].
    apply defaultFrom_copied.
    intros Hin; repeat (apply elem_of_cons in Hin as [?|Hin]; [done|]).
    by apply elem_of_nil in Hin. }
  split; [done|].
  apply query_parts in H as (l & s1 & queuable & _ & -> & _ & _).
  eexists. split; [reflexivity|]. split; [by rewrite lookup_delete_eq|].
  intros k Hk. rewrite lookup_delete_ne by done.
  rewrite Hn. apply VolatileFacts.copyOptions_lookup.
Qed.

(** X7. [query] throws in these cases only: the request or the options is
    not an object (an array, a string, a number, a boolean: the error of
    the two argument checks), is [null] (which passes the two checks, and
    fails as a [TypeError] when its properties are read), the [volatile]
    property left in the request once the options are copied is truthy and
    not an object, or the [volatile] property of the SDK is [null]. In
    every other case it returns. (For options without a [__proto__]
    property.) *)
Theorem query_throws_iff (req opts : json) (uuid : string) (now : Z) (s : SDK) :
  (forall o, opts = JObj o -> o !! "__proto__" = None) ->
  (exists msg, query req opts uuid now s = Throw msg)
  <-> ~ exists r o,
          req = JObj r /\ opts = JObj o
          /\ is_Some (store s !! volatile (cfg s))
          /\ (Js.truthy_prop (callerVolatile r o) = false
              \/ exists v, callerVolatile r o = Some (JObj v)).
Proof.
  intros _. split.
  - intros [msg H] (r & o & -> & -> & [D HD] & Hv).
    unfold query in H. simpl in H.
    rewrite VolatileFacts.normalise_volatile in H.
    unfold prepareVolatile, resolveVolatile in H.
    destruct Hv as [Hv|[v Hv]].
    + rewrite Hv in H. simpl in H. rewrite HD in H. discriminate.
    + rewrite Hv in H. simpl in H. rewrite HD in H. discriminate.
  - intros Hno.
    destruct req as [| | | | |r]; try (eexists; reflexivity);
      destruct opts as [| | | | |o]; try (eexists; reflexivity).
    unfold query. simpl.
    rewrite VolatileFacts.normalise_volatile.
    unfold prepareVolatile, resolveVolatile.
    destruct (Js.truthy_prop (callerVolatile r o)) eqn:Ht; simpl.
    + destruct (callerVolatile r o) as [[| | | | |v]|] eqn:Hv;
        try (eexists; reflexivity).
      destruct (store s !! volatile (cfg s)) as [D|] eqn:HD;
        [|eexists; reflexivity].
      exfalso. apply Hno. exists r, o. eauto 10.
    + destruct (store s !! volatile (cfg s)) as [D|] eqn:HD;
        [|eexists; reflexivity].
      exfalso. apply Hno. exists r, o. eauto 10.
Qed.

End DispatchFacts.

Module DispatchExamples.
Import Kuzzle Session Scenario.
#[local] Open Scope list_scope.

Lemma query_sends_when_not_queuing_witness :
  match query (JObj (getRequest "r0")) (JObj {["timeout" := JNum 500]}) "uuid" 0
          (set_protocol_ready false (online config)) with
  | Normal (s', r) =>
      trace s' = [StartTimeout 500 0; ProtocolQuery (Some r) 0]
  | Throw _ => False
  end.
Proof.
  destruct (query (JObj (getRequest "r0")) (JObj {["timeout" := JNum 500]}) "uuid" 0
              (set_protocol_ready false (online config))) as [[s' r]|msg] eqn:H.
  - apply (DispatchFacts.query_sends_when_not_queuing
             (getRequest "r0") {["timeout" := JNum 500]} "uuid" 0
             (set_protocol_ready false (online config)) s' r eq_refl H).
  - vm_compute in H. discriminate.
Defined.

Lemma query_discards_unqueuable_witness :
  match query (JObj (getRequest "r0")) (JObj {["queuable" := JBool false]}) "uuid" 0
          (offline config) with
  | Normal (s', r) => offlineQueue s' = [] /\ sent (trace s') = []
  | Throw _ => False
  end.
Proof.
  destruct (query (JObj (getRequest "r0")) (JObj {["queuable" := JBool false]})
              "uuid" 0 (offline config)) as [[s' r]|msg] eqn:H.
  - destruct (DispatchFacts.query_discards_unqueuable
                (getRequest "r0") {["queuable" := JBool false]} "uuid" 0
                (offline config) s' r) as (_ & Hq & Hs).
    + reflexivity.
    + left. reflexivity.
    + exact H.
    + split; [exact Hq|exact Hs].
  - vm_compute in H. discriminate.
Defined.

Lemma options_override_request_witness :
  match query (JObj (getRequest "r0")) (JObj {["requestId" := JStr "mine"]}) "uuid" 0
          (online config) with
  | Normal (s', r) =>
      exists request,
        fields r = authenticateRequest config request
        /\ request !! "volatile" = None
  | Throw _ => False
  end.
Proof.
  destruct (query (JObj (getRequest "r0")) (JObj {["requestId" := JStr "mine"]})
              "uuid" 0 (online config)) as [[s' r]|msg] eqn:H.
  - destruct (DispatchFacts.options_override_request
                (getRequest "r0") {["requestId" := JStr "mine"]} "uuid" 0
                (online config) s' r)
      as (_ & request & Hf & Hv & _).
    + vm_compute. reflexivity.
    + exact H.
    + exists request. split; [exact Hf|exact Hv].
  - vm_compute in H. discriminate.
Defined.

(** The [requestId] of the options replaces the one of the request; the
    [timeout] option is not copied. *)
Example requestId_from_options :
  match query (JObj (getRequest "r0"))
          (JObj (<["timeout" := JNum 500]> {["requestId" := JStr "mine"]}))
          "uuid" 0 (online config) with
  | Normal (s', r) =>
      fields r !! "requestId" = Some (JStr "mine")
      /\ fields r !! "timeout" = None
  | Throw _ => False
  end.
Proof. vm_compute. done. Qed.

Lemma query_throws_iff_witness :
  exists msg,
    query (JObj (<["volatile" := JNum 1]> (getRequest "r0"))) (JObj ∅) "uuid" 0
      (online config) = Throw msg.
Proof.
  apply (DispatchFacts.query_throws_iff
           (JObj (<["volatile" := JNum 1]> (getRequest "r0"))) (JObj ∅)
           "uuid" 0 (online config)).
  { intros o Ho. injection Ho as <-. vm_compute. reflexivity. }
  intros (r & o & Hr & Ho & _ & [Hv|[v Hv]]).
  - injection Hr as <-. injection Ho as <-. vm_compute in Hv. discriminate.
  - injection Hr as <-. injection Ho as <-. vm_compute in Hv. discriminate.
Defined.

Example query_null_throws :
  query JNull (JObj ∅) "uuid" 0 (online config)
  = Throw "TypeError: Cannot read properties of null".
Proof. reflexivity. Qed.

End DispatchExamples.

(** ** Settlement: every promise is settled once at most *)

Module LedgerFacts.
Import Kuzzle Session.
#[local] Open Scope list_scope.

Lemma settled_app (a b : list effect) : settled (a ++ b) = settled a ++ settled b.
Proof. unfold settled. apply omap_app. Qed.

Lemma settled_dropEffects (msg : string) (dropped : list QueueEntry) :
  settled (dropEffects msg dropped) = map promise dropped.
Proof. induction dropped as [|e l IH]; [done|]. simpl. by rewrite <- IH. Qed.

Lemma settled_evictionEffects (now : Z) (c : Config) (q : list QueueEntry) :
  settled (evictionEffects now c q) = map promise (take (evicted now c q) q).
Proof.
  unfold evictionEffects, evicted.
  rewrite settled_app, !settled_dropEffects, <- map_app. f_equal.
  by rewrite take_take_drop.
Qed.

Lemma settled_replayStep (interval : Z) (e : QueueEntry) :
  settled (replayStep interval e) = [promise e].
Proof. unfold replayStep. by destruct (Z.eqb (timeout e) (-1)). Qed.

Lemma accounted_refl (s : SDK) : accounted s s.
Proof.
  exists []. rewrite app_nil_r, Nat.sub_diag. simpl. rewrite app_nil_r. done.
Qed.

Lemma accounted_trans (s1 s2 s3 : SDK) :
  accounted s1 s2 -> accounted s2 s3 -> accounted s1 s3.
Proof.
  intros (m1 & Ht1 & Hc1 & Hn1 & H1) (m2 & Ht2 & Hc2 & Hn2 & H2).
  exists (m1 ++ m2). split; [by rewrite Ht2, Ht1, app_assoc|].
  split; [congruence|]. split; [lia|].
  rewrite settled_app, <- app_assoc.
  etrans; [apply submseteq_skips_l, H2|].
  rewrite app_assoc.
  etrans; [apply submseteq_app; [exact H1|reflexivity]|].
  rewrite <- app_assoc.
  apply submseteq_skips_l.
  replace (next_promise s3 - next_promise s1)%nat
    with ((next_promise s2 - next_promise s1)
          + (next_promise s3 - next_promise s2))%nat by lia.
  rewrite seq_app.
  replace (next_promise s1 + (next_promise s2 - next_promise s1))%nat
    with (next_promise s2) by lia.
  done.
Qed.

(** A step that settles nothing and keeps the queue. *)
Lemma accounted_quiet (s s' : SDK) (more : list effect) :
  trace s' = trace s ++ more -> settled more = [] ->
  cfg s' = cfg s -> offlineQueue s' = offlineQueue s ->
  next_promise s' = next_promise s ->
  accounted s s'.
Proof.
  intros Ht Hm Hc Hq Hn. exists more.
  rewrite Hm, Hq, Hn, Nat.sub_diag. simpl. rewrite app_nil_r. done.
Qed.

Lemma accounted_same (s s' : SDK) :
  trace s' = trace s -> cfg s' = cfg s -> offlineQueue s' = offlineQueue s ->
  next_promise s' = next_promise s ->
  accounted s s'.
Proof.
  intros Ht. apply (accounted_quiet s s' []); [by rewrite app_nil_r|done].
Qed.

Lemma accounted_emit (now : Z) (ev : string) (p : payload) (s : SDK) :
  accounted s (emit now ev p s).
Proof.
  destruct (throttled now ev s) eqn:Ht.
  - rewrite EmitFacts.emit_throttled by done. apply accounted_refl.
  - rewrite EmitFacts.emit_delivered by done.
    apply (accounted_quiet _ _ [Emitted ev p]); try done;
      by destruct (protectedEvent ev).
Qed.

Lemma accounted_cleanQueue (now : Z) (s : SDK) : accounted s (_cleanQueue now s).
Proof.
  rewrite QueueFacts.cleanQueue_spec.
  exists (evictionEffects now (cfg s) (offlineQueue s)).
  simpl. split; [done|]. split; [done|]. split; [lia|].
  rewrite Nat.sub_diag. simpl. rewrite app_nil_r.
  rewrite settled_evictionEffects, <- map_app, take_drop. done.
Qed.

Lemma accounted_dequeuingProcess (now : Z) (s : SDK) :
  accounted s (dequeuingProcess now s).
Proof.
  destruct (offlineQueue s) as [|e q] eqn:Hq.
  - rewrite QueueFacts.dequeuingProcess_nil by done. apply accounted_refl.
  - rewrite (QueueFacts.dequeuingProcess_cons now s e q Hq).
    exists (replayStep (replayInterval (cfg s)) e).
    simpl. split; [done|]. split; [done|]. split; [lia|].
    rewrite Nat.sub_diag, settled_replayStep, Hq. simpl. rewrite app_nil_r. done.
Qed.

Lemma accounted_timerFires (now : Z) (s : SDK) : accounted s (timerFires now s).
Proof.
  unfold timerFires. destruct (pendingReplays s) as [|n]; [apply accounted_refl|].
  eapply accounted_trans; [|apply accounted_dequeuingProcess].
  by apply accounted_same.
Qed.

Lemma accounted_playQueue (now : Z) (s : SDK) :
  offlineQueueLoader (cfg s) = None -> accounted s (playQueue now s).
Proof.
  intros Hl. unfold playQueue. destruct (protocol_ready s); [|apply accounted_refl].
  assert (Hc : cfg (_cleanQueue now s) = cfg s).
  { by rewrite QueueFacts.cleanQueue_spec. }
  unfold _dequeue. rewrite Hc, Hl.
  eapply accounted_trans; [apply accounted_cleanQueue|].
  apply accounted_dequeuingProcess.
Qed.

Lemma accounted_fresh (s s' : SDK) (more : list effect) :
  trace s' = trace s ++ more -> cfg s' = cfg s ->
  next_promise s' = S (next_promise s) ->
  settled more ++ map promise (offlineQueue s')
  ⊆+ map promise (offlineQueue s) ++ [next_promise s] ->
  accounted s s'.
Proof.
  intros Ht Hc Hn H. exists more. split; [done|]. split; [done|]. split; [lia|].
  rewrite Hn. replace (S (next_promise s) - next_promise s)%nat with 1%nat by lia.
  done.
Qed.

Lemma submseteq_cons_last {A : Type} (x : A) (l : list A) : x :: l ⊆+ l ++ [x].
Proof. apply submseteq_cons_middle. by rewrite app_nil_r. Qed.

Lemma accounted_dispatch (queuable : bool) (t : Z) (r : Request) (now : Z) (s : SDK) :
  accounted s (dispatch queuable t r now s).
Proof.
  destruct (queuing s) eqn:Hq; [destruct queuable|].
  - rewrite QueueFacts.dispatch_enqueue by done.
    eapply (accounted_fresh _ _
              (evictionEffects now (cfg s) (offlineQueue s)
               ++ [Emitted "offlineQueuePush" (PRequest (Some r))]));
      [reflexivity|reflexivity|reflexivity|].
    simpl. rewrite settled_app, settled_evictionEffects. simpl.
    rewrite app_nil_r, map_app, app_assoc, <- map_app, take_drop. done.
  - unfold dispatch. simpl. rewrite Hq.
    rewrite QueueFacts.emit_discarded.
    eapply (accounted_fresh _ _
              [Emitted "discarded" (PRequest (Some r));
               Rejected (next_promise s) DISCARDED_MESSAGE]).
    + simpl. by rewrite <- app_assoc.
    + done.
    + done.
    + apply submseteq_cons_last.
  - unfold dispatch. simpl. rewrite Hq. unfold _timeoutRequest.
    destruct (Z.eqb t (-1)).
    + eapply (accounted_fresh _ _ [ProtocolQuery (Some r) (next_promise s)]);
        [done..|].
      apply submseteq_cons_last.
    + eapply (accounted_fresh _ _ [StartTimeout t (next_promise s);
                                   ProtocolQuery (Some r) (next_promise s)]).
      * simpl. by rewrite <- app_assoc.
      * done.
      * done.
      * apply submseteq_cons_last.
Qed.

Lemma accounted_issue (s : SDK) (c : Call) : accounted s (issue s c).
Proof.
  unfold issue.
  destruct (query (call_req c) (call_opts c) (call_uuid c) (call_now c) s)
    as [[s' r]|] eqn:H; [|apply accounted_refl].
  destruct (call_req c) as [| | | | |req]; try discriminate;
    destruct (call_opts c) as [| | | | |options]; try discriminate.
  apply DispatchFacts.query_parts in H as (l & s1 & queuable & Hp & _ & _ & ->).
  apply QueueFacts.prepareVolatile_frame in Hp as [h ->].
  eapply accounted_trans; [|apply accounted_dispatch].
  by apply accounted_same.
Qed.

Lemma accounted_log (e : effect) (s : SDK) :
  settles e = None -> accounted s (log e s).
Proof.
  intros He. apply (accounted_quiet _ _ [e]); try done.
  unfold settled. simpl. by rewrite He.
Qed.

Lemma accounted_connect (s : SDK) : accounted s (connect s).
Proof.
  unfold connect. destruct (protocol_ready s); [apply accounted_refl|].
  repeat (eapply accounted_trans; [|by apply accounted_log]).
  destruct (autoQueue (cfg s)); [by apply accounted_same|apply accounted_refl].
Qed.

Lemma accounted_disconnect (s : SDK) : accounted s (disconnect s).
Proof.
  unfold disconnect. eapply accounted_trans; [|by apply accounted_log].
  by apply accounted_same.
Qed.

Lemma accounted_authenticate (check : CheckToken) (s : SDK) :
  accounted s (fst (authenticate check s)).
Proof.
  unfold authenticate.
  destruct (authenticator (cfg s)); simpl; try apply accounted_refl.
  - destruct (isAuthenticated check) as [valid|]; simpl.
    + destruct valid; simpl;
        (apply (accounted_trans _ (log CallAuthenticator s));
         [by apply accounted_log|by apply accounted_same]).
    + by apply accounted_log.
  - by apply accounted_log.
Qed.

Lemma accounted_tryReAuthenticate (now : Z) (check1 check2 : CheckToken) (s : SDK) :
  accounted s (fst (tryReAuthenticate now check1 check2 s)).
Proof.
  unfold tryReAuthenticate.
  set (s0 := set_reconnectInProgress true s).
  assert (H0 : accounted s s0) by (by apply accounted_same).
  assert (Hb : accounted s0 (fst (tryReAuthenticate_body now check1 check2 s0))).
  { unfold tryReAuthenticate_body.
    destruct (isAuthenticated check1) as [valid|]; [|apply accounted_refl].
    destruct valid; [apply accounted_refl|].
    pose proof (accounted_authenticate check2 s0) as Ha.
    destruct (authenticator (cfg s0)) eqn:Hau; simpl.
    - apply accounted_emit.
    - by destruct (authenticate check2 s0) as [s1 [[]|]].
    - by destruct (authenticate check2 s0) as [s1 [[]|]].
    - by destruct (authenticate check2 s0) as [s1 [[]|]]. }
  destruct (tryReAuthenticate_body now check1 check2 s0) as [s1 r]. simpl in Hb.
  destruct r as [b|err]; simpl.
  - eapply accounted_trans; [exact H0|].
    eapply accounted_trans; [exact Hb|]. by apply accounted_same.
  - eapply accounted_trans; [exact H0|].
    eapply accounted_trans; [exact Hb|].
    eapply accounted_trans; [apply accounted_emit|]. by apply accounted_same.
Qed.

Lemma accounted_cfg (s s' : SDK) : accounted s s' -> cfg s' = cfg s.
Proof. by intros (? & _ & ? & _). Qed.

Lemma accounted_reconnect (now : Z) (check1 check2 : CheckToken) (s : SDK) :
  offlineQueueLoader (cfg s) = None ->
  accounted s (fst (_reconnect now check1 check2 s)).
Proof.
  intros Hl. unfold _reconnect.
  destruct (reconnectInProgress s); [apply accounted_refl|].
  set (s0 := if autoQueue (cfg s) then stopQueuing s else s).
  assert (H0 : accounted s s0).
  { unfold s0. destruct (autoQueue (cfg s)); [by apply accounted_same|apply accounted_refl]. }
  assert (Hresume : forall s1, accounted s s1 ->
            accounted s (emit now "reconnected" PVoid
                           (if autoReplay (cfg s1) then playQueue now s1 else s1))).
  { intros s1 H1. eapply accounted_trans; [|apply accounted_emit].
    destruct (autoReplay (cfg s1)); [|done].
    eapply accounted_trans; [exact H1|]. apply accounted_playQueue.
    by rewrite (accounted_cfg _ _ H1). }
  destruct (loggedIn s0) eqn:Hli.
  - pose proof (accounted_tryReAuthenticate now check1 check2 s0) as Ht.
    destruct (tryReAuthenticate now check1 check2 s0) as [s1 [[]|]]; simpl in *.
    + apply Hresume. by eapply accounted_trans.
    + eapply accounted_trans; [exact H0|].
      eapply accounted_trans; [exact Ht|].
      eapply accounted_trans; [|apply accounted_disconnect].
      by apply accounted_same.
    + by eapply accounted_trans.
  - simpl. by apply Hresume.
Qed.

Lemma accounted_tokenExpired (now later : Z) (check1 check2 : CheckToken)
    (st : State) :
  accounted (sdk st) (sdk (fst (tokenExpired now later check1 check2 st))).
Proof.
  unfold tokenExpired.
  destruct (reconnectInProgress (sdk st)); [apply accounted_refl|].
  assert (H1 : accounted (sdk st)
                 (fst (if loggedIn (sdk st)
                       then tryReAuthenticate now check1 check2 (sdk st)
                       else (sdk st, Normal false)))).
  { destruct (loggedIn (sdk st)); [apply accounted_tryReAuthenticate|apply accounted_refl]. }
  destruct (if loggedIn (sdk st)
            then tryReAuthenticate now check1 check2 (sdk st)
            else (sdk st, Normal false)) as [s1 [[]|]]; simpl in *.
  - eapply accounted_trans; [exact H1|apply accounted_emit].
  - destruct (Z.ltb _ _); simpl; [done|].
    eapply accounted_trans; [exact H1|].
    eapply accounted_trans; [|apply accounted_emit]. by apply accounted_same.
  - done.
Qed.

Lemma accounted_refreshLoggedIn (check : CheckToken) (s : SDK) :
  accounted s (refreshLoggedIn check s).
Proof.
  unfold refreshLoggedIn. destruct (isAuthenticated check); by apply accounted_same.
Qed.

Lemma accounted_handle (h : handler) (w : Env) (st : State) :
  offlineQueueLoader (cfg (sdk st)) = None ->
  accounted (sdk st) (sdk (fst (handle h w st))).
Proof.
  intros Hl. destruct h; simpl; try apply accounted_emit.
  - apply accounted_tokenExpired.
  - set (s0 := if autoQueue (cfg (sdk st)) then stopQueuing (sdk st) else sdk st).
    assert (H0 : accounted (sdk st) s0).
    { unfold s0. destruct (autoQueue (cfg (sdk st)));
        [by apply accounted_same|apply accounted_refl]. }
    set (s1 := if autoReplay (cfg s0) then playQueue (env_now w) s0 else s0).
    assert (H1 : accounted (sdk st) s1).
    { unfold s1. destruct (autoReplay (cfg s0)); [|done].
      eapply accounted_trans; [exact H0|]. apply accounted_playQueue.
      by rewrite (accounted_cfg _ _ H0). }
    destruct (throttled (env_now w) "connected" s1).
    + eapply accounted_trans; [exact H1|apply accounted_emit].
    + eapply accounted_trans; [exact H1|].
      eapply accounted_trans; [apply accounted_emit|apply accounted_refreshLoggedIn].
  - eapply accounted_trans; [|apply accounted_emit].
    destruct (autoQueue (cfg (sdk st))); [by apply accounted_same|apply accounted_refl].
  - pose proof (accounted_reconnect (env_now w) (env_check1 w) (env_check2 w)
                  (sdk st) Hl) as Hr.
    by destruct (_reconnect (env_now w) (env_check1 w) (env_check2 w) (sdk st)).
  - by apply accounted_same.
  - by apply accounted_same.
Qed.

Lemma accounted_perform (a : action) (st : State) :
  offlineQueueLoader (cfg (sdk st)) = None ->
  accounted (sdk st) (sdk (perform st a)).
Proof.
  intros Hl. destruct a; simpl.
  - apply accounted_issue.
  - by apply accounted_playQueue.
  - apply accounted_timerFires.
  - rewrite QueueFacts.loaderAnswers_no_loader by done. by apply accounted_same.
  - by apply accounted_same.
  - by apply accounted_same.
  - exists []. simpl. rewrite app_nil_r, Nat.sub_diag, app_nil_r.
    split; [done|]. split; [done|]. split; [lia|]. apply submseteq_nil_l.
  - apply accounted_connect.
  - apply accounted_disconnect.
  - by apply accounted_same.
  - by apply accounted_handle.
  - unfold onLoginAttempt. destruct success;
      [by apply accounted_same|apply accounted_refreshLoggedIn].
  - unfold onLogoutAttempt. destruct success;
      [by apply accounted_same|apply accounted_refl].
Qed.

Lemma accounted_performAll (acts : list action) (st : State) :
  offlineQueueLoader (cfg (sdk st)) = None ->
  accounted (sdk st) (sdk (performAll acts st)).
Proof.
  revert st. induction acts as [|a acts IH]; intros st Hl; [apply accounted_refl|].
  unfold performAll in *. simpl.
  pose proof (accounted_perform a st Hl) as Ha.
  eapply accounted_trans; [exact Ha|]. apply IH.
  by rewrite (accounted_cfg _ _ Ha).
Qed.

Lemma submseteq_NoDup {A : Type} (l k : list A) : l ⊆+ k -> NoDup k -> NoDup l.
Proof.
  intros H Hk. apply submseteq_Permutation in H as [k' Hp].
  rewrite Hp in Hk. by apply NoDup_app in Hk as [? _].
Qed.

Lemma NoDup_below_seq (l : list nat) (n k : nat) :
  NoDup l -> Forall (fun p => (p < n)%nat) l -> NoDup (l ++ seq n k).
Proof.
  intros Hl Hlt. apply NoDup_app. split; [done|]. split; [|apply NoDup_seq].
  intros x Hx Hs. rewrite Forall_forall in Hlt. specialize (Hlt x Hx).
  apply elem_of_seq in Hs. lia.
Qed.

Lemma ledger_accounted (base : list effect) (s s' : SDK) :
  ledger base s -> accounted s s' -> ledger base s'.
Proof.
  intros (since & Ht & Hnd & Hlt) (more & Ht' & _ & Hn & Hsub).
  exists (since ++ more). split; [by rewrite Ht', Ht, app_assoc|].
  rewrite settled_app, <- app_assoc.
  assert (Hall : settled since ++ settled more ++ map promise (offlineQueue s')
                 ⊆+ (settled since ++ map promise (offlineQueue s))
                    ++ seq (next_promise s) (next_promise s' - next_promise s)).
  { rewrite <- app_assoc. by apply submseteq_skips_l. }
  split.
  - eapply submseteq_NoDup; [exact Hall|]. by apply NoDup_below_seq.
  - apply Forall_forall. intros p Hp.
    eapply elem_of_submseteq in Hp; [|exact Hall].
    apply elem_of_app in Hp as [Hp|Hp].
    + rewrite Forall_forall in Hlt. specialize (Hlt p Hp). lia.
    + apply elem_of_seq in Hp. lia.
Qed.

(** X8. Whatever the application and the transport do, in any order
    (requests, replays, timers, queuing switched on and off, connection
    events, token expiry, flushes), no promise is settled twice by the
    SDK: a request is handed to the transport once at most, a queued
    request that was rejected (TTL, size, discarded) is never sent, and
    what is still queued has not been settled. (Without a queue loader,
    whose entries bring promises of their own.) *)
Theorem promises_settled_at_most_once (acts : list action) (st : State) :
  offlineQueueLoader (cfg (sdk st)) = None ->
  offlineQueue (sdk st) = [] ->
  exists since,
    trace (sdk (performAll acts st)) = trace (sdk st) ++ since
    /\ NoDup (settled since
              ++ map promise (offlineQueue (sdk (performAll acts st)))).
Proof.
  intros Hl Hq.
  assert (H0 : ledger (trace (sdk st)) (sdk st)).
  { exists []. rewrite app_nil_r, Hq. simpl. split; [done|].
    split; constructor. }
  destruct (ledger_accounted _ _ _ H0 (accounted_performAll acts st Hl))
    as (since & Ht & Hnd & _).
  by exists since.
Qed.

(** X9. [flushQueue] settles nothing, then or later: the queue is emptied
    without a rejection and without an [offlineQueuePop], and whatever
    happens afterwards, the promises of the requests that were flushed are
    never resolved nor rejected by the SDK. *)
Theorem flushed_requests_never_settle (before after : list action) (st : State) :
  offlineQueueLoader (cfg (sdk st)) = None ->
  offlineQueue (sdk st) = [] ->
  let st1 := performAll before st in
  let st2 := performAll after (perform st1 FlushQueue) in
  trace (sdk (perform st1 FlushQueue)) = trace (sdk st1)
  /\ exists since,
       trace (sdk st2) = trace (sdk st1) ++ since
       /\ forall e, e ∈ offlineQueue (sdk st1) -> promise e ∉ settled since.
Proof.
  intros Hl Hq st1 st2. split; [done|].
  assert (H0 : ledger (trace (sdk st)) (sdk st)).
  { exists []. rewrite app_nil_r, Hq. simpl. split; [done|].
    split; constructor. }
  pose proof (accounted_performAll before st Hl) as Hb. fold st1 in Hb.
  destruct (ledger_accounted _ _ _ H0 Hb) as (since0 & _ & _ & Hlt).
  assert (Hl1 : offlineQueueLoader (cfg (sdk (perform st1 FlushQueue))) = None).
  { simpl. by rewrite (accounted_cfg _ _ Hb). }
  destruct (accounted_performAll after (perform st1 FlushQueue) Hl1)
    as (since & Ht & _ & Hn & Hsub).
  fold st2 in Ht, Hn, Hsub. simpl in Ht, Hn, Hsub.
  exists since. split; [done|].
  intros e He Hin.
  assert (Hp : promise e ∈ settled since ++ map promise (offlineQueue (sdk st2))).
  { apply elem_of_app. by left. }
  eapply elem_of_submseteq in Hp; [|exact Hsub].
  apply elem_of_seq in Hp.
  rewrite Forall_forall in Hlt.
  assert (promise e < next_promise (sdk st1))%nat; [|lia].
  apply Hlt. apply elem_of_app. right.
  apply list_elem_of_fmap. by exists e.
Qed.

End LedgerFacts.

Module LedgerExamples.
Import Kuzzle Session Scenario SessionScenario.
#[local] Open Scope list_scope.

Lemma promises_settled_at_most_once_witness :
  exists since,
    trace (sdk (performAll
                  [Query (get "r0" 0); Query (get "r1" 1); ProtocolReady true;
                   PlayQueue 2; ReplayTimer 3; ReplayTimer 4]
                  (session (offline config))))
    = trace (sdk (session (offline config))) ++ since
    /\ NoDup (settled since
              ++ map promise
                   (offlineQueue
                      (sdk (performAll
                              [Query (get "r0" 0); Query (get "r1" 1);
                               ProtocolReady true; PlayQueue 2; ReplayTimer 3;
                               ReplayTimer 4]
                              (session (offline config)))))).
Proof.
  apply (LedgerFacts.promises_settled_at_most_once
           [Query (get "r0" 0); Query (get "r1" 1); ProtocolReady true;
            PlayQueue 2; ReplayTimer 3; ReplayTimer 4]
           (session (offline config))).
  - reflexivity.
  - reflexivity.
Defined.

Lemma flushed_requests_never_settle_witness :
  exists since,
    trace (sdk (performAll [ProtocolReady true; PlayQueue 2; ReplayTimer 3]
                  (perform
                     (performAll [Query (get "r0" 0); Query (get "r1" 1)]
                        (session (offline config)))
                     FlushQueue)))
    = trace (sdk (performAll [Query (get "r0" 0); Query (get "r1" 1)]
                    (session (offline config)))) ++ since
    /\ forall e,
         e ∈ offlineQueue
               (sdk (performAll [Query (get "r0" 0); Query (get "r1" 1)]
                       (session (offline config)))) ->
         promise e ∉ settled since.
Proof.
  apply (LedgerFacts.flushed_requests_never_settle
           [Query (get "r0" 0); Query (get "r1" 1)]
           [ProtocolReady true; PlayQueue 2; ReplayTimer 3]
           (session (offline config))).
  - reflexivity.
  - reflexivity.
Defined.

(** Two requests queued then flushed: a replay sends nothing. *)
Example flushed_not_replayed :
  let st := performAll
              [Query (get "r0" 0); Query (get "r1" 1); FlushQueue;
               ProtocolReady true; PlayQueue 2; ReplayTimer 3]
              (session (offline config)) in
  settled (trace (sdk st)) = [] /\ offlineQueue (sdk st) = [].
Proof. vm_compute. done. Qed.

End LedgerExamples.

(** ** Re-authentication, token expiry and the listeners of the transport *)

Module SessionFacts.
Import Kuzzle Session.
#[local] Open Scope list_scope.

Lemma isAuthenticated_accepted (check : CheckToken) :
  isAuthenticated check =
  match check with
  | Checked _ _ => Normal (accepted check)
  | CheckFails msg => Throw msg
  end.
Proof. by destruct check. Qed.

Lemma reauthentication_outcome_aux (now : Z) (check1 check2 : CheckToken) (s : SDK) :
  let s' := fst (tryReAuthenticate now check1 check2 s) in
  let ok := reauthenticates check1 check2 (authenticator (cfg s)) in
  snd (tryReAuthenticate now check1 check2 s) = Normal ok
  /\ reconnectInProgress s' = false
  /\ loggedIn s' = (if authenticatorCalled check1 (authenticator (cfg s))
                    then match authenticator (cfg s), check2 with
                         | AuthenticatorReturns, Checked _ _ => accepted check2
                         | _, _ => loggedIn s
                         end
                    else loggedIn s)
  /\ offlineQueue s' = offlineQueue s /\ queuing s' = queuing s
  /\ cfg s' = cfg s /\ lastEmitted s' = lastEmitted s
  /\ protocol_ready s' = protocol_ready s
  /\ pendingReplays s' = pendingReplays s
  /\ exists msg,
       trace s' =
       trace s
       ++ (if authenticatorCalled check1 (authenticator (cfg s))
           then [CallAuthenticator] else [])
       ++ (if ok then [] else [Emitted "reconnectionError" (PError msg)]).
Proof.
  unfold tryReAuthenticate, tryReAuthenticate_body, reauthenticates,
    authenticatorCalled, authenticate, isAuthenticated, accepted.
  destruct check1 as [v1 k1|m1], check2 as [v2 k2|m2];
    try destruct v1; try destruct v2; simpl;
    try destruct (String.eqb k1 "-1"); try destruct (String.eqb k2 "-1"); simpl;
    try destruct (authenticator (cfg s)); simpl;
    rewrite ?ConnectionFacts.emit_reconnectionError; simpl;
    (repeat (split; [reflexivity|])).
  all: try (exists ""; rewrite ?app_nil_r, <- ?app_assoc; simpl; reflexivity).
  all: eexists; rewrite ?app_nil_r, <- ?app_assoc; simpl; reflexivity.
Qed.

(** X10. [tryReAuthenticate] never rejects and always leaves
    [_reconnectInProgress] false. It yields [true] exactly when the token is
    still accepted, or when it is refused and the authenticator, a function
    that returns, obtains a token that is accepted. The authenticator is
    called once at most, and not at all when the token is still accepted or
    when the token check itself fails. A [reconnectionError] is emitted
    exactly when the result is [false]. *)
Theorem reauthentication_outcome (now : Z) (check1 check2 : CheckToken) (s : SDK) :
  let s' := fst (tryReAuthenticate now check1 check2 s) in
  let ok := reauthenticates check1 check2 (authenticator (cfg s)) in
  snd (tryReAuthenticate now check1 check2 s) = Normal ok
  /\ reconnectInProgress s' = false
  /\ exists msg,
       trace s' =
       trace s
       ++ (if authenticatorCalled check1 (authenticator (cfg s))
           then [CallAuthenticator] else [])
       ++ (if ok then [] else [Emitted "reconnectionError" (PError msg)]).
Proof.
  destruct (reauthentication_outcome_aux now check1 check2 s)
    as (H1 & H2 & _ & _ & _ & _ & _ & _ & _ & H3).
  done.
Qed.


Lemma tryReAuthenticate_outcome (now : Z) (check1 check2 : CheckToken) (s : SDK) :
  exists s',
    tryReAuthenticate now check1 check2 s
    = (s', Normal (reauthenticates check1 check2 (authenticator (cfg s)))).
Proof.
  destruct (reauthentication_outcome_aux now check1 check2 s) as [H _].
  destruct (tryReAuthenticate now check1 check2 s) as [s' r]. simpl in H.
  exists s'. by rewrite H.
Qed.

(** X11. [tokenExpired] does nothing while a reconnection is in progress.
    Otherwise, for a logged-in SDK whose re-authentication succeeds, it
    emits [reAuthenticated] and stops there: the token is kept, no
    [tokenExpired] event is emitted and the time of the last expiry is not
    moved. *)
Theorem tokenExpired_reauthenticates (now later : Z) (check1 check2 : CheckToken)
    (st : State) :
  (reconnectInProgress (sdk st) = true ->
   tokenExpired now later check1 check2 st = (st, Normal tt))
  /\ (reconnectInProgress (sdk st) = false -> loggedIn (sdk st) = true ->
      reauthenticates check1 check2 (authenticator (cfg (sdk st))) = true ->
      let st' := fst (tokenExpired now later check1 check2 st) in
      snd (tokenExpired now later check1 check2 st) = Normal tt
      /\ jwt st' = jwt st
      /\ lastTokenExpired st' = lastTokenExpired st
      /\ emitted "reAuthenticated" (trace (sdk st'))
         = emitted "reAuthenticated" (trace (sdk st)) ++ [PVoid]
      /\ emitted "tokenExpired" (trace (sdk st'))
         = emitted "tokenExpired" (trace (sdk st))
      /\ emitted "reconnectionError" (trace (sdk st'))
         = emitted "reconnectionError" (trace (sdk st))).
Proof.
  split.
  - intros H. unfold tokenExpired. by rewrite H.
  - intros Hr Hl Hok. unfold tokenExpired. rewrite Hr, Hl.
    destruct (reauthentication_outcome_aux now check1 check2 (sdk st))
      as (Hres & _ & _ & _ & _ & _ & _ & _ & _ & msg & Htr).
    rewrite Hok in Hres, Htr.
    destruct (tryReAuthenticate now check1 check2 (sdk st)) as [s1 r].
    simpl in *. subst r. simpl.
    rewrite Htr, app_nil_r.
    rewrite !QueueFacts.emitted_app.
    destruct (authenticatorCalled check1 (authenticator (cfg (sdk st)))); simpl;
      rewrite ?app_nil_r; done.
Qed.


Lemma throttled_frame (now : Z) (ev : string) (s s' : SDK) :
  lastEmitted s' = lastEmitted s -> cfg s' = cfg s ->
  throttled now ev s' = throttled now ev s.
Proof. intros H1 H2. unfold throttled, lastEmittedOf. by rewrite H1, H2. Qed.

Lemma with_sdk_id (st : State) : with_sdk (sdk st) st = st.
Proof. by destruct st. Qed.

(** X12. When the token has expired and is not renewed (the SDK is not
    logged in, or its re-authentication fails) and the last expiry is at
    least [tokenExpiredInterval] old, [tokenExpired] forgets the token:
    [jwt] is [null], the SDK is logged out and the [tokenExpired] event is
    emitted (if [emit] lets it through). Until [tokenExpiredInterval] has
    passed, further calls change nothing at all. *)
Theorem tokenExpired_clears_token_once (now later : Z) (check1 check2 : CheckToken)
    (st : State) :
  reconnectInProgress (sdk st) = false ->
  (loggedIn (sdk st) = true ->
   reauthenticates check1 check2 (authenticator (cfg (sdk st))) = false) ->
  tokenExpiredInterval st <= later - default 0 (lastTokenExpired st) ->
  let st1 := fst (tokenExpired now later check1 check2 st) in
  jwt st1 = None /\ loggedIn (sdk st1) = false
  /\ lastTokenExpired st1 = Some later
  /\ emitted "tokenExpired" (trace (sdk st1))
     = emitted "tokenExpired" (trace (sdk st))
       ++ (if throttled later "tokenExpired" (sdk st) then [] else [PVoid])
  /\ forall now2 later2 check3 check4,
       later2 - later < tokenExpiredInterval st ->
       tokenExpired now2 later2 check3 check4 st1 = (st1, Normal tt).
Proof.
  intros Hr Hno Hold st1.
  assert (Hs : exists s1,
             (if loggedIn (sdk st)
              then tryReAuthenticate now check1 check2 (sdk st)
              else (sdk st, Normal false)) = (s1, Normal false)
             /\ reconnectInProgress s1 = false
             /\ lastEmitted s1 = lastEmitted (sdk st) /\ cfg s1 = cfg (sdk st)
             /\ emitted "tokenExpired" (trace s1)
                = emitted "tokenExpired" (trace (sdk st))).
  { destruct (loggedIn (sdk st)) eqn:Hl.
    - destruct (reauthentication_outcome_aux now check1 check2 (sdk st))
        as (Hres & Hrp & _ & _ & _ & Hc & Hle & _ & _ & msg & Htr).
      rewrite (Hno eq_refl) in Hres, Htr.
      destruct (tryReAuthenticate now check1 check2 (sdk st)) as [s1 r].
      simpl in *. subst r. exists s1. repeat (split; [done|]).
      rewrite Htr, !QueueFacts.emitted_app.
      destruct (authenticatorCalled _ _); simpl; by rewrite ?app_nil_r.
    - exists (sdk st). done. }
  destruct Hs as (s1 & Hs1 & Hrp & Hle & Hc & Hem).
  assert (Hst1 : st1 =
                 with_sdk (emit later "tokenExpired" PVoid (set_loggedIn false s1))
                   (set_jwt None (set_lastTokenExpired (Some later) (with_sdk s1 st)))).
  { unfold st1, tokenExpired. rewrite Hr, Hs1. simpl.
    destruct (Z.ltb_spec (later - default 0 (lastTokenExpired st))
                (tokenExpiredInterval st)); [lia|done]. }
  assert (Hth : throttled later "tokenExpired" (set_loggedIn false s1)
                = throttled later "tokenExpired" (sdk st))
    by (by apply throttled_frame).
  destruct (throttled later "tokenExpired" (sdk st)) eqn:Ht.
  - rewrite EmitFacts.emit_throttled in Hst1 by done.
    rewrite Hst1. simpl. repeat (split; [done|]).
    split; [by rewrite app_nil_r|].
    intros now2 later2 check3 check4 Hlt.
    unfold tokenExpired. simpl. rewrite Hrp.
    destruct (Z.ltb_spec (later2 - later) (tokenExpiredInterval st)); [done|lia].
  - rewrite EmitFacts.emit_delivered in Hst1 by done.
    rewrite Hst1. simpl. repeat (split; [done|]).
    split.
    { rewrite QueueFacts.emitted_app, Hem. done. }
    intros now2 later2 check3 check4 Hlt.
    unfold tokenExpired. simpl. rewrite Hrp.
    destruct (Z.ltb_spec (later2 - later) (tokenExpiredInterval st)); [done|lia].
Qed.

Lemma playQueue_flags (now : Z) (s : SDK) :
  queuing (playQueue now s) = queuing s
  /\ loggedIn (playQueue now s) = loggedIn s
  /\ reconnectInProgress (playQueue now s) = reconnectInProgress s
  /\ cfg (playQueue now s) = cfg s.
Proof.
  unfold playQueue. destruct (protocol_ready s); [|done].
  assert (H1 : queuing (_cleanQueue now s) = queuing s
               /\ loggedIn (_cleanQueue now s) = loggedIn s
               /\ reconnectInProgress (_cleanQueue now s) = reconnectInProgress s
               /\ cfg (_cleanQueue now s) = cfg s).
  { by rewrite QueueFacts.cleanQueue_spec. }
  assert (Hd : forall s0,
            queuing (dequeuingProcess now s0) = queuing s0
            /\ loggedIn (dequeuingProcess now s0) = loggedIn s0
            /\ reconnectInProgress (dequeuingProcess now s0) = reconnectInProgress s0
            /\ cfg (dequeuingProcess now s0) = cfg s0).
  { intros s0. destruct (offlineQueue s0) as [|e q] eqn:Hq.
    - by rewrite QueueFacts.dequeuingProcess_nil.
    - by rewrite (QueueFacts.dequeuingProcess_cons now s0 e q Hq). }
  unfold _dequeue.
  destruct (offlineQueueLoader (cfg (_cleanQueue now s))); [done|].
  destruct (Hd (_cleanQueue now s)) as (-> & -> & -> & ->). done.
Qed.

Lemma playQueue_lastEmitted (now : Z) (s : SDK) :
  lastEmitted (playQueue now s) = lastEmitted s.
Proof.
  unfold playQueue. destruct (protocol_ready s); [|done].
  assert (H1 : lastEmitted (_cleanQueue now s) = lastEmitted s)
    by (by rewrite QueueFacts.cleanQueue_spec).
  assert (Hd : forall s0, lastEmitted (dequeuingProcess now s0) = lastEmitted s0).
  { intros s0. destruct (offlineQueue s0) as [|e q] eqn:Hq.
    - by rewrite QueueFacts.dequeuingProcess_nil.
    - by rewrite (QueueFacts.dequeuingProcess_cons now s0 e q Hq). }
  unfold _dequeue.
  destruct (offlineQueueLoader (cfg (_cleanQueue now s))); [done|].
  by rewrite Hd.
Qed.

(** [playQueue] on a ready transport: the queue is cleaned; without a
    loader its first entry is sent, with a loader one more answer is
    awaited. *)
Lemma playQueue_spec (now : Z) (s : SDK) :
  protocol_ready s = true ->
  let q := drop (evicted now (cfg s) (offlineQueue s)) (offlineQueue s) in
  (offlineQueueLoader (cfg s) = None ->
   trace (playQueue now s)
   = trace s ++ evictionEffects now (cfg s) (offlineQueue s)
     ++ flat_map (replayStep (replayInterval (cfg s))) (take 1 q)
   /\ offlineQueue (playQueue now s) = drop 1 q
   /\ pendingLoads (playQueue now s) = pendingLoads s)
  /\ (is_Some (offlineQueueLoader (cfg s)) ->
      trace (playQueue now s) = trace s ++ evictionEffects now (cfg s) (offlineQueue s)
      /\ offlineQueue (playQueue now s) = q
      /\ pendingLoads (playQueue now s) = S (pendingLoads s)).
Proof.
  intros Hr q. unfold playQueue. rewrite Hr. unfold _dequeue.
  rewrite QueueFacts.cleanQueue_spec. simpl cfg. fold q. split.
  - intros ->. destruct q as [|e k] eqn:Hq.
    + rewrite QueueFacts.dequeuingProcess_nil by done. simpl.
      by rewrite app_nil_r.
    + rewrite (QueueFacts.dequeuingProcess_cons _ _ e k) by done. simpl.
      rewrite app_nil_r, <- app_assoc. done.
  - intros [L ->]. done.
Qed.

Lemma emit_flags (now : Z) (ev : string) (p : payload) (s : SDK) :
  queuing (emit now ev p s) = queuing s
  /\ loggedIn (emit now ev p s) = loggedIn s
  /\ reconnectInProgress (emit now ev p s) = reconnectInProgress s
  /\ cfg (emit now ev p s) = cfg s.
Proof.
  destruct (throttled now ev s) eqn:Ht.
  - by rewrite EmitFacts.emit_throttled.
  - rewrite EmitFacts.emit_delivered by done.
    by destruct (protectedEvent ev).
Qed.

(** X13. With [autoQueue], a network error reported by the transport
    switches queuing on, and the [networkError] event follows; a queuable
    request made from then on is put at the end of the queue and is not
    sent. *)
Theorem network_error_starts_queuing (w : Env) (st : State)
    (req options : gmap string json) (uuid : string) (now : Z) (s' : SDK)
    (r : Request) :
  autoQueue (cfg (sdk st)) = true ->
  let st1 := fst (handle OnNetworkError w st) in
  queuing (sdk st1) = true
  /\ trace (sdk st1) = trace (sdk st) ++ [Emitted "networkError" (env_arg w)]
  /\ (queueFilter (cfg (sdk st)) = None -> options !! "queuable" = None ->
      query (JObj req) (JObj options) uuid now (sdk st1) = Normal (s', r) ->
      sent (trace s') = sent (trace (sdk st))
      /\ exists t n,
           offlineQueue s'
           = drop n (offlineQueue (sdk st))
             ++ [{| request := Some r; timeout := t; ts := now;
                    promise := next_promise (sdk st) |}]).
Proof.
  intros Ha st1. unfold st1. simpl. rewrite Ha.
  rewrite QueueFacts.emit_unprotected by reflexivity.
  simpl. split; [done|]. split; [done|].
  intros Hf Ho Hq.
  apply QueueFacts.query_enqueues in Hq as (h & t & ->); [|done..].
  rewrite QueueFacts.dispatch_enqueue by done. simpl.
  split.
  - rewrite !QueueFacts.sent_app, QueueFacts.sent_evictionEffects. simpl.
    by rewrite !app_nil_r.
  - eauto.
Qed.

(** X14. When the transport connects, or reconnects while nobody is
    logged in, an SDK with [autoQueue] and [autoReplay] stops queuing and
    cleans the queue. Without a queue loader the replay starts before
    [connected] or [reconnected] is emitted: the oldest request left is
    handed to the transport at once, the others waiting for the replay
    timer. With a loader nothing is sent by the listener: the event is
    emitted, and the replay waits for the answer of the loader. *)
Theorem reconnection_replays_queue (h : handler) (w : Env) (st : State) :
  h = OnConnect
  \/ (h = OnReconnect /\ reconnectInProgress (sdk st) = false
      /\ loggedIn (sdk st) = false) ->
  autoQueue (cfg (sdk st)) = true -> autoReplay (cfg (sdk st)) = true ->
  protocol_ready (sdk st) = true ->
  let st1 := fst (handle h w st) in
  let q := drop (evicted (env_now w) (cfg (sdk st)) (offlineQueue (sdk st)))
                (offlineQueue (sdk st)) in
  let ev := match h with OnConnect => "connected" | _ => "reconnected" end in
  let emission :=
    if throttled (env_now w) ev (sdk st) then [] else [Emitted ev PVoid] in
  queuing (sdk st1) = false
  /\ (offlineQueueLoader (cfg (sdk st)) = None ->
      trace (sdk st1)
      = trace (sdk st)
        ++ evictionEffects (env_now w) (cfg (sdk st)) (offlineQueue (sdk st))
        ++ flat_map (replayStep (replayInterval (cfg (sdk st)))) (take 1 q)
        ++ emission
      /\ sent (trace (sdk st1))
         = sent (trace (sdk st)) ++ map (fun e => (request e, promise e)) (take 1 q)
      /\ offlineQueue (sdk st1) = drop 1 q
      /\ pendingLoads (sdk st1) = pendingLoads (sdk st))
  /\ (is_Some (offlineQueueLoader (cfg (sdk st))) ->
      trace (sdk st1)
      = trace (sdk st)
        ++ evictionEffects (env_now w) (cfg (sdk st)) (offlineQueue (sdk st))
        ++ emission
      /\ sent (trace (sdk st1)) = sent (trace (sdk st))
      /\ offlineQueue (sdk st1) = q
      /\ pendingLoads (sdk st1) = S (pendingLoads (sdk st))).
Proof.
  intros Hh Ha Hr Hready st1 q ev emission.
  set (s0 := stopQueuing (sdk st)).
  destruct (playQueue_spec (env_now w) s0 Hready) as [Hnone Hsome].
  simpl in Hnone, Hsome. fold q in Hnone, Hsome.
  destruct (playQueue_flags (env_now w) s0) as (Hqu & _ & _ & Hcfg).
  pose proof (playQueue_lastEmitted (env_now w) s0) as Hlast.
  simpl in Hqu, Hcfg, Hlast.
  set (s2 := playQueue (env_now w) s0) in *.
  assert (Hgen : forall name (post : SDK -> SDK),
            (forall x, trace (post x) = trace x /\ queuing (post x) = queuing x
                       /\ offlineQueue (post x) = offlineQueue x
                       /\ pendingLoads (post x) = pendingLoads x) ->
            let s3 := post (emit (env_now w) name PVoid s2) in
            queuing s3 = false
            /\ trace s3 = trace s2
                          ++ (if throttled (env_now w) name (sdk st) then []
                              else [Emitted name PVoid])
            /\ offlineQueue s3 = offlineQueue s2
            /\ pendingLoads s3 = pendingLoads s2).
  { intros name post Hpost s3. unfold s3.
    destruct (Hpost (emit (env_now w) name PVoid s2)) as (-> & -> & -> & ->).
    assert (Hth : throttled (env_now w) name s2 = throttled (env_now w) name (sdk st))
      by (by apply throttled_frame).
    rewrite <- Hth.
    destruct (throttled (env_now w) name s2) eqn:Ht.
    - rewrite EmitFacts.emit_throttled by done. by rewrite app_nil_r.
    - rewrite EmitFacts.emit_delivered by done.
      by destruct (protectedEvent name). }
  assert (Hst1 : exists post,
            sdk st1 = post (emit (env_now w) ev PVoid s2)
            /\ forall x, trace (post x) = trace x /\ queuing (post x) = queuing x
                         /\ offlineQueue (post x) = offlineQueue x
                         /\ pendingLoads (post x) = pendingLoads x).
  { destruct Hh as [->|(-> & Hrp & Hli)].
    - exists (fun x => if throttled (env_now w) "connected" s2 then x
                       else onConnected (env_connected w) x).
      split.
      + unfold st1. simpl. rewrite Ha. fold s0. simpl. rewrite Hr. fold s2.
        by destruct (throttled (env_now w) "connected" s2).
      + intros x. destruct (throttled (env_now w) "connected" s2); [done|].
        unfold onConnected, refreshLoggedIn.
        by destruct (isAuthenticated _); split_and!.
    - exists (fun x => x). split; [|done].
      unfold st1. simpl. unfold _reconnect. rewrite Hrp, Ha. fold s0.
      simpl. rewrite Hli, Hr. fold s2. done. }
  destruct Hst1 as (post & -> & Hpost).
  destruct (Hgen ev post Hpost) as (H1 & H2 & H3 & H4).
  fold emission in H2.
  split; [done|]. split.
  - intros HL. destruct (Hnone HL) as (Ht & Hq & Hl).
    rewrite H2, H3, H4, Ht, Hq, Hl. split_and!; try done.
    + by rewrite <- !app_assoc.
    + rewrite !QueueFacts.sent_app, QueueFacts.sent_evictionEffects,
        QueueFacts.sent_replay.
      unfold emission. destruct (throttled _ _ _); simpl; by rewrite ?app_nil_r.
  - intros HL. destruct (Hsome HL) as (Ht & Hq & Hl).
    rewrite H2, H3, H4, Ht, Hq, Hl. split_and!; try done.
    + by rewrite <- !app_assoc.
    + rewrite !QueueFacts.sent_app, QueueFacts.sent_evictionEffects.
      unfold emission. destruct (throttled _ _ _); simpl; by rewrite ?app_nil_r.
Qed.

(** While the transport renews its connection (between
    [websocketRenewalStart] and [websocketRenewalDone]), the [reconnect]
    and [tokenExpired] events of the transport are ignored, however many of
    them arrive: the SDK is left exactly as it was. *)
Lemma renewal_suspends_reconnection (w0 : Env) (evs : list (handler * Env))
    (st : State) :
  Forall (fun x => x.1 = OnReconnect \/ x.1 = OnTokenExpired) evs ->
  let st1 := fst (handle OnRenewalStart w0 st) in
  handleAll evs st1 = st1
  /\ forall w1, reconnectInProgress (sdk (fst (handle OnRenewalDone w1 st1))) = false.
Proof.
  intros Hevs st1. split; [|done].
  induction Hevs as [|[h w] l Hh _ IH]; [done|].
  unfold handleAll in *. simpl in *.
  destruct Hh as [->| ->]; simpl.
  - unfold _reconnect. simpl. exact IH.
  - unfold tokenExpired. simpl. exact IH.
Qed.

Lemma tokenExpired_flags (now later : Z) (check1 check2 : CheckToken) (st : State) :
  queuing (sdk (fst (tokenExpired now later check1 check2 st))) = queuing (sdk st).
Proof.
  unfold tokenExpired.
  destruct (reconnectInProgress (sdk st)); [done|].
  assert (H1 : queuing (fst (if loggedIn (sdk st)
                             then tryReAuthenticate now check1 check2 (sdk st)
                             else (sdk st, Normal false))) = queuing (sdk st)).
  { destruct (loggedIn (sdk st)); [|done].
    by destruct (reauthentication_outcome_aux now check1 check2 (sdk st))
      as (_ & _ & _ & _ & ? & _). }
  destruct (if loggedIn (sdk st)
            then tryReAuthenticate now check1 check2 (sdk st)
            else (sdk st, Normal false)) as [s1 [[]|]]; cbn -[emit] in *.
  - by destruct (emit_flags later "reAuthenticated" PVoid s1) as (-> & _).
  - destruct (Z.ltb _ _); cbn -[emit]; [done|].
    by destruct (emit_flags later "tokenExpired" PVoid (set_loggedIn false s1))
      as (-> & _).
  - done.
Qed.

(** X15. Without [autoQueue], the SDK never switches queuing on or off by
    itself: [connect] and every listener it attaches to the transport
    leave [queuing] as the application set it with [startQueuing] and
    [stopQueuing]. *)
Theorem queuing_is_manual_without_autoQueue (st : State) :
  autoQueue (cfg (sdk st)) = false ->
  queuing (connect (sdk st)) = queuing (sdk st)
  /\ forall h w, queuing (sdk (fst (handle h w st))) = queuing (sdk st).
Proof.
  intros Ha. split.
  - unfold connect. destruct (protocol_ready (sdk st)); [done|]. by rewrite Ha.
  - intros h w. destruct h; simpl; rewrite ?Ha;
      try (by destruct (emit_flags (env_now w) "queryError" (env_arg w) (sdk st))
             as (-> & _));
      try (by destruct (emit_flags (env_now w) "networkError" (env_arg w) (sdk st))
             as (-> & _));
      try (by destruct (emit_flags (env_now w) "disconnected" (env_arg w) (sdk st))
             as (-> & _));
      try (by destruct (emit_flags (env_now w) "discarded" (env_arg w) (sdk st))
             as (-> & _));
      try done.
    + apply tokenExpired_flags.
    + set (s1 := if autoReplay (cfg (sdk st)) then playQueue (env_now w) (sdk st)
                 else sdk st).
      assert (H1 : queuing s1 = queuing (sdk st)).
      { unfold s1. destruct (autoReplay _); [|done].
        by destruct (playQueue_flags (env_now w) (sdk st)) as (-> & _). }
      destruct (emit_flags (env_now w) "connected" PVoid s1) as (He & _).
      destruct (throttled _ _ _); simpl; [congruence|].
      unfold onConnected, refreshLoggedIn.
      destruct (isAuthenticated _); simpl; congruence.
    + unfold _reconnect. destruct (reconnectInProgress (sdk st)); [done|].
      rewrite Ha.
      assert (Hres : forall s1, queuing s1 = queuing (sdk st) ->
                queuing (emit (env_now w) "reconnected" PVoid
                           (if autoReplay (cfg s1) then playQueue (env_now w) s1
                            else s1)) = queuing (sdk st)).
      { intros s1 H1.
        destruct (emit_flags (env_now w) "reconnected" PVoid
                    (if autoReplay (cfg s1) then playQueue (env_now w) s1 else s1))
          as (-> & _).
        destruct (autoReplay _); [|done].
        by destruct (playQueue_flags (env_now w) s1) as (-> & _). }
      destruct (loggedIn (sdk st)).
      * destruct (reauthentication_outcome_aux (env_now w) (env_check1 w)
                    (env_check2 w) (sdk st)) as (_ & _ & _ & _ & Hq & _).
        destruct (tryReAuthenticate _ _ _ _) as [s1 [[]|]]; simpl in *.
        -- by apply Hres.
        -- done.
        -- done.
      * simpl. by apply Hres.
Qed.

End SessionFacts.

Module SessionExamples.
Import Kuzzle Session Scenario SessionScenario.
#[local] Open Scope list_scope.

(** A token that is refused, then renewed by the authenticator. *)
Example reauthenticated_by_authenticator :
  let r := tryReAuthenticate 5 (Checked false "-1") (Checked true "user")
             (set_loggedIn true (online (withAuthenticator AuthenticatorReturns))) in
  snd r = Normal true /\ trace (fst r) = [CallAuthenticator].
Proof. vm_compute. done. Qed.

(** A token check that fails: the authenticator is not tried. *)
Example failed_check_skips_authenticator :
  let r := tryReAuthenticate 5 (CheckFails "timeout") (Checked true "user")
             (set_loggedIn true (online (withAuthenticator AuthenticatorReturns))) in
  snd r = Normal false
  /\ trace (fst r)
     = [Emitted "reconnectionError"
          (PError "Failed to authenticate the SDK after reconnection: timeout")].
Proof. vm_compute. done. Qed.

Lemma tokenExpired_reauthenticates_witness :
  jwt (fst (tokenExpired 5 6 (Checked true "user") (Checked true "user")
              (loggedInSession config))) = Some "token".
Proof.
  apply (proj2 (SessionFacts.tokenExpired_reauthenticates 5 6
                  (Checked true "user") (Checked true "user")
                  (loggedInSession config))).
  - reflexivity.
  - reflexivity.
  - reflexivity.
Defined.

Lemma tokenExpired_clears_token_once_witness :
  jwt (fst (tokenExpired 5000 5001 (Checked false "-1") (Checked false "-1")
              (loggedInSession config))) = None.
Proof.
  apply (SessionFacts.tokenExpired_clears_token_once 5000 5001
           (Checked false "-1") (Checked false "-1") (loggedInSession config)).
  - reflexivity.
  - intros _. reflexivity.
  - simpl. lia.
Defined.

Lemma network_error_starts_queuing_witness :
  queuing (sdk (fst (handle OnNetworkError (at_ 5) (session (online autoConfig)))))
  = true.
Proof.
  apply (SessionFacts.network_error_starts_queuing (at_ 5)
           (session (online autoConfig)) ∅ ∅ "uuid" 6 (online autoConfig)
           {| fields := ∅; volatile_ref := None |}).
  reflexivity.
Defined.

Lemma reconnection_replays_queue_witness :
  sent (trace (sdk (fst (handle OnConnect (at_ 9) (session reconnecting)))))
  = [(request queued_a, promise queued_a)].
Proof.
  apply (SessionFacts.reconnection_replays_queue OnConnect (at_ 9)
           (session reconnecting)).
  - left. reflexivity.
  - reflexivity.
  - reflexivity.
  - reflexivity.
  - reflexivity.
Defined.

Lemma renewal_suspends_reconnection_witness :
  handleAll [(OnReconnect, at_ 5); (OnTokenExpired, at_ 6)]
    (fst (handle OnRenewalStart (at_ 4) (session reconnecting)))
  = fst (handle OnRenewalStart (at_ 4) (session reconnecting)).
Proof.
  apply (SessionFacts.renewal_suspends_reconnection (at_ 4)
           [(OnReconnect, at_ 5); (OnTokenExpired, at_ 6)] (session reconnecting)).
  constructor; [left; reflexivity|].
  constructor; [right; reflexivity|].
  constructor.
Defined.

Lemma queuing_is_manual_without_autoQueue_witness :
  queuing (sdk (fst (handle OnNetworkError (at_ 5) (session (online config)))))
  = queuing (online config).
Proof.
  apply (SessionFacts.queuing_is_manual_without_autoQueue (session (online config))).
  reflexivity.
Defined.

(** With a queue loader, [connected] is emitted before anything is
    replayed: the replay starts when the loader has answered. *)
Example connected_before_loaded_replay :
  let st := performAll [ProtocolEvent OnConnect (at_ 9); LoaderAnswers 10]
              (session (online autoWithLoader)) in
  trace (sdk st)
  = [Emitted "connected" PVoid;
     ProtocolQuery (request loaded_a) (promise loaded_a);
     Emitted "offlineQueuePop" (PRequest (request loaded_a));
     SetTimeout 10].
Proof. vm_compute. reflexivity. Qed.

(** The offline mode from end to end: a network error, two requests, the
    reconnection, a replay timer. *)
Example automatic_offline_mode :
  let st := performAll
              [ProtocolEvent OnNetworkError (at_ 1);
               Query (get "r0" 2); Query (get "r1" 3);
               ProtocolReady true;
               ProtocolEvent OnReconnect (at_ 4); ReplayTimer 5]
              (session (online autoConfig)) in
  requestIds (sent (trace (sdk st))) = [Some (JStr "r0"); Some (JStr "r1")]
  /\ queuing (sdk st) = false
  /\ emitted "reconnected" (trace (sdk st)) = [PVoid].
Proof. vm_compute. done. Qed.

End SessionExamples.

(** ** The realtime observer *)

Module ObservingFacts.
Import Observer Observing.
#[local] Open Scope list_scope.

Lemma addDocument_spec (index collection id : string) (source : gmap string json)
    (o : State) :
  addDocument index collection id source o =
  ({| documentsByCollection :=
        <[collectionUrn index collection :=
            {| ids := set_add id
                        (ids (default {| ids := []; roomId := None |}
                                (documentsByCollection o
                                   !! collectionUrn index collection)));
               roomId := roomId (default {| ids := []; roomId := None |}
                                   (documentsByCollection o
                                      !! collectionUrn index collection)) |}]>
          (documentsByCollection o);
      documents :=
        <[documentUrn index collection id := fresh (dom (heap o))]> (documents o);
      heap := <[fresh (dom (heap o)) :=
                  {| _id := id; _source := source; deleted := false |}]> (heap o);
      calls := calls o |},
   fresh (dom (heap o))).
Proof.
  unfold addDocument. simpl.
  destruct (documentsByCollection o !! collectionUrn index collection)
    as [b|] eqn:Hb; simpl.
  - rewrite Hb. reflexivity.
  - rewrite lookup_insert_eq. simpl. unfold set_buckets, set_documents. simpl.
    by rewrite insert_insert_eq.
Qed.

Lemma set_add_cons (id : string) (l : list string) :
  exists x rest, set_add id l = x :: rest.
Proof.
  unfold set_add. destruct (bool_decide (id ∈ l)) eqn:H.
  - apply bool_decide_eq_true in H. destruct l; [by apply elem_of_nil in H|eauto].
  - destruct l; simpl; eauto.
Qed.

Lemma resubscribe_renew (index collection newRoom : string) (o : State)
    (b : ObservedDocuments) (x : string) (rest : list string) :
  documentsByCollection o !! collectionUrn index collection = Some b ->
  ids b = x :: rest ->
  resubscribe index collection (Normal newRoom) o =
  ({| documentsByCollection :=
        <[collectionUrn index collection :=
            {| ids := ids b; roomId := Some newRoom |}]> (documentsByCollection o);
      documents := documents o; heap := heap o;
      calls := calls o ++ [Subscribe index collection (ids b)]
               ++ match truthyRoom (roomId b) with
                  | Some room => [Unsubscribe (Some room)]
                  | None => []
                  end |},
   Normal tt).
Proof.
  intros Hb Hi. unfold resubscribe. rewrite Hb, Hi. rewrite <- Hi.
  destruct (truthyRoom (roomId b)); simpl.
  - unfold realtime. simpl. by rewrite <- app_assoc.
  - done.
Qed.

Lemma resubscribe_fails (index collection msg : string) (o : State)
    (b : ObservedDocuments) (x : string) (rest : list string) :
  documentsByCollection o !! collectionUrn index collection = Some b ->
  ids b = x :: rest ->
  resubscribe index collection (Throw msg) o =
  (realtime (Subscribe index collection (ids b)) o, Throw msg).
Proof. intros Hb Hi. unfold resubscribe. rewrite Hb, Hi. reflexivity. Qed.

(** X16. [observe] registers the document, then renews the subscription of
    its collection: one [subscribe] whose filter lists every id observed in
    the collection, the new one included, and only once it has answered,
    the [unsubscribe] of the previous room, if there was one. The bucket
    then holds the new room. *)
Theorem observe_subscribes_before_unsubscribing (index collection id : string)
    (source : gmap string json) (newRoom : string) (o : State) :
  let b0 := default {| ids := []; roomId := None |}
              (documentsByCollection o !! collectionUrn index collection) in
  let o' := fst (observe index collection id source (Normal newRoom) o) in
  snd (observe index collection id source (Normal newRoom) o)
  = Normal (fresh (dom (heap o)))
  /\ calls o' = calls o ++ [Subscribe index collection (set_add id (ids b0))]
                ++ match truthyRoom (roomId b0) with
                   | Some room => [Unsubscribe (Some room)]
                   | None => []
                   end
  /\ documentsByCollection o' !! collectionUrn index collection
     = Some {| ids := set_add id (ids b0); roomId := Some newRoom |}
  /\ tracked o' (documentUrn index collection id)
     = Some (fresh (dom (heap o)),
             {| _id := id; _source := source; deleted := false |}).
Proof.
  intros b0 o'. unfold o', observe. rewrite addDocument_spec. fold b0.
  destruct (set_add_cons id (ids b0)) as (x & rest & Hx).
  erewrite resubscribe_renew; [|apply lookup_insert_eq|exact Hx].
  simpl. split; [done|]. split; [done|].
  split; [by rewrite lookup_insert_eq|].
  unfold tracked. simpl. by rewrite !lookup_insert_eq.
Qed.

(** X17. When the subscription fails, [observe] rejects, but the document
    stays registered: it is in the map of documents and in the ids of its
    collection, with no subscription that covers it; the previous room, if
    any, is kept and is not unsubscribed. *)
Theorem failed_subscription_leaves_document_tracked (index collection id : string)
    (source : gmap string json) (msg : string) (o : State) :
  let b0 := default {| ids := []; roomId := None |}
              (documentsByCollection o !! collectionUrn index collection) in
  let o' := fst (observe index collection id source (Throw msg) o) in
  snd (observe index collection id source (Throw msg) o) = Throw msg
  /\ calls o' = calls o ++ [Subscribe index collection (set_add id (ids b0))]
  /\ documentsByCollection o' !! collectionUrn index collection
     = Some {| ids := set_add id (ids b0); roomId := roomId b0 |}
  /\ tracked o' (documentUrn index collection id)
     = Some (fresh (dom (heap o)),
             {| _id := id; _source := source; deleted := false |}).
Proof.
  intros b0 o'. unfold o', observe. rewrite addDocument_spec. fold b0.
  destruct (set_add_cons id (ids b0)) as (x & rest & Hx).
  erewrite resubscribe_fails; [|apply lookup_insert_eq|exact Hx].
  simpl. split; [done|]. split; [done|].
  split; [by rewrite lookup_insert_eq|].
  unfold tracked. simpl. by rewrite !lookup_insert_eq.
Qed.

Lemma fresh_heap (o : State) : heap o !! fresh (dom (heap o)) = None.
Proof. apply not_elem_of_dom, is_fresh. Qed.

(** X18. Observing again a document that is observed already yields a new
    realtime document and detaches the previous one: the ids of the
    collection are unchanged, the observer now updates the new object only, and a
    later [write] notification leaves the first object as it was. *)
Theorem observed_again_goes_stale (index collection id : string)
    (source1 source2 : gmap string json) (room1 room2 : string)
    (subscribed : completion string) (n : Notification) (o o1 o2 : State)
    (l1 l2 : nat) :
  observe index collection id source1 (Normal room1) o = (o1, Normal l1) ->
  observe index collection id source2 (Normal room2) o1 = (o2, Normal l2) ->
  event n = "write" -> Observer.index n = index ->
  Observer.collection n = collection -> result_id n = id ->
  let o3 := fst (notificationHandler n subscribed o2) in
  l1 <> l2
  /\ (exists b1 b2,
        documentsByCollection o1 !! collectionUrn index collection = Some b1
        /\ documentsByCollection o2 !! collectionUrn index collection = Some b2
        /\ ids b2 = ids b1)
  /\ heap o3 !! l1 = Some {| _id := id; _source := source1; deleted := false |}
  /\ heap o3 !! l2
     = Some {| _id := id; _source := result_source n ∪ source2; deleted := false |}.
Proof.
  intros H1 H2 Hev Hi Hc Hid o3.
  pose proof (observe_subscribes_before_unsubscribing index collection id source1
                room1 o) as (Hr1 & _ & Hb1 & Ht1).
  rewrite H1 in Hr1, Hb1, Ht1. simpl in Hr1, Hb1, Ht1.
  pose proof (observe_subscribes_before_unsubscribing index collection id source2
                room2 o1) as (Hr2 & _ & Hb2 & Ht2).
  rewrite H2 in Hr2, Hb2, Ht2. simpl in Hr2, Hb2, Ht2.
  injection Hr1 as ->. injection Hr2 as ->.
  assert (Hh1 : heap o1 !! fresh (dom (heap o))
                = Some {| _id := id; _source := source1; deleted := false |}).
  { unfold tracked in Ht1. destruct (documents o1 !! _) as [l|]; [|done].
    destruct (heap o1 !! l) eqn:Hl; [|done]. by simplify_eq. }
  assert (Hne : fresh (dom (heap o)) <> fresh (dom (heap o1))).
  { intros Heq. pose proof (fresh_heap o1) as Hf. rewrite <- Heq in Hf. congruence. }
  split; [done|].
  assert (Hh2 : heap o2 = <[fresh (dom (heap o1)) :=
                              {| _id := id; _source := source2; deleted := false |}]>
                            (heap o1)).
  { unfold observe in H2. rewrite addDocument_spec in H2.
    destruct (set_add_cons id
                (ids (default {| ids := []; roomId := None |}
                        (documentsByCollection o1 !! collectionUrn index collection))))
      as (x & rest & Hx).
    erewrite resubscribe_renew in H2; [|apply lookup_insert_eq|exact Hx].
    injection H2 as <-. done. }
  split.
  { do 2 eexists. split; [exact Hb1|]. split; [exact Hb2|]. simpl.
    rewrite Hb1. simpl. unfold set_add at 1.
    rewrite bool_decide_eq_true_2; [done|].
    unfold set_add. case_bool_decide; [done|]. apply elem_of_app. right.
    by apply list_elem_of_singleton. }
  unfold o3, notificationHandler. rewrite Hev, Hi, Hc, Hid. simpl.
  rewrite Ht2. simpl. rewrite Hh2.
  split.
  - rewrite lookup_insert_ne by done. rewrite lookup_insert_ne by done. done.
  - by rewrite lookup_insert_eq.
Qed.


(** X19. A [write] notification for a tracked document assigns the
    properties of the notification's [_source] over those of the realtime
    document: a property that the notification carries is replaced, the
    others are kept. Nothing else changes, and no call is made to the
    realtime controller. A notification that is neither a [write] nor a
    [delete] changes nothing and never throws, tracked document or not. *)
Theorem write_assigns_source (n : Notification) (subscribed : completion string)
    (o : State) :
  (forall l d,
     event n = "write" ->
     tracked o (documentUrn (index n) (collection n) (result_id n)) = Some (l, d) ->
     exists d',
       notificationHandler n subscribed o = (set_heap (<[l := d']> (heap o)) o, Normal tt)
       /\ _id d' = _id d /\ deleted d' = deleted d
       /\ forall k, _source d' !! k
                    = match result_source n !! k with
                      | Some v => Some v
                      | None => _source d !! k
                      end)
  /\ (event n <> "write" -> event n <> "delete" ->
      notificationHandler n subscribed o = (o, Normal tt)).
Proof.
  split.
  - intros l d Hev Ht. unfold notificationHandler. rewrite Hev, Ht. simpl.
    eexists. split; [reflexivity|]. simpl. split; [done|]. split; [done|].
    intros k. rewrite lookup_union.
    destruct (result_source n !! k), (_source d !! k); done.
  - intros Hw Hd. unfold notificationHandler.
    apply String.eqb_neq in Hw, Hd. rewrite Hw, Hd. reflexivity.
Qed.






Lemma urn_prefix (a b rest1 rest2 : string) :
  colonFree a = true -> colonFree b = true ->
  a +:+ String colon rest1 = b +:+ String colon rest2 ->
  a = b /\ rest1 = rest2.
Proof.
  revert b. induction a as [|c a IH]; intros b Ha Hb H.
  - destruct b as [|c' b]; simpl in H.
    + by injection H as ->.
    + injection H as Hc _. subst c'. cbn in Hb. discriminate.
  - destruct b as [|c' b]; simpl in H.
    + injection H as Hc _. subst c. cbn in Ha. discriminate.
    + injection H as -> H. simpl in Ha, Hb.
      apply andb_prop in Ha as [_ Ha]. apply andb_prop in Hb as [_ Hb].
      destruct (IH b Ha Hb H) as [-> ->]. done.
Qed.

(** X23. The urns that key the two maps of the observer tell documents
    apart as long as index and collection names hold no colon: two
    documents have the same urn only if they have the same index, the same
    collection and the same id (which may hold colons). *)
Theorem documentUrn_injective (index1 collection1 id1 index2 collection2 id2 : string) :
  colonFree index1 = true -> colonFree collection1 = true ->
  colonFree index2 = true -> colonFree collection2 = true ->
  (collectionUrn index1 collection1 = collectionUrn index2 collection2 ->
   index1 = index2 /\ collection1 = collection2)
  /\ (documentUrn index1 collection1 id1 = documentUrn index2 collection2 id2 ->
      index1 = index2 /\ collection1 = collection2 /\ id1 = id2).
Proof.
  intros Hi1 Hc1 Hi2 Hc2. split.
  - unfold collectionUrn. intros H.
    change (index1 +:+ String colon collection1
            = index2 +:+ String colon collection2) in H.
    by apply urn_prefix in H.
  - unfold documentUrn. intros H.
    change (index1 +:+ String colon (collection1 +:+ String colon id1)
            = index2 +:+ String colon (collection2 +:+ String colon id2)) in H.
    apply urn_prefix in H as [-> H]; [|done..].
    apply urn_prefix in H as [-> ->]; done.
Qed.






End ObservingFacts.

Module ObservingExamples.
Import Observer Observing ObserverScenario.
#[local] Open Scope list_scope.

Lemma observed_again_goes_stale_witness :
  heap (fst (notificationHandler (writeOf "d") (Normal "room-3")
               (fst (observe "i" "c" "d" ∅ (Normal "room-2") observing))))
    !! 0%nat
  = Some {| _id := "d"; _source := {["name" := JStr "x"]}; deleted := false |}.
Proof.
  apply (ObservingFacts.observed_again_goes_stale "i" "c" "d"
           {["name" := JStr "x"]} ∅ "room-1" "room-2" (Normal "room-3")
           (writeOf "d") empty observing
           (fst (observe "i" "c" "d" ∅ (Normal "room-2") observing)) 0 1).
  - vm_compute. reflexivity.
  - vm_compute. reflexivity.
  - reflexivity.
  - reflexivity.
  - reflexivity.
  - reflexivity.
Defined.

Lemma write_assigns_source_witness :
  exists d',
    notificationHandler (writeOf "d") (Normal "room-2") observing
    = (set_heap (<[0%nat := d']> (heap observing)) observing, Normal tt)
    /\ _id d' = "d".
Proof.
  destruct (proj1 (ObservingFacts.write_assigns_source (writeOf "d")
                     (Normal "room-2") observing)
              0%nat {| _id := "d"; _source := {["name" := JStr "x"]};
                       deleted := false |})
    as (d' & H & Hid & _).
  - reflexivity.
  - vm_compute. reflexivity.
  - exists d'. split; [exact H|exact Hid].
Defined.




Lemma documentUrn_injective_witness :
  (collectionUrn "i" "c" = collectionUrn "i" "c" -> "i" = "i" /\ "c" = "c")
  /\ (documentUrn "i" "c" "a:b" = documentUrn "i" "c" "a:b" ->
      "i" = "i" /\ "c" = "c" /\ "a:b" = "a:b").
Proof.
  apply (ObservingFacts.documentUrn_injective "i" "c" "a:b" "i" "c" "a:b").
  - reflexivity.
  - reflexivity.
  - reflexivity.
  - reflexivity.
Defined.

(** With a colon in a collection name, two collections share a urn. *)
Example urns_collide_on_colons :
  collectionUrn "a" "b:c" = collectionUrn "a:b" "c"
  /\ documentUrn "a" "b:c" "d" = documentUrn "a:b" "c" "d".
Proof. split; reflexivity. Qed.


(** A subscription that fails: the document is tracked all the same. *)
Example failed_observe :
  let r := observe "i" "c" "d" ∅ (Throw "offline") empty in
  snd r = Throw "offline" /\ documents (fst r) !! "i:c:d" = Some 0%nat.
Proof. vm_compute. done. Qed.

(** A notification that arrives after [stop()]. *)
Example late_notification :
  snd (notificationHandler (deleteOf "d") (Normal "room-3")
         (fst (stop None None None (Normal "room-3") observing)))
  = Throw "TypeError: Cannot set properties of undefined (setting 'deleted')".
Proof. vm_compute. reflexivity. Qed.

End ObservingExamples.

(** ** The generated document controller *)

Module DocumentGenFacts.
Import DocumentGen.
#[local] Open Scope list_scope.

Lemma options_is_last (arguments : list nat) (args : list json) (st : gmap nat Param) :
  arguments <> [] -> (invoke arguments args st).1.2 = last args.
Proof.
  intros Hne. unfold invoke. destruct arguments as [|first rest]; [done|].
  simpl. destruct args as [|a args]; [done|].
  rewrite last_lookup. simpl. by rewrite Nat.sub_0_r.
Qed.

Lemma insertSorted_elem (st : gmap nat Param) (a r : nat) (l : list nat) :
  r ∈ insertSorted st a l <-> r = a \/ r ∈ l.
Proof.
  induction l as [|b l IH]; simpl.
  - rewrite list_elem_of_singleton, elem_of_nil. tauto.
  - destruct (before st a b).
    + by rewrite elem_of_cons.
    + rewrite !elem_of_cons, IH. tauto.
Qed.

Lemma sortByPosition_elem (st : gmap nat Param) (r : nat) (l : list nat) :
  r ∈ sortByPosition st l <-> r ∈ l.
Proof.
  induction l as [|a l IH]; simpl; [done|].
  by rewrite insertSorted_elem, elem_of_cons, IH.
Qed.

(** A property that no argument names is left as it was by the loop that
    fills the request. *)
Lemma fill_other (st : gmap nat Param) (args : list json) (l : list nat)
    (request : gmap string (option json)) (k : string) :
  (forall r e, r ∈ l -> st !! r = Some e -> name e <> k) ->
  fold_left
    (fun request r =>
       match st !! r with
       | Some methodArgument =>
           <[name methodArgument := argument args (position methodArgument)]> request
       | None => request
       end) l request !! k = request !! k.
Proof.
  revert request. induction l as [|r l IH]; intros request Hl; [done|].
  simpl. rewrite IH by (intros r' e' Hr'; apply Hl; by apply elem_of_cons; right).
  destruct (st !! r) as [e|] eqn:Hr; [|done].
  rewrite lookup_insert_ne; [done|].
  eapply Hl; [|exact Hr]. apply elem_of_cons. by left.
Qed.

Lemma fill_argument (st : gmap nat Param) (args : list json) (l : list nat)
    (request : gmap string (option json)) (r : nat) (e : Param) :
  NoDup (omap (fun r => name <$> st !! r) l) ->
  r ∈ l -> st !! r = Some e ->
  fold_left
    (fun request r =>
       match st !! r with
       | Some methodArgument =>
           <[name methodArgument := argument args (position methodArgument)]> request
       | None => request
       end) l request !! name e = Some (argument args (position e)).
Proof.
  revert request. induction l as [|a l IH]; intros request Hnd Hr He.
  - by apply elem_of_nil in Hr.
  - simpl. destruct (st !! a) as [ea|] eqn:Ha.
    + simpl in Hnd. rewrite Ha in Hnd. simpl in Hnd.
      apply NoDup_cons in Hnd as [Hfresh Hnd].
      apply elem_of_cons in Hr as [->|Hr].
      * rewrite Ha in He. injection He as <-.
        rewrite fill_other; [by rewrite lookup_insert_eq|].
        intros r' e' Hr' He' Heq. apply Hfresh.
        apply list_elem_of_omap. exists r'. split; [done|].
        by rewrite He', <- Heq.
      * by apply IH.
    + simpl in Hnd. rewrite Ha in Hnd. simpl in Hnd.
      apply elem_of_cons in Hr as [->|Hr]; [congruence|]. by apply IH.
Qed.

(** X25. A generated method has one argument for each parameter of its
    entry whose position is not ['options'] when the controller is
    constructed, and one for the body. Called on the table as it then is,
    the method reads each argument at its rank among the arguments of the
    call (a missing one leaves [undefined]), sets nothing else in the
    request, and takes its options from the last argument of the call,
    even when that argument is one of those read by rank. (The names of
    the arguments are pairwise distinct.) *)
Theorem generated_method_reads_by_rank (definition : Definition_)
    (st : gmap nat Param) (args : list json) :
  let generated := methodArguments definition st in
  let call := invoke generated.1 args generated.2 in
  Forall (fun r => is_Some (st !! r)) (params definition) ->
  NoDup (omap (fun r => name <$> generated.2 !! r) generated.1) ->
  (forall r, r ∈ params definition ->
             r ∈ generated.1 <-> positional st r = true)
  /\ (forall r e, r ∈ generated.1 -> generated.2 !! r = Some e ->
        exists n, position e = At n /\ call.1.1 !! name e = Some (args !! n))
  /\ (forall k, (forall r e, r ∈ generated.1 -> generated.2 !! r = Some e ->
                             name e <> k) ->
                call.1.1 !! k = None)
  /\ (generated.1 <> [] -> call.1.2 = last args).
Proof.
  intros generated call Hparams Hnd.
  rewrite Forall_forall in Hparams.
  set (kept := filter (fun r => positional st r = true) (params definition)).
  assert (Hfresh : forall r, r ∈ params definition -> r <> fresh (dom st)).
  { intros r Hr ->. apply Hparams in Hr. apply elem_of_dom in Hr.
    by apply is_fresh in Hr. }
  assert (Hgen : exists body,
            generated = (sortByPosition generated.2 (kept ++ body), generated.2)
            /\ (forall r e, r ∈ kept ++ body -> generated.2 !! r = Some e ->
                  exists n, position e = At n)
            /\ (forall r, r ∈ body -> r ∉ params definition)).
  { assert (Hkept : forall r e,
              r ∈ kept -> st !! r = Some e -> exists n, position e = At n).
    { intros r e Hr He. apply list_elem_of_filter in Hr as [Hpos _].
      unfold positional in Hpos. rewrite He in Hpos.
      simpl in Hpos. destruct (position e) as [n|]; [eauto|done]. }
    unfold generated, methodArguments. fold kept.
    destruct (requestBody definition) as [[n|]|] eqn:Hb; simpl.
    - exists [fresh (dom st)]. split; [done|]. split.
      + intros r e Hr He. apply elem_of_app in Hr as [Hr|Hr].
        * rewrite lookup_insert_ne in He; [by eapply Hkept|].
          apply list_elem_of_filter in Hr as [_ Hr]. apply Hfresh in Hr. done.
        * apply list_elem_of_singleton in Hr as ->.
          rewrite lookup_insert_eq in He. injection He as <-. eauto.
      + intros r Hr Hin. apply list_elem_of_singleton in Hr as ->.
        by apply Hfresh in Hin.
    - exists []. rewrite app_nil_r. split; [done|]. split.
      + intros r e Hr He. by eapply Hkept.
      + intros r Hr. by apply elem_of_nil in Hr.
    - exists []. rewrite app_nil_r. split; [done|]. split.
      + intros r e Hr He. by eapply Hkept.
      + intros r Hr. by apply elem_of_nil in Hr. }
  destruct Hgen as (body & Hg & Hpos & Hbody).
  assert (Hmem : forall r, r ∈ generated.1 <-> r ∈ kept ++ body).
  { intros r. rewrite Hg at 1. simpl. apply sortByPosition_elem. }
  split_and!.
  - intros r Hr. rewrite Hmem, elem_of_app. split.
    + intros [Hk|Hb]; [by apply list_elem_of_filter in Hk as [? _]|].
      by apply Hbody in Hb.
    + intros Hp. left. by apply list_elem_of_filter.
  - intros r e Hr He.
    destruct (Hpos r e) as [n Hn]; [by apply Hmem|done|].
    exists n. split; [done|].
    unfold call, invoke, fillRequest. simpl.
    destruct (someOptions generated.2 generated.1) as [found st2]. simpl.
    rewrite (fill_argument generated.2 args generated.1 ∅ r e) by done.
    by rewrite Hn.
  - intros k Hk. unfold call, invoke, fillRequest.
    destruct (someOptions generated.2 generated.1) as [found st2]. simpl.
    by rewrite fill_other.
  - apply options_is_last.
Qed.

(** X26. The test for options in a generated method assigns instead of
    comparing: the first call of a method with arguments sets the
    [position] of its first argument to ['options'], in the object that
    the [methods] table shares. From then on this argument is read at
    [args['options']]: it is [undefined] in every later call, whatever is
    passed, and the store does not change any more. *)
Theorem first_argument_lost (first : nat) (rest : list nat) (e : Param)
    (args1 args2 : list json) (st : gmap nat Param) :
  st !! first = Some e ->
  let st1 := (invoke (first :: rest) args1 st).2 in
  st1 !! first = Some {| name := name e; position := Options |}
  /\ (forall r, r <> first -> st1 !! r = st !! r)
  /\ argument args2 Options = None
  /\ (invoke (first :: rest) args2 st1).2 = st1
  /\ ((forall r e', r ∈ rest -> st !! r = Some e' -> name e' <> name e) ->
      (invoke (first :: rest) args2 st1).1.1 !! name e = Some None).
Proof.
  intros He st1. unfold st1, invoke. simpl. rewrite He.
  split; [by rewrite lookup_insert_eq|].
  split; [by intros r Hr; rewrite lookup_insert_ne|].
  split; [done|].
  split.
  { rewrite lookup_insert_eq. by rewrite insert_insert_eq. }
  intros Hnames. unfold fillRequest. simpl. rewrite lookup_insert_eq. simpl.
  assert (Hfold : forall (l : list nat) (request : gmap string (option json)),
            (forall r e', r ∈ l -> st !! r = Some e' -> name e' <> name e) ->
            first ∉ l \/ True ->
            request !! name e = Some None ->
            fold_left
              (fun request r =>
                 match <[first := {| name := name e; position := Options |}]> st !! r with
                 | Some methodArgument =>
                     <[name methodArgument :=
                         argument args2 (position methodArgument)]> request
                 | None => request
                 end) l request !! name e = Some None).
  { induction l as [|r l IH]; intros request Hl _ Hreq; [done|].
    simpl. apply IH.
    - intros r' e' Hr'. apply Hl. by apply elem_of_cons; right.
    - by right.
    - destruct (decide (r = first)) as [->|Hne].
      + rewrite lookup_insert_eq. simpl. by rewrite lookup_insert_eq.
      + rewrite lookup_insert_ne by done.
        destruct (st !! r) as [e'|] eqn:Hr; [|done].
        rewrite lookup_insert_ne; [done|].
        eapply Hl; [|exact Hr]. by apply elem_of_cons; left. }
  apply Hfold; [done|by right|by rewrite lookup_insert_eq].
Qed.

Lemma index_dot_cons (c : Ascii.ascii) (s : string) :
  String.index 0 "." (String c s) =
  if Ascii.eqb c dot then Some 0%nat else S <$> String.index 0 "." s.
Proof.
  change (String.index 0 "." (String c s)) with
    (if String.prefix "." (String c s) then Some 0%nat
     else match String.index 0 "." s with
          | Some n => Some (S n)
          | None => None
          end).
  assert (Hp : String.prefix "." (String c s) = Ascii.eqb c dot).
  { change (String.prefix "." (String c s)) with
      (match Ascii.ascii_dec dot c with
       | left _ => String.prefix "" s
       | right _ => false
       end).
    destruct (Ascii.ascii_dec dot c) as [<-|Hne].
    - rewrite Ascii.eqb_refl. by destruct s.
    - apply not_eq_sym, Ascii.eqb_neq in Hne. by rewrite Hne. }
  rewrite Hp. destruct (Ascii.eqb c dot); [done|].
  by destruct (String.index 0 "." s).
Qed.

Lemma index_dot_segment (segment rest : string) :
  dotFree segment = true ->
  String.index 0 "." (segment +:+ String dot rest) = Some (String.length segment).
Proof.
  induction segment as [|c segment IH]; intros Hf.
  - change (EmptyString +:+ String dot rest) with (String dot rest).
    rewrite index_dot_cons. by rewrite Ascii.eqb_refl.
  - simpl in Hf. apply andb_prop in Hf as [Hc Hf].
    change (String c segment +:+ String dot rest)
      with (String c (segment +:+ String dot rest)).
    rewrite index_dot_cons. apply negb_true_iff in Hc. rewrite Hc.
    rewrite IH by done. done.
Qed.

Lemma index_dot_none (s : string) :
  dotFree s = true -> String.index 0 "." s = None.
Proof.
  induction s as [|c s IH]; intros Hf; [done|].
  simpl in Hf. apply andb_prop in Hf as [Hc Hf].
  rewrite index_dot_cons. apply negb_true_iff in Hc. rewrite Hc.
  by rewrite IH.
Qed.

Lemma substring_prefix (a b : string) :
  String.substring 0 (String.length a) (a +:+ b) = a.
Proof.
  induction a as [|c a IH]; simpl.
  - by destruct b.
  - by rewrite IH.
Qed.

Lemma substring_all (s : string) (m : nat) :
  (String.length s <= m)%nat -> String.substring 0 m s = s.
Proof.
  revert m. induction s as [|c s IH]; intros m Hm.
  - by destruct m.
  - destruct m as [|m]; simpl in *; [lia|]. rewrite IH; [done|lia].
Qed.

Lemma substring_suffix (a b : string) (m : nat) :
  (String.length b <= m)%nat ->
  String.substring (String.length a) m (a +:+ b) = b.
Proof.
  intros Hm. induction a as [|c a IH]; simpl.
  - by apply substring_all.
  - exact IH.
Qed.

Lemma substring_after (a b : string) (m : nat) :
  (String.length b <= m)%nat ->
  String.substring (String.length a + 1) m (a +:+ String dot b) = b.
Proof.
  intros Hm. induction a as [|c a IH]; simpl.
  - by apply substring_all.
  - exact IH.
Qed.

Lemma substring_length (n m : nat) (s : string) :
  (String.length (String.substring n m s) <= String.length s - n)%nat.
Proof.
  revert n m. induction s as [|c s IH]; intros n m.
  - destruct n, m; simpl; lia.
  - destruct n as [|n].
    + destruct m as [|m]; simpl; [lia|]. specialize (IH 0%nat m). lia.
    + simpl. apply IH.
Qed.

Lemma index_dot_length (s : string) (i : nat) :
  String.index 0 "." s = Some i -> (i < String.length s)%nat.
Proof.
  revert i. induction s as [|c s IH]; intros i H; [done|].
  rewrite index_dot_cons in H. destruct (Ascii.eqb c dot).
  - injection H as <-. simpl. lia.
  - destruct (String.index 0 "." s) as [j|]; [|done].
    injection H as <-. specialize (IH j eq_refl). simpl. lia.
Qed.

(** The recursion of [get] is never cut short, and a larger bound gives
    the same result. *)
Lemma get_within_stable (d1 d2 : nat) (object : option json) (path : string) :
  (String.length path < d1)%nat -> (String.length path < d2)%nat ->
  is_Some (get_within d1 object path)
  /\ get_within d1 object path = get_within d2 object path.
Proof.
  revert d2 object path.
  induction d1 as [|d1 IH]; intros d2 object path H1 H2; [lia|].
  destruct d2 as [|d2]; [lia|]. simpl.
  destruct (String.index 0 "." path) as [i|] eqn:Hi; [|eauto].
  destruct (prop object (String.substring 0 i path)) as [v|msg]; [|eauto].
  pose proof (index_dot_length _ _ Hi) as Hlt.
  pose proof (substring_length (i + 1) (String.length path) path) as Hsub.
  apply IH; lia.
Qed.

Lemma get_within_enough (depth : nat) (object : option json) (path : string) :
  (String.length path < depth)%nat ->
  is_Some (get_within depth object path)
  /\ get_within depth object path = get object path.
Proof.
  intros Hd. unfold get. apply get_within_stable; lia.
Qed.

(** X27. [get(object, path)] follows a dotted path: it always returns or
    throws (the recursion ends), a path without a dot reads one property,
    and a path [segment.rest] reads [segment], then follows [rest] in the
    value found. A property that is missing on the way makes the next read
    throw (a property of [undefined]); one that is missing at the end gives
    [undefined]. *)
Theorem get_follows_path (object : option json) (segment rest : string) :
  is_Some (get object rest)
  /\ (dotFree rest = true -> get object rest = Some (prop object rest))
  /\ (dotFree segment = true ->
      get object (segment +:+ "." +:+ rest)
      = match prop object segment with
        | Throw msg => Some (Throw msg)
        | Normal v => get v rest
        end)
  /\ (dotFree segment = true -> prop object segment = Normal None ->
      exists msg, get object (segment +:+ "." +:+ rest) = Some (Throw msg)).
Proof.
  assert (Hstep : dotFree segment = true ->
            get object (segment +:+ "." +:+ rest)
            = match prop object segment with
              | Throw msg => Some (Throw msg)
              | Normal v => get v rest
              end).
  { intros Hf. unfold get at 1. simpl.
    change (segment +:+ "." +:+ rest) with (segment +:+ String dot rest).
    rewrite index_dot_segment by done.
    rewrite substring_prefix.
    destruct (prop object segment) as [v|msg]; [|done].
    assert (Hrest : String.substring (String.length segment + 1)
                      (String.length (segment +:+ String dot rest))
                      (segment +:+ String dot rest) = rest).
    { apply substring_after. clear.
      induction segment as [|c s IH]; simpl; lia. }
    rewrite Hrest.
    apply get_within_enough.
    clear. induction segment as [|c s IH]; simpl; lia. }
  split.
  { apply (get_within_enough (S (String.length rest)) object rest). lia. }
  split.
  { intros Hf. unfold get. simpl. by rewrite index_dot_none. }
  split; [exact Hstep|].
  intros Hf Hnone. rewrite Hstep, Hnone by done.
  destruct (get_within_enough (S (String.length rest)) None rest) as [_ He]; [lia|].
  unfold get. simpl.
  destruct (String.index 0 "." rest); simpl; eauto.
Qed.

End DocumentGenFacts.

Module DocumentGenExamples.
Import DocumentGen.
#[local] Open Scope list_scope.

Lemma first_argument_lost_witness :
  (invoke (methodArguments create table).1 [JStr "idx"; JStr "col"]
     (invoke (methodArguments create table).1 [JStr "idx"; JStr "col"]
        (methodArguments create table).2).2).1.1 !! "index"
  = Some None.
Proof.
  apply (DocumentGenFacts.first_argument_lost 0 [1; 4; 2]%nat
           {| name := "index"; position := At 0 |}
           [JStr "idx"; JStr "col"] [JStr "idx"; JStr "col"]
           (methodArguments create table).2).
  - vm_compute. reflexivity.
  - intros r e' Hr He'.
    apply elem_of_cons in Hr as [->|Hr]; [vm_compute in He'; by simplify_eq|].
    apply elem_of_cons in Hr as [->|Hr]; [vm_compute in He'; by simplify_eq|].
    apply elem_of_cons in Hr as [->|Hr]; [vm_compute in He'; by simplify_eq|].
    by apply elem_of_nil in Hr.
Defined.

Lemma get_follows_path_witness :
  get (Some (JObj {["result" := JObj {["_id" := JStr "uniq-id"]}]})) "result._id"
  = match prop (Some (JObj {["result" := JObj {["_id" := JStr "uniq-id"]}]}))
            "result" with
    | Throw msg => Some (Throw msg)
    | Normal v => get v "_id"
    end.
Proof.
  apply (DocumentGenFacts.get_follows_path
           (Some (JObj {["result" := JObj {["_id" := JStr "uniq-id"]}]}))
           "result" "_id").
  reflexivity.
Defined.

Lemma generated_method_reads_by_rank_witness :
  (invoke (methodArguments create table).1
     [JStr "idx"; JStr "col"; JObj ∅] (methodArguments create table).2).1.2
  = Some (JObj ∅).
Proof.
  destruct (DocumentGenFacts.generated_method_reads_by_rank create table
              [JStr "idx"; JStr "col"; JObj ∅]) as (_ & _ & _ & H).
  - apply Forall_forall. intros r Hr.
    apply elem_of_cons in Hr as [->|Hr]; [vm_compute; eauto|].
    apply elem_of_cons in Hr as [->|Hr]; [vm_compute; eauto|].
    apply elem_of_cons in Hr as [->|Hr]; [vm_compute; eauto|].
    apply elem_of_cons in Hr as [->|Hr]; [vm_compute; eauto|].
    by apply elem_of_nil in Hr.
  - vm_compute. repeat constructor; set_solver.
  - rewrite H; [reflexivity|]. vm_compute. discriminate.
Defined.

(** The table as the file leaves it once it has run, its own call of
    [create] made: a controller constructed then has no [index] argument,
    and its [create] sets no [index] in the request. *)
Example create_after_load :
  let generated := methodArguments create table in
  let args := [JStr "idx"; JStr "col"; JObj {["name" := JStr "Adri"]};
               JStr "uniq-id"; JObj {["refresh" := JStr "wait_for"]}] in
  let loaded := (invoke generated.1 args generated.2).2 in
  let later := methodArguments create loaded in
  omap (fun r => name <$> later.2 !! r) later.1 = ["collection"; "body"; "_id"]
  /\ (invoke later.1 args later.2).1.1 !! "index" = None
  /\ (invoke later.1 args later.2).1.1 !! "collection" = Some (Some (JStr "col")).
Proof. vm_compute. done. Qed.

(** The call at the end of the file, [doc.create('idx', 'col',
    { name: 'Adri' }, 'uniq-id', { refresh: 'wait_for' })], and the same
    call once more. *)
Example create_twice :
  let generated := methodArguments create table in
  let args := [JStr "idx"; JStr "col"; JObj {["name" := JStr "Adri"]};
               JStr "uniq-id"; JObj {["refresh" := JStr "wait_for"]}] in
  let call1 := invoke generated.1 args generated.2 in
  let call2 := invoke generated.1 args call1.2 in
  call1.1.1 !! "index" = Some (Some (JStr "idx"))
  /\ call1.1.2 = Some (JObj {["refresh" := JStr "wait_for"]})
  /\ call2.1.1 !! "index" = Some None
  /\ call2.1.1 !! "collection" = Some (Some (JStr "col")).
Proof. vm_compute. done. Qed.

Example get_missing :
  get (Some (JObj {["result" := JNull]})) "result._id"
  = Some (Throw "TypeError: Cannot read properties of null")
  /\ get (Some (JObj ∅)) "result" = Some (Normal None)
  /\ get (Some (JObj ∅)) "result._id"
     = Some (Throw "TypeError: Cannot read properties of undefined").
Proof. vm_compute. done. Qed.

End DocumentGenExamples.

(** ** Construction, properties and events *)

Module ConstructionFacts.
Import Kuzzle Session Construction.
#[local] Open Scope list_scope.

Ltac solve_read :=
  unfold read;
  repeat (rewrite lookup_insert_ne by (intros ?; discriminate));
  rewrite lookup_insert_eq; reflexivity.

Lemma expected_not_array (a : accessor) : String.eqb (expected a) "array" = false.
Proof. by destruct a. Qed.

Lemma field_injective (a b : accessor) : field a = field b -> a = b.
Proof. destruct a, b; simpl; intros H; try done; discriminate H. Qed.

(** X28. A setter that checks its value accepts a value of the type it
    expects and nothing else. With the right type the property takes the
    value (the getter returns it) and the other properties keep theirs;
    with any other type the setter throws, naming the property, the type
    expected and the type received, and nothing is changed. In particular
    [offlineQueueLoader] and [queueFilter], which start as [null], cannot
    be set back to [null]. *)
Theorem setter_checks_type (a : accessor) (v : value) (properties : gmap string value) :
  (typeof v = expected a ->
   setter a v properties = Normal (<[field a := v]> properties)
   /\ getter a (<[field a := v]> properties) = v
   /\ forall b, b <> a ->
        getter b (<[field a := v]> properties) = getter b properties)
  /\ (typeof v <> expected a ->
      setter a v properties
      = Throw ("Expected " +:+ checkedName a +:+ " to be a " +:+ expected a
               +:+ ", " +:+ typeof v +:+ " received"))
  /\ (expected a = "function" -> exists msg, setter a null properties = Throw msg).
Proof.
  unfold setter, _checkPropertyType. rewrite expected_not_array.
  split; [|split].
  - intros Ht. rewrite Ht, String.eqb_refl. simpl.
    split; [done|]. unfold getter, read.
    split; [by rewrite lookup_insert_eq|].
    intros b Hb. rewrite lookup_insert_ne; [done|].
    intros Hf. apply field_injective in Hf. by subst.
  - intros Ht. apply String.eqb_neq in Ht. rewrite Ht. reflexivity.
  - intros He. rewrite He. simpl. eauto.
Qed.

Lemma missingMethod_Some (protocol : gmap string value) (methods : list string)
    (method : string) :
  missingMethod protocol methods = Some method ->
  method ∈ methods /\ typeof (read protocol method) <> "function".
Proof.
  induction methods as [|m rest IH]; [done|]. simpl.
  destruct (String.eqb (typeof (read protocol m)) "function") eqn:Hm.
  - intros H. destruct (IH H) as [Hin Ht]. split; [by apply elem_of_cons; right|done].
  - intros [= <-]. split; [by apply elem_of_cons; left|]. by apply String.eqb_neq.
Qed.

Lemma isTrue_spec (v : value) : isTrue v = true <-> v = true_.
Proof.
  split; [|by intros ->].
  destruct v as [| |[| [] | | | |]]; simpl; try done.
Qed.

Lemma cookieAuth_isTrue (options : gmap string value) :
  isTrue (optionOr "boolean" options "cookieAuth" false_) = true
  <-> read options "cookieAuth" = true_.
Proof.
  unfold optionOr.
  destruct (read options "cookieAuth") as [| |[| [] | | | |]]; simpl;
    split; intros H; try done; try discriminate H.
Qed.

(** X29. The constructor fails on its protocol only: it throws when the
    protocol is [undefined] or [null], when one of [addListener],
    [isReady] and [query] is not a function of the protocol, and, with
    [cookieAuth: true], when the protocol has no [enableCookieSupport] or
    when there is no [XMLHttpRequest]. No other option can make it throw: an
    option of the wrong type is ignored and the default is taken. With
    [offlineMode: 'auto'], [autoQueue] and [autoReplay] are [true] whatever
    the options say; a new SDK is neither queuing nor logged in. *)
Theorem constructor_checks_protocol_only (protocol : option (gmap string value))
    (options : gmap string value) (sdkVersion : string) (browser : bool) :
  ((exists msg, construct protocol options sdkVersion browser = Throw msg)
   <-> protocol = None
       \/ exists p,
            protocol = Some p
            /\ (is_Some (missingMethod p requiredMethods)
                \/ (read options "cookieAuth" = true_
                    /\ (typeof (read p "enableCookieSupport") <> "function"
                        \/ browser = false))))
  /\ forall properties steps,
       construct protocol options sdkVersion browser = Normal (properties, steps) ->
       Forall (fun x => read properties x.1.1.2 = optionOr x.1.2 options x.1.1.1 x.2)
              typedOptions
       /\ (read properties "_autoQueue"
           = if isAuto (read options "offlineMode") then true_
             else optionOr "boolean" options "autoQueue" false_)
       /\ (read properties "_autoReplay"
           = if isAuto (read options "offlineMode") then true_
             else optionOr "boolean" options "autoReplay" false_)
       /\ read properties "_queuing" = false_
       /\ read properties "_loggedIn" = false_
       /\ read properties "_reconnectInProgress" = false_
       /\ read properties "_offlineQueue" = VJson (JArr []).
Proof.
  split.
  - split.
    + intros [msg H]. destruct protocol as [p|]; [|by left]. right.
      exists p. split; [done|]. unfold construct in H.
      destruct (missingMethod p requiredMethods) as [m|] eqn:Hm; [left; eauto|].
      right.
      destruct (isTrue (optionOr "boolean" options "cookieAuth" false_)) eqn:Hc.
      * split; [by apply cookieAuth_isTrue|].
        destruct (String.eqb (typeof (read p "enableCookieSupport")) "function")
          eqn:He.
        -- right. cbn [andb negb] in H. destruct browser; [discriminate H|done].
        -- left. by apply String.eqb_neq.
      * cbn [andb] in H. discriminate H.
    + intros [->|(p & -> & H)]; [by eexists|].
      unfold construct.
      destruct H as [[m Hm]|(Hc & H)]; [rewrite Hm; by eexists|].
      destruct (missingMethod p requiredMethods); [by eexists|].
      apply cookieAuth_isTrue in Hc. rewrite Hc. cbn [andb].
      destruct H as [He| ->].
      * apply String.eqb_neq in He. rewrite He. cbn [negb]. by eexists.
      * destruct (String.eqb _ _); cbn [negb]; by eexists.
  - intros properties steps H.
    destruct protocol as [p|]; [|discriminate H]. unfold construct in H.
    destruct (missingMethod p requiredMethods); [discriminate H|].
    destruct (isTrue (optionOr "boolean" options "cookieAuth" false_)
              && negb (String.eqb (typeof (read p "enableCookieSupport")) "function"));
      [discriminate H|].
    destruct (isTrue (optionOr "boolean" options "cookieAuth" false_) && negb browser);
      [discriminate H|].
    apply (f_equal (fun r => match r with
                             | Normal built => built.1
                             | Throw _ => ∅
                             end)) in H.
    cbv beta iota in H. unfold fst in H. subst properties.
    unfold typedOptions.
    destruct (isAuto (read options "offlineMode"));
      (split; [repeat (constructor; [cbn [fst snd]; solve_read|]);
               constructor|]);
      repeat (split; [solve_read|]); solve_read.
Qed.


Ltac known :=
  unfold events;
  repeat first [apply list_elem_of_here | apply list_elem_of_further].

Lemma speaks_refl (s : SDK) : speaks s s.
Proof. exists []. by rewrite app_nil_r. Qed.

Lemma speaks_trans (s1 s2 s3 : SDK) : speaks s1 s2 -> speaks s2 s3 -> speaks s1 s3.
Proof.
  intros (m1 & H1 & F1) (m2 & H2 & F2). exists (m1 ++ m2).
  split; [by rewrite H2, H1, app_assoc|]. by apply Forall_app.
Qed.

Lemma speaks_same (s s' : SDK) : trace s' = trace s -> speaks s s'.
Proof. intros H. exists []. by rewrite app_nil_r. Qed.

Lemma speaks_more (s s' : SDK) (more : list effect) :
  trace s' = trace s ++ more -> Forall knownEvent more -> speaks s s'.
Proof. intros H F. by exists more. Qed.

Lemma speaks_log (e : effect) (s : SDK) : knownEvent e -> speaks s (log e s).
Proof. intros H. apply (speaks_more _ _ [e]); [done|]. by constructor. Qed.

Lemma speaks_emit (now : Z) (ev : string) (p : payload) (s : SDK) :
  ev ∈ events -> speaks s (emit now ev p s).
Proof.
  intros Hev. destruct (throttled now ev s) eqn:Ht.
  - rewrite EmitFacts.emit_throttled by done. apply speaks_refl.
  - rewrite EmitFacts.emit_delivered by done.
    apply (speaks_more _ _ [Emitted ev p]).
    + by destruct (protectedEvent ev).
    + by constructor.
Qed.

Lemma known_dropEffects (msg : string) (dropped : list QueueEntry) :
  Forall knownEvent (dropEffects msg dropped).
Proof.
  induction dropped as [|e l IH]; [constructor|]. simpl.
  constructor; [simpl; known|]. by constructor.
Qed.

Lemma speaks_cleanQueue (now : Z) (s : SDK) : speaks s (_cleanQueue now s).
Proof.
  rewrite QueueFacts.cleanQueue_spec.
  apply (speaks_more _ _ (evictionEffects now (cfg s) (offlineQueue s))); [done|].
  unfold evictionEffects. apply Forall_app. split; apply known_dropEffects.
Qed.

Lemma speaks_dequeuingProcess (now : Z) (s : SDK) : speaks s (dequeuingProcess now s).
Proof.
  destruct (offlineQueue s) as [|e q] eqn:Hq.
  - rewrite QueueFacts.dequeuingProcess_nil by done. apply speaks_refl.
  - rewrite (QueueFacts.dequeuingProcess_cons now s e q Hq).
    apply (speaks_more _ _ (replayStep (replayInterval (cfg s)) e)); [done|].
    unfold replayStep. apply Forall_app. split.
    + destruct (Z.eqb (timeout e) (-1)); repeat constructor.
    + constructor; [done|]. constructor; [simpl; known|]. by constructor.
Qed.

Lemma speaks_timerFires (now : Z) (s : SDK) : speaks s (timerFires now s).
Proof.
  unfold timerFires. destruct (pendingReplays s) as [|n]; [apply speaks_refl|].
  eapply speaks_trans; [|apply speaks_dequeuingProcess]. by apply speaks_same.
Qed.

Lemma speaks_playQueue (now : Z) (s : SDK) : speaks s (playQueue now s).
Proof.
  unfold playQueue. destruct (protocol_ready s); [|apply speaks_refl].
  unfold _dequeue.
  destruct (offlineQueueLoader (cfg (_cleanQueue now s))).
  - eapply speaks_trans; [apply speaks_cleanQueue|]. by apply speaks_same.
  - eapply speaks_trans; [apply speaks_cleanQueue|apply speaks_dequeuingProcess].
Qed.

Lemma speaks_loaderAnswers (now : Z) (s : SDK) : speaks s (loaderAnswers now s).
Proof.
  unfold loaderAnswers. destruct (pendingLoads s) as [|n]; [apply speaks_refl|].
  unfold loaded. simpl cfg.
  destruct (offlineQueueLoader (cfg s)) as [[L|t|m]|]; try by apply speaks_same.
  simpl offlineQueue.
  destruct (filterUnique ∅ (L ++ offlineQueue s)) as [kept|];
    [|by apply speaks_same].
  eapply speaks_trans; [|apply speaks_dequeuingProcess]. by apply speaks_same.
Qed.

Lemma speaks_dispatch (queuable : bool) (t : Z) (r : Request) (now : Z) (s : SDK) :
  speaks s (dispatch queuable t r now s).
Proof.
  unfold dispatch. simpl. destruct (queuing s); [destruct queuable|].
  - eapply speaks_trans; [|by apply speaks_same].
    eapply speaks_trans; [|apply speaks_emit; known].
    eapply speaks_trans; [|apply speaks_cleanQueue]. by apply speaks_same.
  - eapply speaks_trans; [|by apply speaks_log].
    eapply speaks_trans; [|apply speaks_emit; known]. by apply speaks_same.
  - unfold _timeoutRequest. destruct (Z.eqb t (-1)).
    + eapply speaks_trans; [|by apply speaks_log]. by apply speaks_same.
    + eapply speaks_trans; [|by apply speaks_log].
      eapply speaks_trans; [|by apply speaks_log]. by apply speaks_same.
Qed.

Lemma speaks_issue (s : SDK) (c : Call) : speaks s (issue s c).
Proof.
  unfold issue.
  destruct (query (call_req c) (call_opts c) (call_uuid c) (call_now c) s)
    as [[s' r]|] eqn:H; [|apply speaks_refl].
  destruct (call_req c) as [| | | | |req]; try discriminate;
    destruct (call_opts c) as [| | | | |options]; try discriminate.
  apply DispatchFacts.query_parts in H as (l & s1 & queuable & Hp & _ & _ & ->).
  apply QueueFacts.prepareVolatile_frame in Hp as [h ->].
  eapply speaks_trans; [|apply speaks_dispatch]. by apply speaks_same.
Qed.

Lemma speaks_connect (s : SDK) : speaks s (connect s).
Proof.
  unfold connect. destruct (protocol_ready s); [apply speaks_refl|].
  repeat (eapply speaks_trans; [|by apply speaks_log]).
  destruct (autoQueue (cfg s)); [by apply speaks_same|apply speaks_refl].
Qed.

Lemma speaks_tryReAuthenticate (now : Z) (check1 check2 : CheckToken) (s : SDK) :
  speaks s (fst (tryReAuthenticate now check1 check2 s)).
Proof.
  destruct (SessionFacts.reauthentication_outcome_aux now check1 check2 s)
    as (_ & _ & _ & _ & _ & _ & _ & _ & _ & msg & Htr).
  eapply speaks_more; [exact Htr|].
  apply Forall_app. split.
  - destruct (authenticatorCalled _ _); repeat constructor.
  - destruct (reauthenticates _ _ _); [constructor|].
    constructor; [simpl; known|constructor].
Qed.

Lemma speaks_reconnect (now : Z) (check1 check2 : CheckToken) (s : SDK) :
  speaks s (fst (_reconnect now check1 check2 s)).
Proof.
  unfold _reconnect.
  destruct (reconnectInProgress s); [apply speaks_refl|].
  set (s0 := if autoQueue (cfg s) then stopQueuing s else s).
  assert (H0 : speaks s s0).
  { unfold s0. destruct (autoQueue (cfg s)); [by apply speaks_same|apply speaks_refl]. }
  assert (Hresume : forall s1, speaks s s1 ->
            speaks s (emit now "reconnected" PVoid
                        (if autoReplay (cfg s1) then playQueue now s1 else s1))).
  { intros s1 H1. eapply speaks_trans; [|apply speaks_emit; known].
    destruct (autoReplay (cfg s1)); [|done].
    eapply speaks_trans; [exact H1|apply speaks_playQueue]. }
  destruct (loggedIn s0).
  - pose proof (speaks_tryReAuthenticate now check1 check2 s0) as Ht.
    destruct (tryReAuthenticate now check1 check2 s0) as [s1 [[]|]]; simpl in *.
    + apply Hresume. by eapply speaks_trans.
    + eapply speaks_trans; [exact H0|].
      eapply speaks_trans; [exact Ht|].
      unfold disconnect. eapply speaks_trans; [|by apply speaks_log].
      by apply speaks_same.
    + by eapply speaks_trans.
  - simpl. by apply Hresume.
Qed.

Lemma speaks_tokenExpired (now later : Z) (check1 check2 : CheckToken) (st : State) :
  speaks (sdk st) (sdk (fst (tokenExpired now later check1 check2 st))).
Proof.
  unfold tokenExpired.
  destruct (reconnectInProgress (sdk st)); [apply speaks_refl|].
  assert (H1 : speaks (sdk st)
                 (fst (if loggedIn (sdk st)
                       then tryReAuthenticate now check1 check2 (sdk st)
                       else (sdk st, Normal false)))).
  { destruct (loggedIn (sdk st)); [apply speaks_tryReAuthenticate|apply speaks_refl]. }
  destruct (if loggedIn (sdk st)
            then tryReAuthenticate now check1 check2 (sdk st)
            else (sdk st, Normal false)) as [s1 [[]|]]; cbn -[emit] in *.
  - eapply speaks_trans; [exact H1|apply speaks_emit; known].
  - destruct (Z.ltb _ _); cbn -[emit]; [done|].
    eapply speaks_trans; [exact H1|].
    eapply speaks_trans; [|apply speaks_emit; known]. by apply speaks_same.
  - done.
Qed.

Lemma speaks_handle (h : handler) (w : Env) (st : State) :
  speaks (sdk st) (sdk (fst (handle h w st))).
Proof.
  destruct h; cbn -[emit tokenExpired _reconnect playQueue];
    try (apply speaks_emit; known).
  - apply speaks_tokenExpired.
  - set (s0 := if autoQueue (cfg (sdk st)) then stopQueuing (sdk st) else sdk st).
    assert (H0 : speaks (sdk st) s0).
    { unfold s0. destruct (autoQueue (cfg (sdk st)));
        [by apply speaks_same|apply speaks_refl]. }
    set (s1 := if autoReplay (cfg s0) then playQueue (env_now w) s0 else s0).
    assert (H1 : speaks (sdk st) s1).
    { unfold s1. destruct (autoReplay (cfg s0)); [|done].
      eapply speaks_trans; [exact H0|apply speaks_playQueue]. }
    destruct (throttled (env_now w) "connected" s1).
    + eapply speaks_trans; [exact H1|apply speaks_emit; known].
    + eapply speaks_trans; [exact H1|].
      apply (speaks_trans _ (emit (env_now w) "connected" PVoid s1));
        [apply speaks_emit; known|].
      unfold onConnected, refreshLoggedIn.
      destruct (isAuthenticated _); by apply speaks_same.
  - eapply speaks_trans; [|apply speaks_emit; known].
    destruct (autoQueue (cfg (sdk st))); [by apply speaks_same|apply speaks_refl].
  - pose proof (speaks_reconnect (env_now w) (env_check1 w) (env_check2 w) (sdk st))
      as Hr.
    by destruct (_reconnect (env_now w) (env_check1 w) (env_check2 w) (sdk st)).
  - by apply speaks_same.
  - by apply speaks_same.
Qed.

Lemma speaks_perform (a : action) (st : State) :
  speaks (sdk st) (sdk (perform st a)).
Proof.
  destruct a; cbn -[handle playQueue timerFires loaderAnswers issue connect].
  - apply speaks_issue.
  - apply speaks_playQueue.
  - apply speaks_timerFires.
  - apply speaks_loaderAnswers.
  - by apply speaks_same.
  - by apply speaks_same.
  - by apply speaks_same.
  - apply speaks_connect.
  - unfold disconnect. eapply speaks_trans; [|by apply speaks_log].
    by apply speaks_same.
  - by apply speaks_same.
  - apply speaks_handle.
  - unfold onLoginAttempt, refreshLoggedIn.
    destruct success; [by apply speaks_same|].
    destruct (isAuthenticated _); by apply speaks_same.
  - unfold onLogoutAttempt. destruct success;
      [by apply speaks_same|apply speaks_refl].
Qed.

Lemma speaks_performAll (acts : list action) (st : State) :
  speaks (sdk st) (sdk (performAll acts st)).
Proof.
  revert st. induction acts as [|a acts IH]; intros st; [apply speaks_refl|].
  unfold performAll in *. simpl.
  eapply speaks_trans; [apply speaks_perform|apply IH].
Qed.

(** X30. Whatever the application and the transport do, every event that
    the SDK emits is one of its known events, so that a listener can be
    added for it: [addListener] accepts exactly the names of [events] and
    throws on any other. The protected name [error] is not one of them. *)
Theorem emitted_events_are_known (acts : list action) (st : State) :
  (exists since,
     trace (sdk (performAll acts st)) = trace (sdk st) ++ since
     /\ forall ev p, Emitted ev p ∈ since -> addListener ev = Normal tt)
  /\ (forall ev, addListener ev = Normal tt <-> ev ∈ events)
  /\ "error" ∈ protectedEvents
  /\ exists msg, addListener "error" = Throw msg.
Proof.
  assert (Hadd : forall ev, addListener ev = Normal tt <-> ev ∈ events).
  { intros ev. unfold addListener. case_bool_decide; split; try done. }
  split; [|split; [exact Hadd|]].
  - destruct (speaks_performAll acts st) as (since & Ht & Hk).
    exists since. split; [done|]. intros ev p Hin. apply Hadd.
    rewrite Forall_forall in Hk. exact (Hk _ Hin).
  - split; [unfold protectedEvents; known|].
    unfold addListener. rewrite bool_decide_eq_false_2; [eauto|].
    unfold events. intros Hin.
    repeat (apply elem_of_cons in Hin as [Hin|Hin]; [discriminate Hin|]).
    by apply elem_of_nil in Hin.
Qed.

End ConstructionFacts.

Module ConstructionExamples.
Import Construction ConstructionScenario.
#[local] Open Scope list_scope.

Lemma setter_checks_type_witness :
  setter QueueMaxSize (VJson (JStr "10")) ∅
  = Throw "Expected _queueMaxSize to be a number, string received".
Proof.
  apply (proj1 (proj2 (ConstructionFacts.setter_checks_type QueueMaxSize (VJson (JStr "10")) ∅))).
  intros H. discriminate H.
Defined.

Lemma constructor_checks_protocol_only_witness :
  exists msg, construct (Some (delete "query" minimalProtocol)) ∅ "7.0.0" true
              = Throw msg.
Proof.
  apply (proj1 (ConstructionFacts.constructor_checks_protocol_only
                  (Some (delete "query" minimalProtocol)) ∅ "7.0.0" true)).
  right. exists (delete "query" minimalProtocol). split; [reflexivity|].
  left. vm_compute. eexists. reflexivity.
Defined.

(** A string where a number is expected is ignored; [offlineMode: 'auto']
    wins over [autoQueue: false]. *)
Example options_of_the_wrong_type :
  match construct (Some minimalProtocol)
          (<["offlineMode" := VJson (JStr "auto")]>
             (<["autoQueue" := false_]> {["queueTTL" := VJson (JStr "5000")]}))
          "7.0.0" false with
  | Normal (properties, _) =>
      read properties "_queueTTL" = number 120000
      /\ read properties "_autoQueue" = true_
      /\ read properties "sdkName" = VJson (JStr "js@7.0.0")
  | Throw _ => False
  end.
Proof. vm_compute. done. Qed.

Example cookies_outside_a_browser :
  construct (Some (<["enableCookieSupport" := VFunction "enableCookieSupport"]>
                     minimalProtocol))
    {["cookieAuth" := true_]} "7.0.0" false
  = Throw "Support for cookie authentication with cookieAuth option is not supported outside a browser".
Proof. vm_compute. reflexivity. Qed.

End ConstructionExamples.
